(** * Strinova Discord Rich Presence: a shallow embedding of [main.py]

  The development follows the layout of the source file:
  - [Py]          the Python built-ins the program calls ([str.strip],
                  [str.lower], [in] on strings, [int], the product of a
                  [float] and an [int], truthiness);
  - [Difflib]     [difflib.get_close_matches] as the program uses it;
  - [Re]          [re.search] for the one pattern the program searches;
  - [ScreenCapture], [OCRReader], [MatchTracker], [DiscordRPC] and
    [Main]        one module per class of [main.py] and one for the loop.

  Conventions.  A Python [str] is a list of code points; the model covers
  text whose code points are below 256 ([ascii] holds one code point).
  A Python [float] is the rational ([Q]) it denotes.  The arithmetic on
  the region coordinates rounds to binary64 as the interpreter does
  ([Py.round64]); clock readings and similarity ratios are taken as exact
  rationals.  A call to a collaborator (the OCR engine,
  the clock, the Discord transport) is an explicit argument holding what
  the call returned. *)

From Stdlib Require Import QArith ZArith Ascii String Qround Qabs Qpower Lqa.
From stdpp Require Import gmap gmultiset list sorting.

Definition str := list ascii.
Declare Scope str_scope.
Delimit Scope str_scope with str.
Bind Scope str_scope with str.
#[warnings="-via-type-remapping,-via-type-mismatch"]
String Notation str string_of_list_byte list_byte_of_string
(via string mapping [[nil] => EmptyString, [cons] => String]) : str_scope.

(** ** Python built-ins *)

Module Py.

(** [int(x)] on a float: truncation towards zero. *)
Definition int (x : Q) : Z := Z.quot (Qnum x) (Zpos (Qden x)).

(** Truthiness of [str | None] and of [float | None]. *)
Definition truthy_str (o : option str) : bool :=
  match o with
  | Some (_ :: _) => true
  | _ => false
  end.

Definition truthy_float (o : option Q) : bool :=
  match o with
  | Some x => negb (Qeq_bool x 0)
  | None => false
  end.

(** [dict.get(key, default)] where the key may be absent. *)
Definition get_default {A} (o : option A) (d : A) : A := default d o.

(** What a call that may raise gives back. *)
Inductive exn := ValueError | KeyError | OverflowError | OtherException.

Inductive result (A : Type) :=
| Return (a : A)
| Raise (e : exn).
Arguments Return {A} a.
Arguments Raise {A} e.

(** ** Binary64 arithmetic

    The region coordinates of [config.json] are IEEE 754 binary64 numbers
    and their product with a monitor dimension is rounded before [int]
    truncates it.  A finite binary64 value is the rational it denotes;
    [round64] is rounding to the nearest such value, ties to the even
    significand. *)

(** [2 ** e]. *)
Definition pow2 (e : Z) : Q := Qpower 2 e.

(** The integer nearest to [m], the even one of two equally near. *)
Definition round_half_even (m : Q) : Z :=
  let f := Qfloor m in
  match (m - inject_Z f ?= 1 # 2)%Q with
  | Lt => f
  | Gt => (f + 1)%Z
  | Eq => if Z.even f then f else (f + 1)%Z
  end.

(** The binade of a positive [q]: [2 ** ilog2 q <= q < 2 ** (ilog2 q + 1)]. *)
Definition ilog2 (q : Q) : Z :=
  let e := (Z.log2 (Qnum q) - Z.log2 (Zpos (Qden q)))%Z in
  if Qle_bool (pow2 e) q then e else (e - 1)%Z.

(** The exponent of the unit in the last place: 53 significant bits, and
    [2 ** -1074] for the subnormal numbers. *)
Definition ulp_exponent (q : Q) : Z := Z.max (ilog2 q - 52) (-1074).

Definition round_to (e : Z) (q : Q) : Q :=
  (inject_Z (round_half_even (q / pow2 e)) * pow2 e)%Q.

(** Rounding to binary64; a result of magnitude [2 ** 1024] stands for an
    infinity. *)
Definition round64 (q : Q) : Q :=
  match Qnum q with
  | Z0 => 0
  | Zpos _ => round_to (ulp_exponent q) q
  | Zneg _ => - round_to (ulp_exponent (- q)) (- q)
  end.

Definition finite (x : Q) : bool := negb (Qle_bool (pow2 1024) (Qabs x)).

(** A number of a JSON document as [json.load] returns it: an [int] for an
    integer literal, a [float] for a literal with a fraction or an
    exponent.  [Float q] holds the literal's decimal value; the [float]
    is its rounding. *)
Inductive number :=
| Int (z : Z)
| Float (q : Q).

Definition value (n : number) : Q :=
  match n with
  | Int z => inject_Z z
  | Float q => round64 q
  end.

(** [int(n * w)] for an [int] [w]: exact on two integers; otherwise [w]
    is converted to [float], the product is rounded, and [int] truncates
    it.  Converting an [int] beyond the range of [float] raises
    [OverflowError]; so does [int] of an infinity, and [int] of a NaN
    (an infinity times zero) raises [ValueError]. *)
Definition int_of_product (n : number) (w : Z) : result Z :=
  match n with
  | Int z => Return (z * w)%Z
  | Float q =>
      let x := round64 q in
      let fw := round64 (inject_Z w) in
      if negb (finite fw) then Raise OverflowError
      else if negb (finite x) then
        if (w =? 0)%Z then Raise ValueError else Raise OverflowError
      else
        let p := round64 (x * fw) in
        if finite p then Return (int p) else Raise OverflowError
  end.

Definition bind {A B} (r : result A) (f : A -> result B) : result B :=
  match r with
  | Return a => f a
  | Raise e => Raise e
  end.

Definition code (c : ascii) : N := N_of_ascii c.

(** [c.isspace()] for a code point below 256. *)
Definition isspace (c : ascii) : bool :=
  let n := code c in
  ((9 <=? n) && (n <=? 13) || (28 <=? n) && (n <=? 32)
   || (n =? 133) || (n =? 160))%N.

(** [c.isdecimal()] for a code point below 256: the characters [\d]
    matches in a [str] pattern. *)
Definition isdecimal (c : ascii) : bool :=
  let n := code c in ((48 <=? n) && (n <=? 57))%N.

(** [c.lower()] for a code point below 256: [A-Z], and the capital
    letters of Latin-1 (0xC0..0xDE but the multiplication sign 0xD7). *)
Definition lower_char (c : ascii) : ascii :=
  let n := code c in
  if ((65 <=? n) && (n <=? 90)
      || (192 <=? n) && (n <=? 222) && negb (n =? 215))%N
  then ascii_of_N (n + 32) else c.

(** [s.lower()] *)
Definition lower (s : str) : str := map lower_char s.

(** [s.lstrip()], [s.rstrip()], [s.strip()] *)
Fixpoint lstrip (s : str) : str :=
  match s with
  | c :: s' => if isspace c then lstrip s' else s
  | [] => []
  end.

Definition rstrip (s : str) : str := reverse (lstrip (reverse s)).

Definition strip (s : str) : str := rstrip (lstrip s).

(** [s.startswith(sub)] *)
Fixpoint startswith (s sub : str) {struct sub} : bool :=
  match sub, s with
  | [], _ => true
  | c :: sub', d :: s' => bool_decide (c = d) && startswith s' sub'
  | _ :: _, [] => false
  end.

(** [sub in s] *)
Fixpoint contains (s sub : str) : bool :=
  startswith s sub ||
  match s with
  | [] => false
  | _ :: s' => contains s' sub
  end.

(** [sub] occurs in [s]. *)
Definition substring (sub s : str) : Prop :=
  exists pre post, s = pre ++ sub ++ post.

(** [s1 < s2]: strings compare code point by code point. *)
Fixpoint str_lt (s1 s2 : str) : bool :=
  match s1, s2 with
  | _, [] => false
  | [], _ :: _ => true
  | c1 :: s1', c2 :: s2' =>
      if (code c1 <? code c2)%N then true
      else if (code c2 <? code c1)%N then false
      else str_lt s1' s2'
  end.

(** Only whitespace. *)
Definition blank (s : str) : Prop := Forall (fun c => isspace c = true) s.

(** No whitespace at either end. *)
Definition trimmed (s : str) : Prop :=
  (forall c rest, s = c :: rest -> isspace c = false)
  /\ (forall front c, s = front ++ [c] -> isspace c = false).

End Py.

(** ** difflib *)

Module Difflib.

(** A matching block [(a, b, size)]: [a[a:a+size] == b[b:b+size]]. *)
Record Match := { m_a : nat; m_b : nat; m_size : nat }.

(** [SequenceMatcher.__chain_b], first loop: [b2j] maps each element of
    [b] to the ascending list of its positions. *)
Fixpoint index_from (i : nat) (b : str) (b2j : gmap ascii (list nat))
    : gmap ascii (list nat) :=
  match b with
  | [] => b2j
  | elt :: b' =>
      index_from (S i) b' (<[elt := default [] (b2j !! elt) ++ [i]]> b2j)
  end.

(** [SequenceMatcher.__chain_b].  [isjunk] is [None], so no element is
    junk; [autojunk] is on, so in a [b] of 200 elements or more the
    elements that occur more than [n // 100 + 1] times are purged. *)
Definition chain_b (b : str) : gmap ascii (list nat) :=
  let b2j := index_from 0 b ∅ in
  let n := length b in
  if bool_decide (200 ≤ n) then
    let ntest := n `div` 100 + 1 in
    filter (fun kv : ascii * list nat => length kv.2 ≤ ntest) b2j
  else b2j.

(** [j2len.get(j-1, 0)] *)
Definition j2len_get_pred (j2len : gmap nat nat) (j : nat) : nat :=
  match j with
  | 0 => 0
  | S j' => default 0 (j2len !! j')
  end.

(** The inner loop of [find_longest_match]:
    [for j in b2j.get(a[i], nothing)], with its [continue] and [break]. *)
Fixpoint scan_row (i blo bhi : nat) (j2len : gmap nat nat) (js : list nat)
    (best : Match) (newj2len : gmap nat nat) : Match * gmap nat nat :=
  match js with
  | [] => (best, newj2len)
  | j :: js' =>
      if bool_decide (j < blo) then
        scan_row i blo bhi j2len js' best newj2len
      else if bool_decide (bhi ≤ j) then (best, newj2len)
      else
        let k := j2len_get_pred j2len j + 1 in
        let newj2len := <[j := k]> newj2len in
        let best :=
          if bool_decide (m_size best < k)
          then {| m_a := i + 1 - k; m_b := j + 1 - k; m_size := k |}
          else best in
        scan_row i blo bhi j2len js' best newj2len
  end.

(** One round of the outer loop, [for i in range(alo, ahi)]. *)
Definition longest_step (a : str) (b2j : gmap ascii (list nat))
    (blo bhi : nat) (st : Match * gmap nat nat) (i : nat)
    : Match * gmap nat nat :=
  let js :=
    match a !! i with
    | Some elt => default [] (b2j !! elt)
    | None => []
    end in
  scan_row i blo bhi st.2 js st.1 ∅.

(** The first [while]: extend the match to the left while the elements
    before it agree. *)
Fixpoint extend_left (a b : str) (alo blo besti bestj bestsize : nat)
    : Match :=
  match besti, bestj with
  | S i', S j' =>
      if bool_decide (alo < besti) && bool_decide (blo < bestj)
         && bool_decide (a !! i' = b !! j')
      then extend_left a b alo blo i' j' (S bestsize)
      else {| m_a := besti; m_b := bestj; m_size := bestsize |}
  | _, _ => {| m_a := besti; m_b := bestj; m_size := bestsize |}
  end.

(** The second [while]: extend it to the right.  [rounds] bounds the number
    of rounds; [ahi - (besti + bestsize)] is enough, since every round
    moves [besti + bestsize] one step towards [ahi]. *)
Fixpoint extend_right (rounds : nat) (a b : str)
    (ahi bhi besti bestj bestsize : nat) : Match :=
  match rounds with
  | 0 => {| m_a := besti; m_b := bestj; m_size := bestsize |}
  | S rounds' =>
      if bool_decide (besti + bestsize < ahi)
         && bool_decide (bestj + bestsize < bhi)
         && bool_decide (a !! (besti + bestsize) = b !! (bestj + bestsize))
      then extend_right rounds' a b ahi bhi besti bestj (S bestsize)
      else {| m_a := besti; m_b := bestj; m_size := bestsize |}
  end.

(** [SequenceMatcher.find_longest_match(alo, ahi, blo, bhi)].  The last two
    [while] loops of the source extend the match by junk elements only;
    the junk set is empty here and they never run. *)
Definition find_longest_match (a b : str) (b2j : gmap ascii (list nat))
    (alo ahi blo bhi : nat) : Match :=
  let start := ({| m_a := alo; m_b := blo; m_size := 0 |}, ∅) in
  let best := (foldl (longest_step a b2j blo bhi) start
                 (seq alo (ahi - alo))).1 in
  let best := extend_left a b alo blo (m_a best) (m_b best) (m_size best) in
  extend_right (ahi - (m_a best + m_size best)) a b ahi bhi
    (m_a best) (m_b best) (m_size best).

Definition range4 : Type := nat * nat * nat * nat.

(** The [while queue] loop of [get_matching_blocks].  The head of [queue]
    is the entry [queue.pop()] returns.  [None]: more than [rounds] rounds
    would be needed. *)
Fixpoint blocks_loop (rounds : nat) (a b : str)
    (b2j : gmap ascii (list nat)) (queue : list range4)
    (matching_blocks : list Match) : option (list Match) :=
  match queue with
  | [] => Some matching_blocks
  | (alo, ahi, blo, bhi) :: queue =>
      match rounds with
      | 0 => None
      | S rounds' =>
          let x := find_longest_match a b b2j alo ahi blo bhi in
          let '(i, j, k) := (m_a x, m_b x, m_size x) in
          if bool_decide (k = 0) then
            blocks_loop rounds' a b b2j queue matching_blocks
          else
            let matching_blocks := matching_blocks ++ [x] in
            let queue :=
              if bool_decide (alo < i) && bool_decide (blo < j)
              then (alo, i, blo, j) :: queue else queue in
            let queue :=
              if bool_decide (i + k < ahi) && bool_decide (j + k < bhi)
              then (i + k, ahi, j + k, bhi) :: queue else queue in
            blocks_loop rounds' a b b2j queue matching_blocks
      end
  end.

(** Tuples compare field by field: the order [matching_blocks.sort()]
    uses. *)
Definition match_le (x y : Match) : Prop :=
  m_a x < m_a y ∨
  (m_a x = m_a y ∧ (m_b x < m_b y ∨ (m_b x = m_b y ∧ m_size x ≤ m_size y))).

#[global] Instance match_le_dec : RelDecision match_le.
Proof. intros x y; unfold match_le; apply _. Defined.

(** The loop that merges adjacent blocks; [cur] is [(i1, j1, k1)]. *)
Fixpoint collapse (cur : Match) (blocks non_adjacent : list Match)
    : list Match :=
  match blocks with
  | [] =>
      if bool_decide (m_size cur = 0) then non_adjacent
      else non_adjacent ++ [cur]
  | x :: blocks' =>
      if bool_decide (m_a cur + m_size cur = m_a x)
         && bool_decide (m_b cur + m_size cur = m_b x)
      then collapse {| m_a := m_a cur; m_b := m_b cur;
                       m_size := m_size cur + m_size x |} blocks' non_adjacent
      else collapse x blocks'
             (if bool_decide (m_size cur = 0) then non_adjacent
              else non_adjacent ++ [cur])
  end.

(** [SequenceMatcher.get_matching_blocks] *)
Definition get_matching_blocks (a b : str) : list Match :=
  let la := length a in
  let lb := length b in
  let found :=
    default [] (blocks_loop (2 * la + 1) a b (chain_b b) [(0, la, 0, lb)] [])
  in
  let sorted := merge_sort match_le found in
  collapse {| m_a := 0; m_b := 0; m_size := 0 |} sorted []
    ++ [{| m_a := la; m_b := lb; m_size := 0 |}].

(** [_calculate_ratio] *)
Definition _calculate_ratio (matches length : nat) : Q :=
  match length with
  | 0 => 1
  | S _ => (2 * inject_Z (Z.of_nat matches) / inject_Z (Z.of_nat length))%Q
  end.

(** [SequenceMatcher.ratio] *)
Definition ratio (a b : str) : Q :=
  let matches := sum_list_with m_size (get_matching_blocks a b) in
  _calculate_ratio matches (length a + length b).

(** [fullbcount]: how many times each element occurs in [b]. *)
Definition fullbcount (b : str) : gmap ascii Z :=
  foldl (fun m elt => <[elt := (default 0 (m !! elt) + 1)%Z]> m) ∅ b.

(** One round of the loop of [quick_ratio] over the elements of [a]. *)
Definition quick_step (full : gmap ascii Z) (st : gmap ascii Z * nat)
    (elt : ascii) : gmap ascii Z * nat :=
  let '(avail, matches) := st in
  let numb :=
    match avail !! elt with
    | Some numb => numb
    | None => default 0%Z (full !! elt)
    end in
  (<[elt := (numb - 1)%Z]> avail,
   if bool_decide (0 < numb)%Z then matches + 1 else matches).

Definition quick_matches (a b : str) : nat :=
  (foldl (quick_step (fullbcount b)) (∅, 0) a).2.

(** [SequenceMatcher.quick_ratio] *)
Definition quick_ratio (a b : str) : Q :=
  _calculate_ratio (quick_matches a b) (length a + length b).

(** [SequenceMatcher.real_quick_ratio] *)
Definition real_quick_ratio (a b : str) : Q :=
  let la := length a in
  let lb := length b in
  _calculate_ratio (la `min` lb) (la + lb).

(** [(score, x) > (score', x')] *)
Definition scored_gt (p q : Q * str) : bool :=
  if Qeq_bool p.1 q.1 then Py.str_lt q.2 p.2
  else negb (Qle_bool p.1 q.1).

(** [max(result)]: the first of the largest items. *)
Definition max_scored (items : list (Q * str)) : option (Q * str) :=
  match items with
  | [] => None
  | first :: rest =>
      Some (foldl (fun best item => if scored_gt item best then item else best)
              first rest)
  end.

(** The loop of [get_close_matches] over [possibilities]; the matcher has
    [x] as its first sequence and [word] as its second. *)
Definition candidates (word : str) (possibilities : list str) (cutoff : Q)
    : list (Q * str) :=
  omap (fun x =>
          if Qle_bool cutoff (real_quick_ratio x word)
             && Qle_bool cutoff (quick_ratio x word)
             && Qle_bool cutoff (ratio x word)
          then Some (ratio x word, x) else None)
       possibilities.

(** [get_close_matches(word, possibilities, n=1, cutoff)].  With [n = 1]
    [heapq.nlargest] returns the maximum of [result], or nothing when
    [result] is empty. *)
Definition get_close_matches (word : str) (possibilities : list str)
    (cutoff : Q) : Py.result (list str) :=
  if negb (Qle_bool 0 cutoff && Qle_bool cutoff 1) then Py.Raise Py.ValueError
  else
    Py.Return
      match max_scored (candidates word possibilities cutoff) with
      | Some (_, x) => [x]
      | None => []
      end.

(** *** What the blocks are, for the proofs *)

(** [a[i:i+k] == b[j:j+k]], element by element. *)
Definition run (a b : str) (i j k : nat) : Prop :=
  forall d, d < k -> exists c, a !! (i + d) = Some c /\ b !! (j + d) = Some c.

(** A block that lies in the ranges [a[alo:ahi]] and [b[blo:bhi]]. *)
Definition in_range (q : range4) (x : Match) : Prop :=
  let '(alo, ahi, blo, bhi) := q in
  alo <= m_a x /\ m_a x + m_size x <= ahi
  /\ blo <= m_b x /\ m_b x + m_size x <= bhi.

Definition valid (a b : str) (q : range4) (x : Match) : Prop :=
  in_range q x /\ run a b (m_a x) (m_b x) (m_size x).

(** Ranges of [a] and [b]. *)
Definition range_ok (a b : str) (q : range4) : Prop :=
  let '(alo, ahi, blo, bhi) := q in
  alo <= ahi <= length a /\ blo <= bhi <= length b.

(** Every position [b2j] lists under an element holds that element. *)
Definition b2j_sound (b : str) (b2j : gmap ascii (list nat)) : Prop :=
  forall c js j, b2j !! c = Some js -> j ∈ js -> b !! j = Some c.

(** [j2len[j] = k] records a run of length [k] that ends just before
    [a[i]] and at [b[j]], inside the ranges. *)
Definition ends_before (a b : str) (alo blo bhi i : nat)
    (j2len : gmap nat nat) : Prop :=
  forall j k, j2len !! j = Some k ->
    1 <= k /\ k <= i /\ k <= j + 1 /\ alo <= i - k /\ blo <= j + 1 - k
    /\ j < bhi /\ run a b (i - k) (j + 1 - k) k.

(** [l[lo:hi]] *)
Definition slice (l : str) (lo hi : nat) : str := take (hi - lo) (drop lo l).

(** How many elements two strings share, counted with multiplicity. *)
Definition common (x y : str) : nat :=
  size (list_to_set_disj x ∩ list_to_set_disj y : gmultiset ascii).

Definition cap (a b : str) (q : range4) : nat :=
  let '(alo, ahi, blo, bhi) := q in common (slice a alo ahi) (slice b blo bhi).

(** The count [quick_ratio] works with for [elt]: [avail[elt]] if there
    is one, else [fullbcount.get(elt, 0)]. *)
Definition available (full avail : gmap ascii Z) (elt : ascii) : Z :=
  match avail !! elt with
  | Some numb => numb
  | None => default 0%Z (full !! elt)
  end.

(** [avail] and [fullbcount] leave the multiset [rest] of [b] unmatched. *)
Definition leaves (full avail : gmap ascii Z) (rest : gmultiset ascii)
    : Prop :=
  forall c, Z.to_nat (available full avail c) = multiplicity c rest.

(** What a queued range can still cost the loop, in rounds. *)
Definition weight (q : range4) : nat :=
  let '(alo, ahi, _, _) := q in 2 * (ahi - alo) + 1.

End Difflib.

(** ** re *)

Module Re.

(** The part of the pattern language the program uses. *)
Inductive regex :=
| Digit                                   (* \d *)
| Lit (c : ascii)                         (* an ordinary character *)
| Seq (r1 r2 : regex)                     (* r1 r2 *)
| Repeat (r : regex) (lo hi : nat).       (* r{lo,hi}, greedy *)

(** A greedy bounded repeat, [mk] matching one round: it tries one more
    round first and gives it back when what follows fails. *)
Fixpoint rounds_k (mk : str -> (str -> option str) -> option str)
    (k : str -> option str) (lo hi : nat) (s : str) : option str :=
  match hi with
  | 0 => k s
  | S hi' =>
      match mk s (rounds_k mk k (pred lo) hi') with
      | Some rest => Some rest
      | None => if bool_decide (lo = 0) then k s else None
      end
  end.

(** Backtracking match of [r] at the head of [s]; [k] continues with what
    is left of [s] and answers with the text left after the whole match. *)
Fixpoint match_k (r : regex) (s : str) (k : str -> option str)
    : option str :=
  match r with
  | Digit =>
      match s with
      | c :: s' => if Py.isdecimal c then k s' else None
      | [] => None
      end
  | Lit c0 =>
      match s with
      | c :: s' => if bool_decide (c = c0) then k s' else None
      | [] => None
      end
  | Seq r1 r2 => match_k r1 s (fun s' => match_k r2 s' k)
  | Repeat r0 lo hi => rounds_k (match_k r0) k lo hi s
  end.

(** [pattern.match(s)]: the text matched at the head of [s]. *)
Definition match_here (r : regex) (s : str) : option str :=
  match match_k r s Some with
  | Some rest => Some (take (length s - length rest) s)
  | None => None
  end.

(** [re.search(pattern, s)]: the match at the leftmost position that has
    one.  The program's pattern is one capturing group, so [group(1)] is
    the whole match. *)
Fixpoint search (r : regex) (s : str) : option str :=
  match match_here r s with
  | Some m => Some m
  | None =>
      match s with
      | [] => None
      | _ :: s' => search r s'
      end
  end.

(** [r"(\d{1,2}:\d{2})"] *)
Definition clock_pattern : regex :=
  Seq (Repeat Digit 1 2) (Seq (Lit ":") (Repeat Digit 2 2)).

(** Patterns the compiler of [re] accepts: no repeat whose lower bound
    exceeds its upper bound. *)
Fixpoint wf (r : regex) : Prop :=
  match r with
  | Digit | Lit _ => True
  | Seq r1 r2 => wf r1 /\ wf r2
  | Repeat r0 lo hi => lo <= hi /\ wf r0
  end.

(** The strings a pattern matches. *)
Fixpoint denote (r : regex) (m : str) : Prop :=
  match r with
  | Digit => exists c, m = [c] /\ Py.isdecimal c = true
  | Lit c0 => m = [c0]
  | Seq r1 r2 => exists m1 m2, m = m1 ++ m2 /\ denote r1 m1 /\ denote r2 m2
  | Repeat r0 lo hi =>
      exists ms, m = concat ms /\ lo <= length ms <= hi /\ Forall (denote r0) ms
  end.

End Re.

(** ** ScreenCapture *)

Module ScreenCapture.

(** One entry of [sct.monitors]. *)
Record Monitor := {
  mon_left : Z;
  mon_top : Z;
  mon_width : Z;
  mon_height : Z
}.

(** One entry of the ["regions"] section of [config.json]. *)
Record Region := {
  left : Py.number;
  top : Py.number;
  right : Py.number;
  bottom : Py.number
}.

(** The [bbox] dictionary handed to [sct.grab]. *)
Record BBox := {
  bbox_left : Z;
  bbox_top : Z;
  bbox_width : Z;
  bbox_height : Z
}.

Record t := {
  regions_cfg : gmap str Region
}.

(** The arithmetic of [grab_region], in the order of the source: the four
    edges, then the box. *)
Definition region_bbox (mon : Monitor) (region : Region) : Py.result BBox :=
  let w := mon_width mon in
  let h := mon_height mon in
  Py.bind (Py.int_of_product (left region) w) (fun l =>
  let left := (l + mon_left mon)%Z in
  Py.bind (Py.int_of_product (top region) h) (fun t =>
  let top := (t + mon_top mon)%Z in
  Py.bind (Py.int_of_product (right region) w) (fun r =>
  let right := (r + mon_left mon)%Z in
  Py.bind (Py.int_of_product (bottom region) h) (fun b =>
  let bottom := (b + mon_top mon)%Z in
  Py.Return {| bbox_left := left; bbox_top := top;
               bbox_width := right - left;
               bbox_height := bottom - top |})))).

(** [ScreenCapture.grab_region] up to the call of [sct.grab]: the bounding
    box it asks the capture service for.  [mon] is what [_monitor()]
    returns. *)
Definition grab_region (self : t) (mon : Monitor) (region_key : str)
    : Py.result BBox :=
  match regions_cfg self !! region_key with
  | None => Py.Raise Py.KeyError
  | Some region => region_bbox mon region
  end.

(** The right and bottom edges of a bounding box. *)
Definition bbox_right (b : BBox) : Z := (bbox_left b + bbox_width b)%Z.
Definition bbox_bottom (b : BBox) : Z := (bbox_top b + bbox_height b)%Z.

(** A region as the data model wants it. *)
Record well_formed (region : Region) : Prop := {
  wf_left : (0 <= Py.value (left region))%Q;
  wf_top : (0 <= Py.value (top region))%Q;
  wf_right : (Py.value (right region) <= 1)%Q;
  wf_bottom : (Py.value (bottom region) <= 1)%Q;
  wf_horizontal : (Py.value (left region) < Py.value (right region))%Q;
  wf_vertical : (Py.value (top region) < Py.value (bottom region))%Q
}.


(** A full-HD primary monitor and two regions on it: one in the corner
    where the weapon name is drawn, and one thinner than a pixel. *)
Definition full_hd : Monitor :=
  {| mon_left := 0; mon_top := 0; mon_width := 1920; mon_height := 1080 |}.

Definition corner_region : Region :=
  {| left := Py.Float (75 # 100); top := Py.Float (85 # 100);
     right := Py.Float (95 # 100); bottom := Py.Float (95 # 100) |}.

Definition thin_region : Region :=
  {| left := Py.Float (5000 # 10000); top := Py.Float (5000 # 10000);
     right := Py.Float (5001 # 10000); bottom := Py.Float (5005 # 10000) |}.

Definition sample_capture : t :=
  {| regions_cfg :=
       <["weapon_name"%str := corner_region]>
         (<["match_info"%str := thin_region]> ∅) |}.

(** Every coordinate is a fraction of the screen. *)
Record fractional (region : Region) : Prop := {
  fr_left : (0 <= Py.value (left region) <= 1)%Q;
  fr_top : (0 <= Py.value (top region) <= 1)%Q;
  fr_right : (0 <= Py.value (right region) <= 1)%Q;
  fr_bottom : (0 <= Py.value (bottom region) <= 1)%Q
}.

(** [inner] lies inside [outer]. *)
Record inside (inner outer : Region) : Prop := {
  in_left : (Py.value (left outer) <= Py.value (left inner))%Q;
  in_top : (Py.value (top outer) <= Py.value (top inner))%Q;
  in_right : (Py.value (right inner) <= Py.value (right outer))%Q;
  in_bottom : (Py.value (bottom inner) <= Py.value (bottom outer))%Q
}.

(** The whole screen. *)
Definition whole_screen : Region :=
  {| left := Py.Float 0; top := Py.Float 0;
     right := Py.Float 1; bottom := Py.Float 1 |}.

End ScreenCapture.

(** ** OCRReader *)

Module OCRReader.

Record t := {
  confidence : Q;
  weapon_names : list str
}.

(** The dictionary [read_match_info] returns. *)
Record MatchInfo := {
  has_objective : bool;
  timer_text : option str
}.

(** [read_text]; [raw] is what [pytesseract.image_to_string] returned for
    the preprocessed image. *)
Definition read_text (raw : str) : str := Py.strip raw.

(** The loop [for name in self.weapon_names] of [read_weapon_name]. *)
Fixpoint exact_match (weapon_names : list str) (raw_text : str)
    : option str :=
  match weapon_names with
  | [] => None
  | name :: names =>
      if bool_decide (Py.lower name = Py.lower raw_text) then Some name
      else exact_match names raw_text
  end.

(** [OCRReader.read_weapon_name] *)
Definition read_weapon_name (self : t) (raw : str)
    : Py.result (option str) :=
  let raw_text := read_text raw in
  match raw_text with
  | [] => Py.Return None
  | _ :: _ =>
      match exact_match (weapon_names self) raw_text with
      | Some name => Py.Return (Some name)
      | None =>
          match Difflib.get_close_matches raw_text (weapon_names self)
                  (confidence self) with
          | Py.Raise e => Py.Raise e
          | Py.Return (m :: _) => Py.Return (Some m)
          | Py.Return [] => Py.Return None
          end
      end
  end.

(** [OCRReader.read_match_info]; [raw] is what the OCR engine returned. *)
Definition read_match_info (raw : str) : MatchInfo :=
  let text := Py.strip raw in
  let text_lower := Py.lower text in
  {| has_objective :=
       Py.contains text_lower "objective" || Py.contains text_lower "objectiv";
     timer_text := Re.search Re.clock_pattern text |}.

(** Two strings that differ in one character. *)
Definition one_substitution (s1 s2 : str) : Prop :=
  exists pre c d post, c <> d /\ s1 = pre ++ c :: post /\ s2 = pre ++ d :: post.

(** A reader with the default threshold and a two-weapon vocabulary. *)
Definition sample_reader : t :=
  {| confidence := 6 # 10; weapon_names := ["Vector"%str; "Judge"%str] |}.

(** A clock reading: one or two digits, a colon, two digits. *)
Definition is_clock (m : str) : Prop :=
  exists mins secs,
    m = mins ++ ":"%str ++ secs
    /\ 1 <= length mins <= 2 /\ length secs = 2
    /\ Forall (fun c => Py.isdecimal c = true) mins
    /\ Forall (fun c => Py.isdecimal c = true) secs.

(** No character of [s1] occurs in [s2]. *)
Definition no_shared_char (s1 s2 : str) : Prop :=
  forall c, c ∈ s1 -> c ∉ s2.

(** A reader that accepts any ratio, and one whose threshold is not a
    ratio. *)
Definition lenient_reader : t :=
  {| confidence := 0; weapon_names := ["Vector"%str; "Judge"%str] |}.

Definition broken_reader : t :=
  {| confidence := 3 # 2; weapon_names := ["Vector"%str; "Judge"%str] |}.

End OCRReader.

(** ** MatchTracker *)

Module MatchTracker.

Import OCRReader.

(** The ["match"] section of [config.json]; every key is optional. *)
Record MatchConfig := {
  round_duration_seconds : option Z;
  max_rounds : option Z;
  objective_verification_count : option Z
}.

Definition no_match_section : MatchConfig :=
  {| round_duration_seconds := None; max_rounds := None;
     objective_verification_count := None |}.

Record t := {
  round_duration : Z;
  max_rounds_ : Z;
  _streak_threshold : Z;
  in_match : bool;
  match_start_time : option Q;
  _no_objective_streak : Z
}.

Definition set_state (self : t) (m : bool) (st : option Q) (k : Z) : t :=
  {| round_duration := round_duration self;
     max_rounds_ := max_rounds_ self;
     _streak_threshold := _streak_threshold self;
     in_match := m;
     match_start_time := st;
     _no_objective_streak := k |}.

Definition set_streak (self : t) (k : Z) : t :=
  set_state self (in_match self) (match_start_time self) k.

(** [MatchTracker.__init__] *)
Definition init (match_cfg : MatchConfig) : t :=
  {| round_duration := Py.get_default (round_duration_seconds match_cfg) 120;
     max_rounds_ := Py.get_default (max_rounds match_cfg) 13;
     _streak_threshold :=
       Py.get_default (objective_verification_count match_cfg) 3;
     in_match := false;
     match_start_time := None;
     _no_objective_streak := 0 |}%Z.

(** [MatchTracker.update]; [now] is what [time.time()] returns when the
    first branch reads the clock. *)
Definition update (now : Q) (match_info : MatchInfo) (self : t) : t :=
  let has_objective := has_objective match_info in
  if has_objective && negb (in_match self) then
    set_state self true (Some now) 0%Z
  else if has_objective && in_match self then
    set_streak self 0%Z
  else if negb has_objective && in_match self then
    let self := set_streak self (_no_objective_streak self + 1)%Z in
    if (_streak_threshold self <=? _no_objective_streak self)%Z then
      set_state self false None 0%Z
    else self
  else self.

(** [MatchTracker.elapsed_seconds]; [now] is the clock reading of the
    property's own [time.time()] call. *)
Definition elapsed_seconds (now : Q) (self : t) : option Z :=
  match match_start_time self with
  | None => None
  | Some start => Some (Py.int (now - start))
  end.

(** [MatchTracker.start_timestamp] *)
Definition start_timestamp (self : t) : option Q := match_start_time self.

(** One tick of input to the tracker: the clock reading and the signal. *)
Definition tick : Type := Q * MatchInfo.

Definition signal (b : bool) : MatchInfo :=
  {| has_objective := b; timer_text := None |}.

(** The tracker after a sequence of [update] calls, oldest first. *)
Definition run (ticks : list tick) (self : t) : t :=
  foldl (fun s tk => update tk.1 tk.2 s) self ticks.

(** The tracker after each call of the sequence. *)
Fixpoint trace (ticks : list tick) (self : t) : list t :=
  match ticks with
  | [] => []
  | tk :: ticks' =>
      let self' := update tk.1 tk.2 self in self' :: trace ticks' self'
  end.

(** *** The transition table of the specification *)

Inductive state := NOT_IN_MATCH | IN_MATCH.

Record table_state := {
  ts_state : state;
  ts_start : option Q;
  ts_streak : Z
}.

(** The four rows of the table, in the order the table lists them. *)
Definition table_step (threshold : Z) (now : Q) (present : bool)
    (s : table_state) : table_state :=
  match ts_state s, present with
  | NOT_IN_MATCH, true =>
      {| ts_state := IN_MATCH; ts_start := Some now; ts_streak := 0 |}
  | NOT_IN_MATCH, false => s
  | IN_MATCH, true =>
      {| ts_state := IN_MATCH; ts_start := ts_start s; ts_streak := 0 |}
  | IN_MATCH, false =>
      let counter := (ts_streak s + 1)%Z in
      if (threshold <=? counter)%Z then
        {| ts_state := NOT_IN_MATCH; ts_start := None; ts_streak := 0 |}
      else
        {| ts_state := IN_MATCH; ts_start := ts_start s;
           ts_streak := counter |}
  end.

Fixpoint table_trace (threshold : Z) (ticks : list tick) (s : table_state)
    : list table_state :=
  match ticks with
  | [] => []
  | tk :: ticks' =>
      let s' := table_step threshold tk.1 (has_objective tk.2) s in
      s' :: table_trace threshold ticks' s'
  end.

Definition table_init : table_state :=
  {| ts_state := NOT_IN_MATCH; ts_start := None; ts_streak := 0 |}.

(** What the table sees of a tracker. *)
Definition view (self : t) : table_state :=
  {| ts_state := if in_match self then IN_MATCH else NOT_IN_MATCH;
     ts_start := match_start_time self;
     ts_streak := _no_objective_streak self |}.

(** *** The tracker's invariant *)

Record invariant (self : t) : Prop := {
  inv_start : in_match self = true <-> is_Some (match_start_time self);
  inv_streak :
    (0 <= _no_objective_streak self < _streak_threshold self)%Z;
  inv_idle : in_match self = false -> _no_objective_streak self = 0%Z
}.

(** Clock readings that never go back. *)
Fixpoint monotonic_from (last : Q) (ticks : list tick) : Prop :=
  match ticks with
  | [] => True
  | tk :: ticks' => (last <= tk.1)%Q /\ monotonic_from tk.1 ticks'
  end.

Definition monotonic (ticks : list tick) : Prop :=
  match ticks with
  | [] => True
  | tk :: ticks' => monotonic_from tk.1 ticks'
  end.

(** The last clock reading of a sequence of ticks, [d] if there is none. *)
Fixpoint last_reading (ticks : list tick) (d : Q) : Q :=
  match ticks with
  | [] => d
  | tk :: ticks' => last_reading ticks' tk.1
  end.

(** The ticks of the end-to-end scenario, at clock readings [t1] to [t6]. *)
Definition scenario (t1 t2 t3 t4 t5 t6 : Q) : list tick :=
  [(t1, signal false); (t2, signal true); (t3, signal true);
   (t4, signal false); (t5, signal false); (t6, signal false)].

(** A match in progress: seen at 5 and at 10, missed at 15 and at 20. *)
Definition in_progress : list tick :=
  [(0%Q, signal false); (5%Q, signal true); (10%Q, signal true);
   (15%Q, signal false); (20%Q, signal false)].

(** The start time is there exactly when the tracker is in a match,
    whatever the threshold. *)
Definition start_iff_in_match (self : t) : Prop :=
  in_match self = true <-> is_Some (match_start_time self).

(** *** Runs of ticks *)

(** A tick without the objective. *)
Definition absent (tk : tick) : Prop := has_objective tk.2 = false.

(** The last [k] ticks of [ticks] are there and are all absent. *)
Definition absent_suffix (ticks : list tick) (k : nat) : Prop :=
  k <= length ticks /\ Forall absent (drop (length ticks - k) ticks).

(** A match that has been going since 100, with one miss so far. *)
Definition one_miss : t :=
  run [(100%Q, signal true); (103%Q, signal false)] (init no_match_section).

End MatchTracker.

(** ** DiscordRPC *)

Module DiscordRPC.

(** The ["display_options"] section of [config.json]; [None] is an absent
    key. *)
Record DisplayOptions := {
  show_character : option bool;
  show_timer : option bool
}.

(** The keyword arguments of [rpc.update]; [None] is an absent key. *)
Record Kwargs := {
  large_image : option str;
  large_text_ : option str;
  small_image_ : option str;
  small_text : option str;
  details : option str;
  state : option str;
  start : option Z
}.

(** [rpc_set] says that [self.rpc] is not [None]. *)
Record t := {
  client_id : str;
  small_image : str;
  large_text : str;
  display : DisplayOptions;
  character_icons : gmap str str;
  rpc_set : bool;
  connected : bool
}.

Definition set_connection (self : t) (r c : bool) : t :=
  {| client_id := client_id self; small_image := small_image self;
     large_text := large_text self; display := display self;
     character_icons := character_icons self;
     rpc_set := r; connected := c |}.

(** [DiscordRPC.__init__]; [small_image_cfg] and [large_text_cfg] are the
    optional keys of the ["discord"] section. *)
Definition init (client_id : str) (small_image_cfg large_text_cfg : option str)
    (display : DisplayOptions) (character_icons : gmap str str) : t :=
  {| client_id := client_id;
     small_image := Py.get_default small_image_cfg "strinova_logo"%str;
     large_text := Py.get_default large_text_cfg "Strinova"%str;
     display := display;
     character_icons := character_icons;
     rpc_set := false;
     connected := false |}.

(** How [Presence(...)] and [rpc.connect()] ended. *)
Inductive connect_outcome :=
| Connected          (* both returned *)
| PresenceFailed     (* the constructor raised *)
| ConnectFailed.     (* [rpc.connect()] raised *)

(** [DiscordRPC.connect] *)
Definition connect (self : t) (outcome : connect_outcome) : t * bool :=
  match outcome with
  | Connected => (set_connection self true true, true)
  | PresenceFailed => (set_connection self (rpc_set self) false, false)
  | ConnectFailed => (set_connection self true false, false)
  end.

(** The first half of [DiscordRPC.update]: the keyword arguments. *)
Definition build_kwargs (self : t) (character_name : option str)
    (match_start_ts : option Q) : Kwargs :=
  let character :=
    if Py.truthy_str character_name
       && Py.get_default (show_character (display self)) true
    then
      let name := default [] character_name in
      let icon_key := character_icons self !! name in
      let '(image, text) :=
        if Py.truthy_str icon_key then (icon_key, Some name)
        else (Some (small_image self), Some (large_text self)) in
      (image, text, Some (small_image self), Some (large_text self),
       Some ("Playing as "%str ++ name))
    else
      (Some (small_image self), Some (large_text self), None, None,
       Some "In Game"%str) in
  let '(large_image, large_text, small_image, small_text, details) :=
    character in
  let '(start, state) :=
    if Py.truthy_float match_start_ts
       && Py.get_default (show_timer (display self)) true
    then (Py.int <$> match_start_ts, Some "In Match"%str)
    else (None, Some "In Menu"%str) in
  {| large_image := large_image; large_text_ := large_text;
     small_image_ := small_image; small_text := small_text;
     details := details; state := state; start := start |}.

(** How the call of [rpc.update] ended. *)
Inductive publish_outcome :=
| Published          (* it returned *)
| InvalidID          (* it raised [rpc_exceptions.InvalidID] *)
| OtherError.        (* it raised another [Exception] *)

(** [DiscordRPC.update].  The second component is the call of [rpc.update]
    it made, if it made one; [outcome] is how that call ended. *)
Definition update (self : t) (character_name : option str)
    (match_start_ts : option Q) (outcome : publish_outcome)
    : t * option Kwargs :=
  if negb (connected self) || negb (rpc_set self) then (self, None)
  else
    let kwargs := build_kwargs self character_name match_start_ts in
    match outcome with
    | Published => (self, Some kwargs)
    | InvalidID => (set_connection self (rpc_set self) false, Some kwargs)
    | OtherError => (self, Some kwargs)
    end.

(** The payload of the menu: generic branding, no character, no timer. *)
Definition menu_kwargs (self : t) : Kwargs :=
  {| large_image := Some (small_image self);
     large_text_ := Some (large_text self);
     small_image_ := None; small_text := None;
     details := Some "In Game"%str;
     state := Some "In Menu"%str;
     start := None |}.

(** [DiscordRPC.disconnect]; [clear_raised] and [close_raised] say whether
    [rpc.clear()] and [rpc.close()] raised: either way the exception is
    passed over. *)
Definition disconnect (self : t) (clear_raised close_raised : bool) : t :=
  if rpc_set self then set_connection self (rpc_set self) false else self.

(** A call of one of the three methods, with what the transport did. *)
Inductive call :=
| Connect (outcome : connect_outcome)
| Update (character_name : option str) (match_start_ts : option Q)
    (outcome : publish_outcome)
| Disconnect (clear_raised close_raised : bool).

Definition step (self : t) (c : call) : t :=
  match c with
  | Connect outcome => (connect self outcome).1
  | Update character_name match_start_ts outcome =>
      (update self character_name match_start_ts outcome).1
  | Disconnect clear_raised close_raised =>
      disconnect self clear_raised close_raised
  end.

(** The object after a sequence of calls, oldest first. *)
Definition after (calls : list call) (self : t) : t := foldl step self calls.

(** The settings [__init__] stores. *)
Definition settings (self : t)
    : str * str * str * DisplayOptions * gmap str str :=
  (client_id self, small_image self, large_text self, display self,
   character_icons self).

(** An object as [__init__] leaves it, with the timer switched off. *)
Definition no_timer_rpc : t :=
  init "1234567890" None None
    {| show_character := None; show_timer := Some false |}
    (<["Kokona"%str := "kokona"%str]> ∅).

End DiscordRPC.

(** ** The main loop *)

Module Main.

(** [dict.get] on [weapon_map], a JSON object in file order. *)
Fixpoint weapon_map_get (weapon_map : list (str * str)) (key : str)
    : option str :=
  match weapon_map with
  | [] => None
  | (k, v) :: rest =>
      if bool_decide (k = key) then Some v else weapon_map_get rest key
  end.

(** [list(weapon_map.keys())] *)
Definition keys (weapon_map : list (str * str)) : list str := weapon_map.*1.

(** What stays the same from tick to tick: the weapon map and the
    ["confidence_threshold"] of the ["ocr"] section. *)
Record Env := {
  weapon_map : list (str * str);
  confidence_threshold : Q
}.

(** [ocr = OCRReader(config, weapon_names)] *)
Definition ocr (env : Env) : OCRReader.t :=
  {| OCRReader.confidence := confidence_threshold env;
     OCRReader.weapon_names := keys (weapon_map env) |}.

(** The variables of [main] that change from tick to tick. *)
Record State := {
  current_character : option str;
  tracker : MatchTracker.t;
  discord : DiscordRPC.t
}.

(** What the collaborators answer during one tick: the OCR text of the two
    regions (or that capturing or recognising raised), the clock, and how
    the Discord calls ended. *)
Record Input := {
  weapon_raw : Py.result str;
  match_raw : Py.result str;
  now : Q;
  publish : DiscordRPC.publish_outcome;
  reconnect : DiscordRPC.connect_outcome
}.

(** What one tick did to the presence transport. *)
Record Events := {
  published : option DiscordRPC.Kwargs;
  connect_calls : nat
}.

Definition no_events : Events := {| published := None; connect_calls := 0 |}.

(** Step 1 of the loop body: the character after the weapon reading. *)
Definition resolve_character (env : Env) (current_character : option str)
    (weapon_name : option str) : option str :=
  if Py.truthy_str weapon_name then
    let char := weapon_map_get (weapon_map env) (default [] weapon_name) in
    if Py.truthy_str char && negb (bool_decide (char = current_character))
    then char else current_character
  else current_character.

(** The body of the [while True] loop, from the first capture to the
    [except Exception] that ends it.  An exception leaves the variables as
    the statements before it set them. *)
Definition tick (env : Env) (st : State) (inp : Input) : State * Events :=
  match weapon_raw inp with
  | Py.Raise _ => (st, no_events)
  | Py.Return raw_weapon =>
      match OCRReader.read_weapon_name (ocr env) raw_weapon with
      | Py.Raise _ => (st, no_events)
      | Py.Return weapon_name =>
          let current_character :=
            resolve_character env (current_character st) weapon_name in
          match match_raw inp with
          | Py.Raise _ =>
              ({| current_character := current_character;
                  tracker := tracker st; discord := discord st |}, no_events)
          | Py.Return raw_match =>
              let match_info := OCRReader.read_match_info raw_match in
              let tracker :=
                MatchTracker.update (now inp) match_info (tracker st) in
              let current_character :=
                if negb (MatchTracker.in_match tracker) then None
                else current_character in
              let '(discord, sent) :=
                DiscordRPC.update (discord st) current_character
                  (MatchTracker.start_timestamp tracker) (publish inp) in
              let '(discord, calls) :=
                if negb (DiscordRPC.connected discord)
                then ((DiscordRPC.connect discord (reconnect inp)).1, 1)
                else (discord, 0) in
              ({| current_character := current_character;
                  tracker := tracker; discord := discord |},
               {| published := sent; connect_calls := calls |})
          end
      end
  end.

(** The variables of [main] when the loop starts: the retry loop before it
    ends with a [connect] that returned [True]. *)
Definition start (match_cfg : MatchTracker.MatchConfig)
    (rpc : DiscordRPC.t) : State :=
  {| current_character := None;
     tracker := MatchTracker.init match_cfg;
     discord := (DiscordRPC.connect rpc DiscordRPC.Connected).1 |}.

(** The loop over a sequence of ticks: the state after it and what each
    tick did. *)
Fixpoint loop (env : Env) (st : State) (inputs : list Input)
    : State * list Events :=
  match inputs with
  | [] => (st, [])
  | inp :: inputs' =>
      let '(st', ev) := tick env st inp in
      let '(st'', evs) := loop env st' inputs' in
      (st'', ev :: evs)
  end.

(** The tick gets as far as the presence update: no capture, recognition
    or matching step raised. *)
Definition reaches_update (env : Env) (inp : Input) : Prop :=
  exists raw_weapon weapon_name raw_match,
    weapon_raw inp = Py.Return raw_weapon
    /\ OCRReader.read_weapon_name (ocr env) raw_weapon = Py.Return weapon_name
    /\ match_raw inp = Py.Return raw_match.

(** The tracker's start time agrees with its flag and the transport
    object exists: both hold when the loop starts and after every tick. *)
Definition consistent (st : State) : Prop :=
  MatchTracker.start_iff_in_match (tracker st)
  /\ DiscordRPC.rpc_set (discord st) = true.

(** A small configuration and a few ticks of input to run the loop on. *)
Definition sample_env : Env :=
  {| weapon_map := [("Vector"%str, "Kokona"%str); ("Judge"%str, "Ming"%str)];
     confidence_threshold := 6 # 10 |}.

Definition sample_rpc : DiscordRPC.t :=
  DiscordRPC.init "1234567890" None None
    {| DiscordRPC.show_character := None; DiscordRPC.show_timer := None |}
    (<["Kokona"%str := "kokona"%str]> ∅).

Definition sample_start : State :=
  start MatchTracker.no_match_section sample_rpc.

Definition reading (weapon info : str) (clock : Q)
    (p : DiscordRPC.publish_outcome) (c : DiscordRPC.connect_outcome)
    : Input :=
  {| weapon_raw := Py.Return weapon; match_raw := Py.Return info;
     now := clock; publish := p; reconnect := c |}.

(** A match is seen with the Vector in hand; then the objective is gone
    for two ticks. *)
Definition match_then_two_misses : list Input :=
  [reading "Vector" "Objective 1:23" 100 DiscordRPC.Published
     DiscordRPC.Connected;
   reading "Vector" "" 103 DiscordRPC.Published DiscordRPC.Connected;
   reading "Vector" "" 106 DiscordRPC.Published DiscordRPC.Connected].

Definition third_miss : Input :=
  reading "Vector" "" 109 DiscordRPC.Published DiscordRPC.Connected.

(** The session is reported invalid while the client can be reached
    again at once. *)
Definition invalid_session : Input :=
  reading "Vector" "Objective 1:23" 100 DiscordRPC.InvalidID
    DiscordRPC.Connected.

(** The retry loop before the main loop,
    [while not discord.connect(): time.sleep(10)].  [outcomes] says how
    the successive calls of [connect] end.  The result is the object the
    loop ends with and how many times it slept; [None]: the loop is still
    going when [outcomes] runs out. *)
Fixpoint startup (rpc : DiscordRPC.t)
    (outcomes : list DiscordRPC.connect_outcome)
    : option (DiscordRPC.t * nat) :=
  match outcomes with
  | [] => None
  | outcome :: rest =>
      let '(rpc', ok) := DiscordRPC.connect rpc outcome in
      if ok then Some (rpc', 0)
      else
        match startup rpc' rest with
        | Some (last, sleeps) => Some (last, S sleeps)
        | None => None
        end
  end.

(** A character the weapon map knows: not empty, and the value of some
    weapon. *)
Definition known_character (env : Env) (character : option str) : Prop :=
  match character with
  | None => True
  | Some name =>
      name <> [] /\ exists weapon, (weapon, name) ∈ weapon_map env
  end.

(** A tick that reads no weapon text while the objective is on screen. *)
Definition no_weapon_text : Input :=
  reading "   " "Objective 1:30" 103 DiscordRPC.Published
    DiscordRPC.Connected.

(** A tick whose first capture fails. *)
Definition capture_fails : Input :=
  {| weapon_raw := Py.Raise Py.OtherException;
     match_raw := Py.Return "Objective 1:30"%str;
     now := 103; publish := DiscordRPC.Published;
     reconnect := DiscordRPC.Connected |}.

End Main.

(** * Properties *)

(** ** MatchTracker: the state machine *)

Section MatchTrackerFacts.

Import OCRReader MatchTracker.

Lemma update_threshold now info self :
  _streak_threshold (update now info self) = _streak_threshold self.
Proof.
  unfold update.
  destruct (has_objective info), (in_match self); simpl; try reflexivity.
  destruct (_ <=? _)%Z; reflexivity.
Qed.

(** One call of [update] is one row of the table. *)
Lemma update_table_step now info self :
  view (update now info self)
  = table_step (_streak_threshold self) now (has_objective info) (view self).
Proof.
  unfold update, table_step, view.
  destruct (has_objective info), (in_match self) eqn:Hm; simpl;
    rewrite ?Hm; try reflexivity.
  destruct (_ <=? _)%Z; simpl; rewrite ?Hm; reflexivity.
Qed.

Lemma trace_table_trace ticks self :
  view <$> trace ticks self
  = table_trace (_streak_threshold self) ticks (view self).
Proof.
  revert self; induction ticks as [|tk ticks IH]; intros self; simpl.
  - reflexivity.
  - rewrite IH, update_threshold, update_table_step. reflexivity.
Qed.

(** C1.  [MatchTracker.update] implements the transition table: seen
    through [view], every call is the table's row for the current state and
    signal, so the states after every sequence of ticks are the table's;
    outside a match an absent signal leaves the tracker as it is; from
    [IN_MATCH] an absent signal leaves the match exactly when the
    incremented streak reaches the threshold; and the scenario
    [False, True, True, False, False, False] with the default threshold
    gives [in_match] [False, True, True, True, True, False] with the start
    time set at the second tick and kept until the match ends. *)
Theorem update_implements_transition_table :
  (forall now info self,
     view (update now info self)
     = table_step (_streak_threshold self) now (has_objective info)
         (view self))
  /\ (forall cfg ticks,
        view <$> trace ticks (init cfg)
        = table_trace (_streak_threshold (init cfg)) ticks table_init)
  /\ (forall now info self,
        has_objective info = false -> in_match self = false ->
        update now info self = self)
  /\ (forall now self,
        in_match self = true ->
        (_no_objective_streak self < _streak_threshold self)%Z ->
        (in_match (update now (signal false) self) = false
         <-> (_no_objective_streak self + 1 = _streak_threshold self)%Z))
  /\ (forall t1 t2 t3 t4 t5 t6,
        let states :=
          trace (scenario t1 t2 t3 t4 t5 t6) (init no_match_section) in
        in_match <$> states = [false; true; true; true; true; false]
        /\ match_start_time <$> states
           = [None; Some t2; Some t2; Some t2; Some t2; None]).
Proof.
  split; [exact update_table_step|].
  split; [intros cfg ticks; apply trace_table_trace|].
  split; [intros now info self Hi Hm; unfold update; rewrite Hi, Hm;
          reflexivity|].
  split.
  - intros now self Hm Hlt. unfold update; simpl. rewrite Hm; simpl.
    destruct (Z.leb_spec (_streak_threshold self)
                (_no_objective_streak self + 1)); simpl.
    + split; [lia | reflexivity].
    + rewrite Hm. split; [discriminate | lia].
  - intros. split; reflexivity.
Qed.

Lemma update_implements_transition_table_witness :
  let self := run in_progress (init no_match_section) in
  in_match self = true
  /\ (_no_objective_streak self < _streak_threshold self)%Z
  /\ (in_match (update 25 (signal false) self) = false
      <-> (_no_objective_streak self + 1 = _streak_threshold self)%Z).
Proof.
  split; [reflexivity|]. split; [reflexivity|].
  apply (proj1 (proj2 (proj2 (proj2 update_implements_transition_table)))).
  - reflexivity.
  - reflexivity.
Defined.

(** *** The invariant *)

Lemma init_invariant cfg :
  (1 <= _streak_threshold (init cfg))%Z -> invariant (init cfg).
Proof.
  intros H. split; simpl in *.
  - split; [discriminate | intros [x Hx]; discriminate].
  - lia.
  - reflexivity.
Qed.

Lemma update_invariant now info self :
  invariant self -> invariant (update now info self).
Proof.
  intros [Hs Hk Hi]. unfold update.
  destruct (has_objective info), (in_match self) eqn:Hm; simpl.
  - split; simpl; rewrite ?Hm; [exact Hs | lia | discriminate].
  - split; simpl; [split; eauto | lia | discriminate].
  - destruct (Z.leb_spec (_streak_threshold self)
                (_no_objective_streak self + 1)); simpl.
    + split; simpl; [|lia|reflexivity].
      split; [discriminate | intros [x Hx]; discriminate].
    + split; simpl; rewrite ?Hm; [exact Hs | lia | discriminate].
  - split; rewrite ?Hm; auto.
Qed.

Lemma trace_invariant ticks self :
  invariant self -> Forall invariant (trace ticks self).
Proof.
  revert self; induction ticks as [|tk ticks IH]; intros self H; simpl.
  - constructor.
  - constructor; [|apply IH]; apply update_invariant, H.
Qed.

(** C9.  For a threshold of at least 1 the tracker satisfies, when it is
    created and after every call of [update]: [in_match] holds exactly when
    [match_start_time] is not [None]; the streak is at least 0 and below
    the threshold; and the streak is 0 whenever [in_match] is false. *)
Theorem tracker_invariant cfg ticks :
  (1 <= _streak_threshold (init cfg))%Z ->
  invariant (init cfg) /\ Forall invariant (trace ticks (init cfg)).
Proof.
  intros H. split; [|apply trace_invariant]; apply init_invariant, H.
Qed.

Lemma tracker_invariant_witness :
  invariant (init no_match_section)
  /\ Forall invariant
       (trace (scenario 0 5 10 15 20 25) (init no_match_section)).
Proof. apply (tracker_invariant no_match_section). simpl. lia. Defined.

Lemma update_start_iff now info self :
  start_iff_in_match self -> start_iff_in_match (update now info self).
Proof.
  unfold start_iff_in_match, update. intros Hs.
  destruct (has_objective info), (in_match self) eqn:Hm; simpl;
    rewrite ?Hm; try exact Hs.
  - split; eauto.
  - destruct (_ <=? _)%Z; simpl; rewrite ?Hm; [|exact Hs].
    split; [discriminate | intros [x Hx]; discriminate].
Qed.

End MatchTrackerFacts.

(** ** MatchTracker: elapsed time *)

Section ElapsedFacts.

Import OCRReader MatchTracker.

Lemma int_nonneg (x : Q) : (0 <= x)%Q -> Py.int x = Qfloor x.
Proof.
  destruct x as [n d]. unfold Qle, Py.int, Qfloor; simpl. intros H.
  apply Z.quot_div_nonneg; lia.
Qed.

Lemma int_neg (x : Q) : (x <= 0)%Q -> Py.int x = Qceiling x.
Proof.
  destruct x as [n d]. unfold Qle, Py.int, Qceiling, Qfloor; simpl. intros H.
  rewrite <- (Z.opp_involutive n) at 1. rewrite Z.quot_opp_l by lia.
  f_equal. apply Z.quot_div_nonneg; lia.
Qed.

(** [int] never decreases when its argument grows. *)
Lemma int_monotone (x y : Q) : (x <= y)%Q -> (Py.int x <= Py.int y)%Z.
Proof.
  intros Hxy.
  destruct (Qlt_le_dec x 0) as [Hx|Hx], (Qlt_le_dec y 0) as [Hy|Hy].
  - rewrite !int_neg by (apply Qlt_le_weak; assumption).
    apply Qceiling_resp_le, Hxy.
  - rewrite (int_neg x) by (apply Qlt_le_weak; assumption).
    rewrite (int_nonneg y) by assumption.
    transitivity 0%Z.
    + change 0%Z with (Qceiling 0). apply Qceiling_resp_le, Qlt_le_weak, Hx.
    + change 0%Z with (Qfloor 0). apply Qfloor_resp_le, Hy.
  - exfalso. apply (Qlt_irrefl 0).
    apply Qle_lt_trans with y; [|assumption].
    apply Qle_trans with x; assumption.
  - rewrite !int_nonneg by assumption. apply Qfloor_resp_le, Hxy.
Qed.

Lemma int_diff_nonneg (start now : Q) :
  (start <= now)%Q -> (0 <= Py.int (now - start))%Z.
Proof.
  intros H. change 0%Z with (Py.int 0). apply int_monotone.
  unfold Qminus. rewrite <- (Qplus_opp_r start).
  apply Qplus_le_compat; [exact H | apply Qle_refl].
Qed.

(** The start time of an update is the old one or the reading of the tick. *)
Lemma update_start now info self start :
  match_start_time (update now info self) = Some start ->
  start = now \/ match_start_time self = Some start.
Proof.
  unfold update.
  destruct (has_objective info), (in_match self); simpl; auto.
  - intros [= <-]. auto.
  - destruct (_ <=? _)%Z; simpl; [discriminate | auto].
Qed.

(** While the tracker stays in a match the start time does not move. *)
Lemma update_keeps_start now info self :
  in_match self = true ->
  in_match (update now info self) = true ->
  match_start_time (update now info self) = match_start_time self.
Proof.
  unfold update. intros Hm.
  destruct (has_objective info); rewrite Hm; simpl; [reflexivity|].
  destruct (_ <=? _)%Z; simpl; [discriminate | reflexivity].
Qed.

Lemma run_start_le_last ticks : forall self lastq start,
  (forall st, match_start_time self = Some st -> (st <= lastq)%Q) ->
  monotonic_from lastq ticks ->
  match_start_time (run ticks self) = Some start ->
  (start <= last_reading ticks lastq)%Q.
Proof.
  induction ticks as [|tk ticks IH]; intros self lastq start Hself Hmono Hrun.
  - simpl in *. auto.
  - simpl in *. destruct Hmono as [Hle Hmono].
    apply (IH (update tk.1 tk.2 self)); [|assumption..].
    intros st Hst. apply update_start in Hst as [->|Hst].
    + apply Qle_refl.
    + apply Qle_trans with lastq; auto.
Qed.

Lemma run_start_iff ticks self :
  start_iff_in_match self -> start_iff_in_match (run ticks self).
Proof.
  revert self; induction ticks as [|tk ticks IH]; intros self H; simpl.
  - exact H.
  - apply IH, update_start_iff, H.
Qed.

Lemma init_start_iff cfg : start_iff_in_match (init cfg).
Proof. split; [discriminate | intros [x Hx]; discriminate]. Qed.

(** C6, as the code has it.  After any sequence of ticks with a monotonic
    clock: outside a match [elapsed_seconds] is [None]; in a match it is
    the clock reading minus the recorded start time, truncated to a whole
    number of seconds.  The start time is not later than the last tick's
    reading, so the value is not negative for a later reading; it never
    decreases when the reading grows; and the start time stays the same
    for as long as the tracker stays in the match. *)
Theorem elapsed_seconds_truncated cfg ticks :
  monotonic ticks ->
  let self := run ticks (init cfg) in
  (in_match self = false -> forall now, elapsed_seconds now self = None)
  /\ (in_match self = true ->
      exists start,
        match_start_time self = Some start
        /\ (start <= last_reading ticks start)%Q
        /\ (forall now,
              elapsed_seconds now self = Some (Py.int (now - start)))
        /\ (forall now, (start <= now)%Q -> (0 <= Py.int (now - start))%Z)
        /\ (forall now now', (now <= now')%Q ->
              (Py.int (now - start) <= Py.int (now' - start))%Z)
        /\ (forall now info,
              in_match (update now info self) = true ->
              match_start_time (update now info self) = Some start)).
Proof.
  intros Hmono self.
  pose proof (run_start_iff ticks _ (init_start_iff cfg)) as Hiff.
  fold self in Hiff. unfold start_iff_in_match in Hiff.
  split.
  - intros Hm now. unfold elapsed_seconds.
    destruct (match_start_time self) eqn:Hs; [|reflexivity].
    rewrite (proj2 Hiff) in Hm by eauto. discriminate.
  - intros Hm. destruct (proj1 Hiff Hm) as [start Hs].
    exists start. split; [exact Hs|]. split; [|split; [|split; [|split]]].
    + destruct ticks as [|tk ticks]; [apply Qle_refl|].
      simpl. apply (run_start_le_last ticks (update tk.1 tk.2 (init cfg)));
        [|exact Hmono|exact Hs].
      intros st Hst. apply update_start in Hst as [->|Hst];
        [apply Qle_refl | discriminate].
    + intros now. unfold elapsed_seconds. rewrite Hs. reflexivity.
    + intros now. apply int_diff_nonneg.
    + intros now now' Hle. apply int_monotone.
      unfold Qminus. apply Qplus_le_compat; [exact Hle | apply Qle_refl].
    + intros now info Hm'. rewrite update_keeps_start by assumption.
      exact Hs.
Qed.

Lemma elapsed_seconds_truncated_witness :
  let self := run in_progress (init no_match_section) in
  (in_match self = false -> forall now, elapsed_seconds now self = None)
  /\ (in_match self = true ->
      exists start,
        match_start_time self = Some start
        /\ (start <= last_reading in_progress start)%Q
        /\ (forall now,
              elapsed_seconds now self = Some (Py.int (now - start)))
        /\ (forall now, (start <= now)%Q -> (0 <= Py.int (now - start))%Z)
        /\ (forall now now', (now <= now')%Q ->
              (Py.int (now - start) <= Py.int (now' - start))%Z)
        /\ (forall now info,
              in_match (update now info self) = true ->
              match_start_time (update now info self) = Some start)).
Proof.
  apply (elapsed_seconds_truncated no_match_section in_progress).
  simpl. unfold Qle; simpl. lia.
Defined.

(** C6, as it is stated, fails: a match that starts at clock reading 0 and
    is read at 1/2 has [elapsed_seconds] 0, which is not 1/2 - 0. *)
Lemma elapsed_seconds_not_the_difference :
  let self := run [(0%Q, signal true)] (init no_match_section) in
  in_match self = true
  /\ match_start_time self = Some 0%Q
  /\ elapsed_seconds (1 # 2) self = Some 0%Z
  /\ ~ (inject_Z 0 == (1 # 2) - 0)%Q.
Proof.
  simpl. repeat split. intros H. discriminate H.
Qed.

End ElapsedFacts.

(** ** Binary64 rounding *)

Section Binary64Facts.

Open Scope Q_scope.

Lemma pow2_pos e : 0 < Py.pow2 e.
Proof. apply Qpower_0_lt. reflexivity. Qed.

Lemma pow2_add a b : Py.pow2 (a + b) == Py.pow2 a * Py.pow2 b.
Proof. apply Qpower_plus. discriminate. Qed.

Lemma pow2_le a b : (a <= b)%Z -> Py.pow2 a <= Py.pow2 b.
Proof. intros H. apply Qpower_le_compat_l; [exact H | discriminate]. Qed.

Lemma pow2_lt_inv a b : Py.pow2 a < Py.pow2 b -> (a < b)%Z.
Proof. intros H. apply (Qpower_lt_compat_l_inv 2); [exact H | reflexivity]. Qed.

Lemma pow2_inject e : (0 <= e)%Z -> Py.pow2 e == inject_Z (2 ^ e).
Proof. intros H. symmetry. apply (Zpower_Qpower 2 e H). Qed.

Lemma round_half_even_bounds m :
  (Qfloor m <= Py.round_half_even m <= Qfloor m + 1)%Z.
Proof.
  unfold Py.round_half_even.
  destruct (_ ?= _); [destruct (Z.even _)|..]; lia.
Qed.

Lemma round_half_even_whole m k : m == inject_Z k -> Py.round_half_even m = k.
Proof.
  intros H. unfold Py.round_half_even.
  assert (Hf : Qfloor m = k) by (rewrite H; apply Qfloor_Z).
  rewrite Hf.
  assert (Hc : (m - inject_Z k ?= 1 # 2) = Lt).
  { apply Qlt_alt. setoid_rewrite H. unfold Qminus.
    rewrite Qplus_opp_r. reflexivity. }
  rewrite Hc. reflexivity.
Qed.

Lemma round_half_even_monotone m m' :
  m <= m' -> (Py.round_half_even m <= Py.round_half_even m')%Z.
Proof.
  intros Hle.
  pose proof (Qfloor_resp_le _ _ Hle) as Hf.
  pose proof (round_half_even_bounds m) as Hb.
  pose proof (round_half_even_bounds m') as Hb'.
  destruct (Z.eq_dec (Qfloor m) (Qfloor m')) as [E|E]; [|lia].
  unfold Py.round_half_even. rewrite <- E.
  destruct (Qcompare_spec (m - inject_Z (Qfloor m)) (1 # 2)) as [H1|H1|H1];
  destruct (Qcompare_spec (m' - inject_Z (Qfloor m)) (1 # 2)) as [H2|H2|H2];
    try destruct (Z.even _); try lia; exfalso; lra.
Qed.

Lemma round_to_monotone e q1 q2 :
  q1 <= q2 -> Py.round_to e q1 <= Py.round_to e q2.
Proof.
  intros H. unfold Py.round_to.
  apply Qmult_le_compat_r; [|apply Qlt_le_weak, pow2_pos].
  rewrite <- Zle_Qle. apply round_half_even_monotone.
  apply Qmult_le_compat_r; [exact H|].
  apply Qlt_le_weak, Qinv_lt_0_compat, pow2_pos.
Qed.

Lemma round_to_grid e k q :
  q == inject_Z k * Py.pow2 e -> Py.round_to e q == q.
Proof.
  intros H. unfold Py.round_to.
  rewrite (round_half_even_whole _ k); [symmetry; exact H|].
  rewrite H. field. pose proof (pow2_pos e). lra.
Qed.

Lemma round_to_nonneg e q : 0 <= q -> 0 <= Py.round_to e q.
Proof.
  intros H. unfold Py.round_to.
  apply Qmult_le_0_compat; [|apply Qlt_le_weak, pow2_pos].
  change 0 with (inject_Z 0). rewrite <- Zle_Qle.
  pose proof (round_half_even_bounds (q / Py.pow2 e)).
  assert (0 <= Qfloor (q / Py.pow2 e))%Z; [|lia].
  change 0%Z with (Qfloor 0). apply Qfloor_resp_le.
  apply Qle_shift_div_l; [apply pow2_pos | lra].
Qed.


Lemma Qmake_as_quotient n d : inject_Z n == (n # d) * inject_Z (Zpos d).
Proof. unfold Qeq, Qmult, inject_Z. simpl. lia. Qed.

(** [ilog2 q] is the exponent of the power of two at or below [q]. *)
Lemma ilog2_spec q :
  0 < q -> Py.pow2 (Py.ilog2 q) <= q /\ q < Py.pow2 (Py.ilog2 q + 1).
Proof.
  intros Hq. destruct q as [n d].
  assert (Hn : (0 < n)%Z) by (unfold Qlt in Hq; simpl in Hq; lia).
  unfold Py.ilog2. cbn [Qnum Qden].
  set (a := Z.log2 n). set (b := Z.log2 (Zpos d)).
  destruct (Z.log2_spec n Hn) as [Ha1 Ha2]. fold a in Ha1, Ha2.
  destruct (Z.log2_spec (Zpos d) ltac:(lia)) as [Hb1 Hb2].
  fold b in Hb1, Hb2.
  assert (Ha0 : (0 <= a)%Z) by apply Z.log2_nonneg.
  assert (Hb0 : (0 <= b)%Z) by apply Z.log2_nonneg.
  pose proof (Qmake_as_quotient n d) as Hnd.
  assert (HA1 : Py.pow2 a <= inject_Z n)
    by (rewrite pow2_inject by lia; rewrite <- Zle_Qle; exact Ha1).
  assert (HA2 : inject_Z n < Py.pow2 (a + 1))
    by (rewrite pow2_inject by lia; rewrite <- Zlt_Qlt;
        replace (a + 1)%Z with (Z.succ a) by lia; exact Ha2).
  assert (HB1 : Py.pow2 b <= inject_Z (Zpos d))
    by (rewrite pow2_inject by lia; rewrite <- Zle_Qle; exact Hb1).
  assert (HB2 : inject_Z (Zpos d) < Py.pow2 (b + 1))
    by (rewrite pow2_inject by lia; rewrite <- Zlt_Qlt;
        replace (b + 1)%Z with (Z.succ b) by lia; exact Hb2).
  pose proof (pow2_pos b) as Hpb. pose proof (pow2_pos (b + 1)) as Hpb1.
  destruct (Qle_bool (Py.pow2 (a - b)) (n # d)) eqn:E.
  - apply Qle_bool_iff in E. split; [exact E|].
    destruct (Qlt_le_dec (n # d) (Py.pow2 (a - b + 1))) as [H|H]; [exact H|].
    exfalso.
    assert (Hmul : Py.pow2 (a - b + 1) * Py.pow2 b <= (n # d) * Py.pow2 b)
      by (apply Qmult_le_compat_r; lra).
    rewrite <- pow2_add in Hmul.
    replace (a - b + 1 + b)%Z with (a + 1)%Z in Hmul by lia.
    assert ((n # d) * Py.pow2 b <= (n # d) * inject_Z (Zpos d))
      by (apply Qmult_le_l; [exact Hq | exact HB1]).
    lra.
  - assert (E' : (n # d) < Py.pow2 (a - b)).
    { destruct (Qlt_le_dec (n # d) (Py.pow2 (a - b))) as [H|H]; [exact H|].
      apply Qle_bool_iff in H. congruence. }
    replace (a - b - 1 + 1)%Z with (a - b)%Z by lia.
    split; [|exact E'].
    destruct (Qlt_le_dec (n # d) (Py.pow2 (a - b - 1))) as [H|H]; [|exact H].
    exfalso.
    assert (Hmul : (n # d) * inject_Z (Zpos d)
                   < Py.pow2 (a - b - 1) * inject_Z (Zpos d)).
    { apply Qmult_lt_r; [|exact H]. lra. }
    assert (Hmul2 : Py.pow2 (a - b - 1) * inject_Z (Zpos d)
                    <= Py.pow2 (a - b - 1) * Py.pow2 (b + 1)).
    { apply Qmult_le_l; [apply pow2_pos | lra]. }
    rewrite <- pow2_add in Hmul2.
    replace (a - b - 1 + (b + 1))%Z with a in Hmul2 by lia.
    lra.
Qed.

Lemma ilog2_monotone q1 q2 :
  0 < q1 -> q1 <= q2 -> (Py.ilog2 q1 <= Py.ilog2 q2)%Z.
Proof.
  intros H1 H12.
  destruct (ilog2_spec q1 H1) as [Hl1 _].
  destruct (ilog2_spec q2 ltac:(lra)) as [_ Hu2].
  assert (H : Py.pow2 (Py.ilog2 q1) < Py.pow2 (Py.ilog2 q2 + 1)) by lra.
  apply pow2_lt_inv in H. lia.
Qed.

(** Rounding at the precision of the argument never decreases when the
    argument grows: positive arguments. *)
Lemma round64_pos_monotone q1 q2 :
  0 < q1 -> q1 <= q2 ->
  Py.round_to (Py.ulp_exponent q1) q1 <= Py.round_to (Py.ulp_exponent q2) q2.
Proof.
  intros H1 H12.
  assert (H2 : 0 < q2) by lra.
  pose proof (ilog2_monotone q1 q2 H1 H12) as Hlog.
  unfold Py.ulp_exponent.
  set (l1 := Py.ilog2 q1) in *. set (l2 := Py.ilog2 q2) in *.
  destruct (Z.eq_dec (Z.max (l1 - 52) (-1074)) (Z.max (l2 - 52) (-1074)))
    as [E|E].
  - rewrite E. apply round_to_monotone, H12.
  - assert (Hlt : (l1 < l2)%Z) by lia.
    assert (He2 : Z.max (l2 - 52) (-1074) = (l2 - 52)%Z) by lia.
    rewrite He2.
    set (e1 := Z.max (l1 - 52) (-1074)) in *.
    assert (He1 : (e1 <= l2 - 52)%Z) by lia.
    destruct (ilog2_spec q1 H1) as [_ Hu1]. fold l1 in Hu1.
    destruct (ilog2_spec q2 H2) as [Hl2 _]. fold l2 in Hl2.
    assert (Hq1 : q1 <= Py.pow2 l2).
    { apply Qle_trans with (Py.pow2 (l1 + 1)); [lra|]. apply pow2_le. lia. }
    apply Qle_trans with (Py.pow2 l2).
    + rewrite <- (round_to_grid e1 (2 ^ (l2 - e1)) (Py.pow2 l2)).
      * apply round_to_monotone, Hq1.
      * rewrite <- pow2_inject by lia. rewrite <- pow2_add.
        replace (l2 - e1 + e1)%Z with l2 by lia. reflexivity.
    + rewrite <- (round_to_grid (l2 - 52) (2 ^ 52) (Py.pow2 l2)) at 1.
      * apply round_to_monotone, Hl2.
      * rewrite <- pow2_inject by lia. rewrite <- pow2_add.
        replace (52 + (l2 - 52))%Z with l2 by lia. reflexivity.
Qed.

Lemma Qnum_pos q p : Qnum q = Zpos p -> 0 < q.
Proof. destruct q as [n d]. simpl. intros ->. reflexivity. Qed.

Lemma Qnum_neg q p : Qnum q = Zneg p -> 0 < - q.
Proof. destruct q as [n d]. simpl. intros ->. reflexivity. Qed.

Lemma Qnum_zero q : Qnum q = 0%Z -> q == 0.
Proof. destruct q as [n d]. simpl. intros ->. reflexivity. Qed.

Lemma round64_sign q :
  (0 < q -> Py.round64 q = Py.round_to (Py.ulp_exponent q) q)
  /\ (q == 0 -> Py.round64 q = 0)
  /\ (q < 0 -> Py.round64 q = - Py.round_to (Py.ulp_exponent (- q)) (- q)).
Proof.
  unfold Py.round64. destruct (Qnum q) as [|p|p] eqn:E.
  - apply Qnum_zero in E. repeat split; auto; intros; exfalso; lra.
  - apply Qnum_pos in E. repeat split; auto; intros; exfalso; lra.
  - apply Qnum_neg in E. repeat split; auto; intros; exfalso; lra.
Qed.

(** Rounding to binary64 never decreases when its argument grows. *)
Lemma round64_monotone q1 q2 : q1 <= q2 -> Py.round64 q1 <= Py.round64 q2.
Proof.
  intros H.
  destruct (round64_sign q1) as (P1 & Z1 & N1).
  destruct (round64_sign q2) as (P2 & Z2 & N2).
  destruct (Q_dec q1 0) as [[Hq1|Hq1]|Hq1];
  destruct (Q_dec q2 0) as [[Hq2|Hq2]|Hq2];
    try (exfalso; lra).
  - rewrite N1, N2 by assumption.
    apply Qopp_le_compat. apply round64_pos_monotone; lra.
  - rewrite N1, P2 by assumption.
    pose proof (round_to_nonneg (Py.ulp_exponent (- q1)) (- q1)).
    pose proof (round_to_nonneg (Py.ulp_exponent q2) q2). lra.
  - rewrite N1, Z2 by assumption.
    pose proof (round_to_nonneg (Py.ulp_exponent (- q1)) (- q1)). lra.
  - rewrite P1, P2 by assumption. apply round64_pos_monotone; lra.
  - rewrite Z1, P2 by assumption.
    pose proof (round_to_nonneg (Py.ulp_exponent q2) q2). lra.
  - rewrite Z1, Z2 by assumption. lra.
Qed.

(** Equal rationals round to equal values. *)
Lemma round64_proper q1 q2 : q1 == q2 -> Py.round64 q1 == Py.round64 q2.
Proof.
  intros H. apply Qle_antisym; apply round64_monotone; lra.
Qed.

(** Whole numbers up to [2 ** 53] are binary64 values. *)
Lemma round64_whole q n :
  q == inject_Z n -> (Z.abs n <= 2 ^ 53)%Z -> Py.round64 q == q.
Proof.
  assert (Hpos : forall q n, q == inject_Z n -> (0 < n <= 2 ^ 53)%Z ->
                   Py.round_to (Py.ulp_exponent q) q == q).
  { clear. intros q n Hq Hn.
    assert (H0 : 0 < q) by (rewrite Hq; change 0 with (inject_Z 0);
                            rewrite <- Zlt_Qlt; lia).
    destruct (ilog2_spec q H0) as [Hl Hu].
    set (l := Py.ilog2 q) in *.
    assert (Hl53 : (l <= 53)%Z).
    { assert (Py.pow2 l <= Py.pow2 53).
      { apply Qle_trans with q; [exact Hl|]. rewrite Hq.
        rewrite (pow2_inject 53) by lia. rewrite <- Zle_Qle. lia. }
      destruct (Z_le_gt_dec l 53) as [?|Hgt]; [assumption|].
      exfalso. assert (Py.pow2 53 < Py.pow2 l); [|lra].
      apply Qpower_lt_compat_l; [lia | reflexivity]. }
    assert (Hl0 : (0 <= l)%Z).
    { assert (Py.pow2 0 < Py.pow2 (l + 1)).
      { apply Qle_lt_trans with q; [|exact Hu]. rewrite Hq.
        change (Py.pow2 0) with (inject_Z 1). rewrite <- Zle_Qle. lia. }
      apply pow2_lt_inv in H. lia. }
    unfold Py.ulp_exponent. fold l.
    replace (Z.max (l - 52) (-1074)) with (l - 52)%Z by lia.
    destruct (Z_le_gt_dec l 52) as [Hle|Hgt].
    - apply (round_to_grid (l - 52) (n * 2 ^ (52 - l))).
      rewrite inject_Z_mult, <- pow2_inject by lia.
      rewrite <- Qmult_assoc, <- pow2_add.
      replace (52 - l + (l - 52))%Z with 0%Z by lia.
      rewrite Hq. change (Py.pow2 0) with 1. ring.
    - assert (El : l = 53%Z) by lia. clearbody l. subst l.
      assert (Hn53 : n = (2 ^ 53)%Z).
      { assert (Py.pow2 53 <= inject_Z n) by (rewrite <- Hq; exact Hl).
        rewrite (pow2_inject 53) in H by lia. rewrite <- Zle_Qle in H. lia. }
      apply (round_to_grid (53 - 52) (2 ^ 52)).
      rewrite Hq, Hn53. reflexivity. }
  intros Hq Hn.
  destruct (round64_sign q) as (HP & HZ & HN).
  destruct (Z.lt_trichotomy n 0) as [Hneg|[->|Hp]].
  - assert (Hlt : q < 0) by (rewrite Hq; change 0 with (inject_Z 0);
                             rewrite <- Zlt_Qlt; lia).
    rewrite (HN Hlt).
    rewrite (Hpos (- q) (- n)%Z); [ring| |lia].
    rewrite Hq, inject_Z_opp. reflexivity.
  - rewrite (HZ Hq). symmetry. exact Hq.
  - assert (Hgt : 0 < q) by (rewrite Hq; change 0 with (inject_Z 0);
                             rewrite <- Zlt_Qlt; lia).
    rewrite (HP Hgt). apply (Hpos q n Hq). lia.
Qed.

(** *** The rounding is to a nearest value of the format *)

Lemma round_half_even_nearest m :
  Qabs (inject_Z (Py.round_half_even m) - m) <= 1 # 2.
Proof.
  apply Qabs_Qle_condition. unfold Py.round_half_even; cbv zeta.
  pose proof (Qfloor_le m) as Hl. pose proof (Qlt_floor m) as Hu.
  rewrite inject_Z_plus in Hu. change (inject_Z 1) with 1 in Hu.
  destruct (Qcompare_spec (m - inject_Z (Qfloor m)) (1 # 2)) as [H|H|H];
    [destruct (Z.even _)|..];
    rewrite ?inject_Z_plus; change (inject_Z 1) with 1; split; lra.
Qed.

(** A positive number and its rounding differ by at most half a unit in
    the last place, and the rounding has at most 53 significant bits. *)
Lemma round64_nearest q :
  0 < q ->
  Qabs (Py.round64 q - q) <= Py.pow2 (Py.ulp_exponent q) * (1 # 2)
  /\ exists k, Py.round64 q == inject_Z k * Py.pow2 (Py.ulp_exponent q)
             /\ (0 <= k <= 2 ^ 53)%Z.
Proof.
  intros Hq. destruct (round64_sign q) as (E & _ & _). rewrite (E Hq).
  set (e := Py.ulp_exponent q). pose proof (pow2_pos e) as Hp.
  unfold Py.round_to. set (m := q / Py.pow2 e).
  assert (Hqm : q == m * Py.pow2 e) by (unfold m; field; lra).
  pose proof (round_half_even_nearest m) as Hn.
  apply Qabs_Qle_condition in Hn. split.
  - apply Qabs_Qle_condition.
    assert (E1 : inject_Z (Py.round_half_even m) * Py.pow2 e - q
                 == (inject_Z (Py.round_half_even m) - m) * Py.pow2 e)
      by (rewrite Hqm at 1; ring).
    rewrite E1. split.
    + assert (E2 : - (Py.pow2 e * (1 # 2)) == - (1 # 2) * Py.pow2 e) by ring.
      rewrite E2. apply Qmult_le_compat_r; lra.
    + rewrite (Qmult_comm (Py.pow2 e)). apply Qmult_le_compat_r; lra.
  - exists (Py.round_half_even m). split; [reflexivity|].
    assert (Hm0 : 0 <= m) by (apply Qle_shift_div_l; [exact Hp | lra]).
    assert (Hm53 : m <= inject_Z (2 ^ 53)).
    { apply Qle_shift_div_r; [exact Hp|].
      destruct (ilog2_spec q Hq) as [_ Hu].
      apply Qle_trans with (Py.pow2 (Py.ilog2 q + 1)); [lra|].
      rewrite <- (pow2_inject 53), <- pow2_add by lia.
      apply pow2_le. unfold e, Py.ulp_exponent. lia. }
    split.
    + change 0%Z with (Py.round_half_even 0).
      apply round_half_even_monotone, Hm0.
    + rewrite <- (round_half_even_whole (inject_Z (2 ^ 53)) (2 ^ 53))
        by reflexivity.
      apply round_half_even_monotone, Hm53.
Qed.

(** *** [int] of a rounded product *)

Lemma int_whole (x : Q) (z : Z) : x == inject_Z z -> Py.int x = z.
Proof.
  destruct x as [n d]. unfold Qeq, Py.int; simpl. intros H.
  rewrite Z.mul_1_r in H. subst n. apply Z.quot_mul. lia.
Qed.

Lemma int_proper (x y : Q) : x == y -> Py.int x = Py.int y.
Proof.
  intros H. apply Z.le_antisymm; apply int_monotone; rewrite H;
    apply Qle_refl.
Qed.

Lemma finite_between x :
  - inject_Z (2 ^ 53) <= x <= inject_Z (2 ^ 53) -> Py.finite x = true.
Proof.
  intros H. unfold Py.finite.
  destruct (Qle_bool _ _) eqn:E; [|reflexivity].
  apply Qle_bool_iff in E. exfalso.
  apply Qabs_Qle_condition in H.
  assert (Hlt : Py.pow2 53 < Py.pow2 1024)
    by (apply Qpower_lt_compat_l; [lia | reflexivity]).
  rewrite (pow2_inject 53) in Hlt by lia.
  apply (Qlt_irrefl (Py.pow2 1024)).
  apply Qle_lt_trans with (Qabs x); [exact E|].
  apply Qle_lt_trans with (inject_Z (2 ^ 53)); assumption.
Qed.

Lemma finite_whole x n :
  x == inject_Z n -> (Z.abs n <= 2 ^ 53)%Z -> Py.finite x = true.
Proof.
  intros Hx Hn. apply finite_between. rewrite Hx, <- inject_Z_opp.
  rewrite <- !Zle_Qle. lia.
Qed.

(** A monitor dimension up to [2 ** 53] converts to [float] unchanged. *)
Lemma float_of_dimension w :
  (Z.abs w <= 2 ^ 53)%Z -> Py.round64 (inject_Z w) == inject_Z w.
Proof. intros H. apply (round64_whole _ w); [reflexivity | exact H]. Qed.


(** The rounded product of a fraction and a dimension stays between zero
    and the dimension. *)
Lemma round64_fraction_bounds v w :
  0 <= v <= 1 -> (0 <= w <= 2 ^ 53)%Z ->
  0 <= Py.round64 (v * inject_Z w) <= inject_Z w.
Proof.
  intros [H0 H1] Hw.
  assert (Hw' : 0 <= inject_Z w)
    by (change 0 with (inject_Z 0); rewrite <- Zle_Qle; lia).
  split.
  - change 0 with (Py.round64 0) at 1. apply round64_monotone.
    apply Qmult_le_0_compat; assumption.
  - rewrite <- (float_of_dimension w) at 2 by lia.
    apply round64_monotone.
    rewrite <- (Qmult_1_l (inject_Z w)) at 2.
    apply Qmult_le_compat_r; assumption.
Qed.

Lemma scaled_bounds v w :
  0 <= v <= 1 -> (0 <= w <= 2 ^ 53)%Z ->
  (0 <= Py.int (Py.round64 (v * inject_Z w)) <= w)%Z.
Proof.
  intros Hv Hw. destruct (round64_fraction_bounds v w Hv Hw) as [H0 H1].
  split.
  - change 0%Z with (Py.int 0). apply int_monotone, H0.
  - rewrite <- (int_whole (inject_Z w) w) at 2 by reflexivity.
    apply int_monotone, H1.
Qed.

Lemma scaled_monotone v1 v2 w :
  v1 <= v2 -> (0 <= w)%Z ->
  (Py.int (Py.round64 (v1 * inject_Z w))
   <= Py.int (Py.round64 (v2 * inject_Z w)))%Z.
Proof.
  intros Hv Hw. apply int_monotone, round64_monotone.
  apply Qmult_le_compat_r; [exact Hv|].
  change 0 with (inject_Z 0); rewrite <- Zle_Qle; lia.
Qed.

(** Two fractions at least two pixels apart land on different pixels:
    rounding moves neither product past a whole number. *)
Lemma scaled_apart v1 v2 w :
  0 <= v1 -> v2 <= 1 -> (0 < w <= 2 ^ 53)%Z ->
  2 <= (v2 - v1) * inject_Z w ->
  (Py.int (Py.round64 (v1 * inject_Z w))
   < Py.int (Py.round64 (v2 * inject_Z w)))%Z.
Proof.
  intros H0 H1 Hw Hgap.
  assert (Hw' : 0 <= inject_Z w)
    by (change 0 with (inject_Z 0); rewrite <- Zle_Qle; lia).
  set (y := v1 * inject_Z w) in *. set (x := v2 * inject_Z w) in *.
  assert (Hy0 : 0 <= y) by (apply Qmult_le_0_compat; assumption).
  assert (Hxy : y + 2 <= x).
  { assert (E : x == y + (v2 - v1) * inject_Z w) by (unfold x, y; ring).
    rewrite E. apply Qplus_le_compat; [apply Qle_refl | exact Hgap]. }
  assert (Hxw : x <= inject_Z w).
  { unfold x. rewrite <- (Qmult_1_l (inject_Z w)) at 2.
    apply Qmult_le_compat_r; assumption. }
  pose proof (Qfloor_le y) as Hfy. pose proof (Qlt_floor y) as Hfy'.
  pose proof (Qfloor_le x) as Hfx.
  assert (Hf0 : (0 <= Qfloor y)%Z)
    by (change 0%Z with (Qfloor 0); apply Qfloor_resp_le, Hy0).
  assert (Hfxy : (Qfloor y + 2 <= Qfloor x)%Z).
  { rewrite <- (Qfloor_Z (Qfloor y + 2)). apply Qfloor_resp_le.
    rewrite inject_Z_plus. change (inject_Z 2) with 2. lra. }
  assert (Hfxw : (Qfloor x <= w)%Z).
  { rewrite <- (Qfloor_Z w). apply Qfloor_resp_le, Hxw. }
  (* the lower product rounds to at most the next whole number *)
  assert (Hlow : (Py.int (Py.round64 y) <= Qfloor y + 1)%Z).
  { rewrite <- (int_whole (Py.round64 (inject_Z (Qfloor y + 1)))
                  (Qfloor y + 1)).
    - apply int_monotone, round64_monotone. apply Qlt_le_weak, Hfy'.
    - apply (round64_whole _ (Qfloor y + 1)); [reflexivity | lia]. }
  (* the upper product rounds to at least its whole part *)
  assert (Hhigh : (Qfloor x <= Py.int (Py.round64 x))%Z).
  { rewrite <- (int_whole (Py.round64 (inject_Z (Qfloor x))) (Qfloor x))
      at 1.
    - apply int_monotone, round64_monotone, Hfx.
    - apply (round64_whole _ (Qfloor x)); [reflexivity | lia]. }
  lia.
Qed.

(** *** One pixel apart

    Rounding moves a product to the next whole number only from within
    half a unit in the last place, and a product one pixel further on is
    then as near to its own next whole number. *)

Lemma Qfloor_add_whole m j : Qfloor (m + inject_Z j) = (Qfloor m + j)%Z.
Proof.
  apply Z.le_antisymm.
  - assert (H : (Qfloor (m + inject_Z j) - j <= Qfloor m)%Z); [|lia].
    rewrite <- (Qfloor_Z (Qfloor (m + inject_Z j) - j)).
    apply Qfloor_resp_le. unfold Z.sub.
    rewrite inject_Z_plus, inject_Z_opp.
    pose proof (Qfloor_le (m + inject_Z j)). lra.
  - rewrite <- (Qfloor_Z (Qfloor m + j)). apply Qfloor_resp_le.
    rewrite inject_Z_plus. pose proof (Qfloor_le m). lra.
Qed.

(** Moving by an even whole number moves the rounding with it. *)
Lemma round_half_even_shift m j :
  Py.round_half_even (m + inject_Z (2 * j))
  = (Py.round_half_even m + 2 * j)%Z.
Proof.
  unfold Py.round_half_even; cbv zeta. rewrite Qfloor_add_whole.
  assert (E : m + inject_Z (2 * j) - inject_Z (Qfloor m + 2 * j)
              == m - inject_Z (Qfloor m))
    by (rewrite inject_Z_plus; ring).
  rewrite E. destruct (_ ?= _); [|lia..].
  rewrite Z.even_add_mul_2. destruct (Z.even _); lia.
Qed.

Lemma round_half_even_proper m m' :
  m == m' -> Py.round_half_even m = Py.round_half_even m'.
Proof.
  intros H. apply Z.le_antisymm; apply round_half_even_monotone; lra.
Qed.

(** A whole number lies on every grid finer than the whole numbers. *)
Lemma whole_on_grid e n :
  (e <= 0)%Z -> inject_Z n == inject_Z (n * 2 ^ (- e)) * Py.pow2 e.
Proof.
  intros He. rewrite inject_Z_mult, <- pow2_inject by lia.
  rewrite <- Qmult_assoc, <- pow2_add.
  replace (- e + e)%Z with 0%Z by lia. change (Py.pow2 0) with 1. ring.
Qed.

(** Within half a step below a whole number, rounding reaches it. *)
Lemma round_to_reaches e n q :
  (e <= 0)%Z -> inject_Z n - Py.pow2 e * (1 # 2) < q ->
  inject_Z n <= Py.round_to e q.
Proof.
  intros He Hq. pose proof (pow2_pos e) as Hp.
  rewrite (whole_on_grid e n He) in Hq |- *.
  set (N := (n * 2 ^ (- e))%Z) in *. unfold Py.round_to.
  apply Qmult_le_compat_r; [|lra]. rewrite <- Zle_Qle.
  set (m := q / Py.pow2 e).
  assert (Hm : inject_Z N - (1 # 2) < m).
  { unfold m. apply Qlt_shift_div_l; [exact Hp|]. lra. }
  assert (Hf : (N - 1 <= Qfloor m)%Z).
  { rewrite <- (Qfloor_Z (N - 1)). apply Qfloor_resp_le.
    unfold Z.sub. rewrite inject_Z_plus, inject_Z_opp.
    change (inject_Z 1) with 1. lra. }
  pose proof (round_half_even_bounds m) as Hb.
  destruct (Z.eq_dec (Qfloor m) (N - 1)%Z) as [E|E]; [|lia].
  unfold Py.round_half_even; cbv zeta. rewrite E.
  assert (Hc : (m - inject_Z (N - 1) ?= 1 # 2) = Gt).
  { apply Qgt_alt. unfold Z.sub.
    rewrite inject_Z_plus, inject_Z_opp. change (inject_Z 1) with 1. lra. }
  rewrite Hc. lia.
Qed.

(** Rounding reaches a whole number from below only from within half a
    step. *)
Lemma round_to_reached e n q :
  (e <= 0)%Z -> q < inject_Z n -> inject_Z n <= Py.round_to e q ->
  inject_Z n - Py.pow2 e * (1 # 2) <= q.
Proof.
  intros He Hq Hr. pose proof (pow2_pos e) as Hp.
  rewrite (whole_on_grid e n He) in Hq, Hr |- *.
  set (N := (n * 2 ^ (- e))%Z) in *. unfold Py.round_to in Hr.
  set (m := q / Py.pow2 e) in *.
  assert (Hqm : q == m * Py.pow2 e) by (unfold m; field; lra).
  assert (HN : (N <= Py.round_half_even m)%Z).
  { rewrite Zle_Qle. apply Qmult_le_r with (Py.pow2 e); assumption. }
  assert (Hm : m < inject_Z N).
  { apply Qmult_lt_r with (Py.pow2 e); [exact Hp|]. lra. }
  assert (Hf : (Qfloor m < N)%Z).
  { rewrite Zlt_Qlt. apply Qle_lt_trans with m; [apply Qfloor_le | exact Hm]. }
  pose proof (round_half_even_bounds m) as Hb.
  assert (Ef : Qfloor m = (N - 1)%Z) by lia.
  assert (Hhalf : inject_Z N - (1 # 2) <= m).
  { assert (Ei : inject_Z (N - 1) == inject_Z N - 1)
      by (unfold Z.sub; rewrite inject_Z_plus, inject_Z_opp; reflexivity).
    revert HN. unfold Py.round_half_even; cbv zeta. rewrite Ef.
    destruct (Qcompare_spec (m - inject_Z (N - 1)) (1 # 2)) as [H|H|H];
      intros HN; rewrite Ei in H; [lra | exfalso; lia | lra]. }
  rewrite Hqm.
  assert (E : inject_Z N * Py.pow2 e - Py.pow2 e * (1 # 2)
              == (inject_Z N - (1 # 2)) * Py.pow2 e) by ring.
  rewrite E. apply Qmult_le_compat_r; [exact Hhalf | lra].
Qed.

Lemma ulp_exponent_monotone q1 q2 :
  0 < q1 -> q1 <= q2 -> (Py.ulp_exponent q1 <= Py.ulp_exponent q2)%Z.
Proof.
  intros H1 H12. pose proof (ilog2_monotone q1 q2 H1 H12).
  unfold Py.ulp_exponent. lia.
Qed.

Lemma ulp_exponent_below q :
  0 < q -> q < inject_Z (2 ^ 52) -> (Py.ulp_exponent q <= -1)%Z.
Proof.
  intros H0 H. destruct (ilog2_spec q H0) as [Hl _].
  assert (Hlt : Py.pow2 (Py.ilog2 q) < Py.pow2 52)
    by (rewrite (pow2_inject 52) by lia; lra).
  apply pow2_lt_inv in Hlt. unfold Py.ulp_exponent. lia.
Qed.

(** If a product rounds up to a whole number, the product one further on
    rounds up to the next. *)
Lemma round64_step y n :
  0 < y -> y + 1 < inject_Z (2 ^ 52) -> y < inject_Z n ->
  inject_Z n <= Py.round64 y ->
  inject_Z (n + 1) <= Py.round64 (y + 1).
Proof.
  intros Hy Hy1 Hyn Hr.
  assert (Hy1' : 0 < y + 1) by lra.
  destruct (round64_sign y) as (Ey & _ & _).
  destruct (round64_sign (y + 1)) as (Ey1 & _ & _).
  rewrite (Ey Hy) in Hr. rewrite (Ey1 Hy1').
  pose proof (ulp_exponent_monotone y (y + 1) Hy ltac:(lra)) as Hmono.
  pose proof (ulp_exponent_below (y + 1) Hy1' Hy1) as Hbelow.
  set (e := Py.ulp_exponent y) in *. set (e' := Py.ulp_exponent (y + 1)) in *.
  pose proof (pow2_pos e) as Hp.
  destruct (Z.eq_dec e e') as [E|E].
  - (* the same grid: the rounding moves with the product *)
    rewrite <- E.
    assert (Es : Py.round_to e (y + 1) == Py.round_to e y + 1).
    { unfold Py.round_to.
      rewrite (round_half_even_proper ((y + 1) / Py.pow2 e)
                 (y / Py.pow2 e + inject_Z (2 * 2 ^ (- e - 1)))).
      - rewrite round_half_even_shift, inject_Z_plus.
        replace (2 * 2 ^ (- e - 1))%Z with (2 ^ (- e))%Z
          by (rewrite <- Z.pow_succ_r by lia; f_equal; lia).
        rewrite Qmult_plus_distr_l.
        rewrite <- (pow2_inject (- e)), <- pow2_add by lia.
        replace (- e + e)%Z with 0%Z by lia. reflexivity.
      - replace (2 * 2 ^ (- e - 1))%Z with (2 ^ (- e))%Z
          by (rewrite <- Z.pow_succ_r by lia; f_equal; lia).
        rewrite <- (pow2_inject (- e)) by lia.
        assert (Ei : Py.pow2 (- e) == / Py.pow2 e).
        { apply Qmult_inj_r with (Py.pow2 e); [lra|].
          rewrite <- pow2_add. replace (- e + e)%Z with 0%Z by lia.
          change (Py.pow2 0) with 1. field. lra. }
        rewrite Ei. field. lra. }
    rewrite Es, inject_Z_plus. change (inject_Z 1) with 1. lra.
  - (* a coarser grid: half a step of the finer one is within reach *)
    assert (Hlt : Py.pow2 e < Py.pow2 e')
      by (apply Qpower_lt_compat_l; [lia | reflexivity]).
    pose proof (round_to_reached e n y ltac:(lia) Hyn Hr) as Hnear.
    apply round_to_reaches; [lia|].
    rewrite inject_Z_plus. change (inject_Z 1) with 1. lra.
Qed.

(** Two fractions at least one pixel apart land on different pixels on a
    monitor dimension up to [2 ** 52]. *)
Lemma scaled_apart_one v1 v2 w :
  0 <= v1 -> v2 <= 1 -> (0 < w <= 2 ^ 52)%Z ->
  1 <= (v2 - v1) * inject_Z w ->
  (Py.int (Py.round64 (v1 * inject_Z w))
   < Py.int (Py.round64 (v2 * inject_Z w)))%Z.
Proof.
  intros H0 H1 Hw Hgap.
  assert (Hw' : 0 <= inject_Z w)
    by (change 0 with (inject_Z 0); rewrite <- Zle_Qle; lia).
  assert (Hw52 : inject_Z w <= inject_Z (2 ^ 52)) by (rewrite <- Zle_Qle; lia).
  set (y := v1 * inject_Z w) in *. set (x := v2 * inject_Z w) in *.
  assert (Hy0 : 0 <= y) by (apply Qmult_le_0_compat; assumption).
  assert (Hxy : y + 1 <= x).
  { assert (E : x == y + (v2 - v1) * inject_Z w) by (unfold x, y; ring).
    rewrite E. apply Qplus_le_compat; [apply Qle_refl | exact Hgap]. }
  assert (Hxw : x <= inject_Z w).
  { unfold x. rewrite <- (Qmult_1_l (inject_Z w)) at 2.
    apply Qmult_le_compat_r; assumption. }
  pose proof (Qfloor_le y) as Hfy. pose proof (Qlt_floor y) as Hfy'.
  assert (Hf0 : (0 <= Qfloor y)%Z)
    by (change 0%Z with (Qfloor 0); apply Qfloor_resp_le, Hy0).
  assert (Hfw : (Qfloor y + 1 <= w)%Z).
  { rewrite Zle_Qle, inject_Z_plus. change (inject_Z 1) with 1. lra. }
  set (n := (Qfloor y + 1)%Z) in *.
  assert (En : inject_Z n == inject_Z (Qfloor y) + 1)
    by (unfold n; rewrite inject_Z_plus; reflexivity).
  assert (Hwhole : forall k, (0 <= k <= w)%Z ->
            Py.int (Py.round64 (inject_Z k)) = k).
  { intros k Hk. apply int_whole.
    apply (round64_whole _ k); [reflexivity | lia]. }
  assert (Hlow : (Py.int (Py.round64 y) <= n)%Z).
  { rewrite <- (Hwhole n) by lia.
    apply int_monotone, round64_monotone. lra. }
  destruct (Qlt_le_dec (Py.round64 y) (inject_Z n)) as [Hlt|Hge].
  - (* the lower product keeps its pixel *)
    assert (Hr0 : 0 <= Py.round64 y)
      by (change 0 with (Py.round64 0) at 1; apply round64_monotone, Hy0).
    assert (Hly : (Py.int (Py.round64 y) < n)%Z).
    { rewrite int_nonneg by exact Hr0. rewrite Zlt_Qlt.
      apply Qle_lt_trans with (Py.round64 y); [apply Qfloor_le | exact Hlt]. }
    assert (Hhx : (n <= Py.int (Py.round64 x))%Z).
    { rewrite <- (Hwhole n) at 1 by lia.
      apply int_monotone, round64_monotone. lra. }
    lia.
  - (* the lower product rounds up to the next pixel: so does the upper *)
    assert (Hypos : 0 < y).
    { destruct (Qlt_le_dec 0 y) as [?|Hle]; [assumption|]. exfalso.
      assert (Ey : y == 0) by lra.
      rewrite (round64_proper y 0 Ey) in Hge.
      change (Py.round64 0) with (inject_Z 0) in Hge.
      rewrite <- Zle_Qle in Hge. lia. }
    assert (Hy52 : y + 1 < inject_Z (2 ^ 52)).
    { destruct (Qlt_le_dec (y + 1) (inject_Z (2 ^ 52))) as [?|Hle];
        [assumption|]. exfalso.
      assert (Ey : y == inject_Z (2 ^ 52 - 1)).
      { unfold Z.sub. rewrite inject_Z_plus, inject_Z_opp.
        change (inject_Z 1) with 1. lra. }
      rewrite (round64_proper _ _ Ey) in Hge.
      rewrite (round64_whole _ (2 ^ 52 - 1)) in Hge by (reflexivity || lia).
      rewrite Ey in Hfy'. lra. }
    assert (Hstep := round64_step y n Hypos Hy52 Hfy' Hge).
    assert (Hhx : (n + 1 <= Py.int (Py.round64 x))%Z).
    { rewrite <- (int_whole (inject_Z (n + 1)) (n + 1)) at 1 by reflexivity.
      apply int_monotone.
      apply Qle_trans with (Py.round64 (y + 1)); [exact Hstep|].
      apply round64_monotone, Hxy. }
    lia.
Qed.

(** A fractional coordinate on a monitor dimension up to [2 ** 53]: no
    exception, and the pixel is the truncated rounded product. *)
Lemma int_of_product_fraction n w :
  0 <= Py.value n <= 1 -> (0 <= w <= 2 ^ 53)%Z ->
  Py.int_of_product n w
  = Py.Return (Py.int (Py.round64 (Py.value n * inject_Z w))).
Proof.
  intros Hv Hw. destruct n as [z|q].
  - simpl in *. destruct Hv as [H0 H1].
    change 0 with (inject_Z 0) in H0. change 1 with (inject_Z 1) in H1.
    rewrite <- Zle_Qle in H0, H1. f_equal. symmetry. apply int_whole.
    rewrite <- inject_Z_mult.
    apply (round64_whole _ (z * w)); [reflexivity | nia].
  - simpl Py.value in *.
    assert (Hw2 : (Z.abs w <= 2 ^ 53)%Z) by lia.
    pose proof (float_of_dimension w Hw2) as Efw.
    assert (Ex : Py.round64 q * Py.round64 (inject_Z w)
                 == Py.round64 q * inject_Z w)
      by (rewrite Efw; reflexivity).
    pose proof (round64_proper _ _ Ex) as Ep.
    destruct (round64_fraction_bounds _ w Hv Hw) as [Hp0 Hp1].
    assert (H53 : 1 <= inject_Z (2 ^ 53))
      by (change 1 with (inject_Z 1); rewrite <- Zle_Qle; lia).
    assert (Hw53 : inject_Z w <= inject_Z (2 ^ 53))
      by (rewrite <- Zle_Qle; lia).
    unfold Py.int_of_product; cbv zeta.
    rewrite (finite_whole _ w Efw Hw2).
    rewrite (finite_between (Py.round64 q)) by (split; lra).
    cbn [negb].
    rewrite finite_between by (rewrite Ep; split; lra).
    f_equal. apply int_proper, Ep.
Qed.

End Binary64Facts.

(** ** ScreenCapture: the region-to-pixel mapping *)

Section ScreenCaptureFacts.

Import ScreenCapture.

(** The bounding box of a region whose four edges convert without an
    exception. *)
Lemma region_bbox_returns mon region l t r b :
  Py.int_of_product (left region) (mon_width mon) = Py.Return l ->
  Py.int_of_product (top region) (mon_height mon) = Py.Return t ->
  Py.int_of_product (right region) (mon_width mon) = Py.Return r ->
  Py.int_of_product (bottom region) (mon_height mon) = Py.Return b ->
  region_bbox mon region
  = Py.Return {| bbox_left := l + mon_left mon;
                 bbox_top := t + mon_top mon;
                 bbox_width := r + mon_left mon - (l + mon_left mon);
                 bbox_height := b + mon_top mon - (t + mon_top mon) |}.
Proof.
  intros Hl Ht Hr Hb. unfold region_bbox; cbv zeta.
  rewrite Hl, Ht, Hr, Hb. reflexivity.
Qed.

(** C3, as the code has it.  For a region of the configuration with
    [left < right] and [top < bottom] inside [0, 1], monitor dimensions
    that are positive and at most [2 ** 53] (those [float] holds exactly)
    and any monitor offset, [grab_region] asks for a bounding box whose
    width and height are not negative and whose edges lie within
    [offset, offset + dimension].  The width is positive when the region
    is at least two pixels wide, [(right - left) * width >= 2], and, on a
    monitor width up to [2 ** 52], when it is at least one pixel wide;
    the height likewise. *)
Theorem grab_region_within_monitor self mon region_key region :
  regions_cfg self !! region_key = Some region ->
  well_formed region ->
  (0 < mon_width mon <= 2 ^ 53)%Z -> (0 < mon_height mon <= 2 ^ 53)%Z ->
  exists b,
    grab_region self mon region_key = Py.Return b
    /\ (0 <= bbox_width b)%Z /\ (0 <= bbox_height b)%Z
    /\ (mon_left mon <= bbox_left b)%Z
    /\ (bbox_right b <= mon_left mon + mon_width mon)%Z
    /\ (mon_top mon <= bbox_top b)%Z
    /\ (bbox_bottom b <= mon_top mon + mon_height mon)%Z
    /\ ((2 <= (Py.value (right region) - Py.value (left region))
              * inject_Z (mon_width mon))%Q ->
        (0 < bbox_width b)%Z)
    /\ ((2 <= (Py.value (bottom region) - Py.value (top region))
              * inject_Z (mon_height mon))%Q ->
        (0 < bbox_height b)%Z)
    /\ ((1 <= (Py.value (right region) - Py.value (left region))
              * inject_Z (mon_width mon))%Q ->
        (mon_width mon <= 2 ^ 52)%Z -> (0 < bbox_width b)%Z)
    /\ ((1 <= (Py.value (bottom region) - Py.value (top region))
              * inject_Z (mon_height mon))%Q ->
        (mon_height mon <= 2 ^ 52)%Z -> (0 < bbox_height b)%Z).
Proof.
  intros Hkey [Hl Ht Hr Hb Hlr Htb] Hw Hh.
  assert (Hw0 : (0 <= mon_width mon <= 2 ^ 53)%Z) by lia.
  assert (Hh0 : (0 <= mon_height mon <= 2 ^ 53)%Z) by lia.
  assert (Fl : (0 <= Py.value (left region) <= 1)%Q) by (split; lra).
  assert (Fr : (0 <= Py.value (right region) <= 1)%Q) by (split; lra).
  assert (Ft : (0 <= Py.value (top region) <= 1)%Q) by (split; lra).
  assert (Fb : (0 <= Py.value (bottom region) <= 1)%Q) by (split; lra).
  unfold grab_region. rewrite Hkey.
  rewrite (region_bbox_returns mon region _ _ _ _
             (int_of_product_fraction _ _ Fl Hw0)
             (int_of_product_fraction _ _ Ft Hh0)
             (int_of_product_fraction _ _ Fr Hw0)
             (int_of_product_fraction _ _ Fb Hh0)).
  eexists; split; [reflexivity|].
  unfold bbox_right, bbox_bottom; simpl.
  pose proof (scaled_bounds _ _ Fl Hw0).
  pose proof (scaled_bounds _ _ Fr Hw0).
  pose proof (scaled_bounds _ _ Ft Hh0).
  pose proof (scaled_bounds _ _ Fb Hh0).
  pose proof (scaled_monotone _ _ (mon_width mon) (Qlt_le_weak _ _ Hlr)
                ltac:(lia)).
  pose proof (scaled_monotone _ _ (mon_height mon) (Qlt_le_weak _ _ Htb)
                ltac:(lia)).
  repeat split; try lia.
  - intros Hgap. pose proof (scaled_apart _ _ _ Hl Hr Hw Hgap). lia.
  - intros Hgap. pose proof (scaled_apart _ _ _ Ht Hb Hh Hgap). lia.
  - intros Hgap Hw52.
    pose proof (scaled_apart_one _ _ (mon_width mon) Hl Hr ltac:(lia) Hgap).
    lia.
  - intros Hgap Hh52.
    pose proof (scaled_apart_one _ _ (mon_height mon) Ht Hb ltac:(lia)
                  Hgap).
    lia.
Qed.

Lemma grab_region_within_monitor_witness :
  exists b,
    grab_region sample_capture full_hd "weapon_name" = Py.Return b
    /\ (0 <= bbox_width b)%Z /\ (0 <= bbox_height b)%Z
    /\ (mon_left full_hd <= bbox_left b)%Z
    /\ (bbox_right b <= mon_left full_hd + mon_width full_hd)%Z
    /\ (mon_top full_hd <= bbox_top b)%Z
    /\ (bbox_bottom b <= mon_top full_hd + mon_height full_hd)%Z
    /\ ((2 <= (Py.value (right corner_region)
               - Py.value (left corner_region))
              * inject_Z (mon_width full_hd))%Q ->
        (0 < bbox_width b)%Z)
    /\ ((2 <= (Py.value (bottom corner_region)
               - Py.value (top corner_region))
              * inject_Z (mon_height full_hd))%Q ->
        (0 < bbox_height b)%Z)
    /\ ((1 <= (Py.value (right corner_region)
               - Py.value (left corner_region))
              * inject_Z (mon_width full_hd))%Q ->
        (mon_width full_hd <= 2 ^ 52)%Z -> (0 < bbox_width b)%Z)
    /\ ((1 <= (Py.value (bottom corner_region)
               - Py.value (top corner_region))
              * inject_Z (mon_height full_hd))%Q ->
        (mon_height full_hd <= 2 ^ 52)%Z -> (0 < bbox_height b)%Z).
Proof.
  apply (grab_region_within_monitor sample_capture full_hd "weapon_name"
           corner_region).
  - vm_compute. reflexivity.
  - split; (apply Qle_bool_iff || apply Qlt_alt); vm_compute; reflexivity.
  - simpl. lia.
  - simpl. lia.
Defined.

(** C3, as it is stated, fails: on a 1920 x 1080 monitor the region
    [0.5, 0.5001] x [0.5, 0.5005] is well formed and maps to a bounding box
    of width 0 and height 0. *)
Lemma grab_region_empty_box :
  well_formed thin_region
  /\ (0 < mon_width full_hd)%Z /\ (0 < mon_height full_hd)%Z
  /\ grab_region sample_capture full_hd "match_info"
     = Py.Return {| bbox_left := 960; bbox_top := 540;
                    bbox_width := 0; bbox_height := 0 |}
  /\ ~ (forall self mon region_key region b,
          regions_cfg self !! region_key = Some region ->
          well_formed region ->
          (0 < mon_width mon)%Z -> (0 < mon_height mon)%Z ->
          grab_region self mon region_key = Py.Return b ->
          (0 < bbox_width b)%Z /\ (0 < bbox_height b)%Z).
Proof.
  assert (Hwf : well_formed thin_region)
    by (split; (apply Qle_bool_iff || apply Qlt_alt); vm_compute;
        reflexivity).
  assert (Hgrab : grab_region sample_capture full_hd "match_info"
                  = Py.Return {| bbox_left := 960; bbox_top := 540;
                                 bbox_width := 0; bbox_height := 0 |})
    by (vm_compute; reflexivity).
  split; [exact Hwf|]. split; [simpl; lia|]. split; [simpl; lia|].
  split; [exact Hgrab|].
  intros H.
  destruct (H sample_capture full_hd "match_info"%str thin_region _
              ltac:(vm_compute; reflexivity) Hwf
              ltac:(simpl; lia) ltac:(simpl; lia) Hgrab) as [Hw _].
  simpl in Hw. lia.
Qed.

(** The products are rounded: the decimal 0.25125 of an 800 pixel
    dimension is 201 pixels, the [float] nearest to it gives 200; and the
    decimals 0.289375 and 0.29 of 1600 pixels are one pixel apart, where
    the code finds the same pixel. *)
Lemma region_products_are_rounded :
  Py.int ((25125 # 100000) * inject_Z 800) = 201%Z
  /\ Py.int_of_product (Py.Float (25125 # 100000)) 800 = Py.Return 200%Z
  /\ Py.int ((29 # 100) * inject_Z 1600) = 464%Z
  /\ Py.int_of_product (Py.Float (29 # 100)) 1600 = Py.Return 463%Z
  /\ Py.int_of_product (Py.Float (289375 # 1000000)) 1600 = Py.Return 463%Z.
Proof. repeat split; vm_compute; reflexivity. Qed.

(** Beyond [2 ** 53] the conversion of a dimension to [float] rounds: on
    a monitor [2 ** 53 + 3] pixels wide the whole screen maps to a box
    one pixel wider than the monitor. *)
Lemma whole_screen_past_the_monitor :
  region_bbox {| mon_left := 0; mon_top := 0;
                 mon_width := 2 ^ 53 + 3; mon_height := 1080 |}
    whole_screen
  = Py.Return {| bbox_left := 0; bbox_top := 0;
                 bbox_width := 2 ^ 53 + 4; bbox_height := 1080 |}.
Proof. vm_compute. reflexivity. Qed.

(** A coordinate that overflows [float], or a dimension that does, ends the
    call with an exception. *)
Lemma int_of_product_raises :
  Py.int_of_product (Py.Float (10 ^ 400 # 1)) 1920
  = Py.Raise Py.OverflowError
  /\ Py.int_of_product (Py.Float (10 ^ 400 # 1)) 0 = Py.Raise Py.ValueError
  /\ Py.int_of_product (Py.Float (1 # 2)) (10 ^ 400)
     = Py.Raise Py.OverflowError
  /\ Py.int_of_product (Py.Int 2) (10 ^ 400) = Py.Return (2 * 10 ^ 400)%Z.
Proof. repeat split; vm_compute; reflexivity. Qed.

End ScreenCaptureFacts.

(** ** Python strings *)

Section PyFacts.

Lemma startswith_spec (s sub : str) :
  Py.startswith s sub = true <-> exists post, s = sub ++ post.
Proof.
  revert s; induction sub as [|c sub IH]; intros s; simpl.
  - split; [intros _; exists s; reflexivity | reflexivity].
  - destruct s as [|d s].
    + split; [discriminate | intros [post H]; discriminate].
    + rewrite andb_true_iff, bool_decide_eq_true, IH. split.
      * intros [-> [post ->]]. exists post. reflexivity.
      * intros [post H]. injection H as -> ->. eauto.
Qed.

Lemma contains_spec (s sub : str) :
  Py.contains s sub = true <-> Py.substring sub s.
Proof.
  unfold Py.substring. induction s as [|d s IH]; simpl.
  - rewrite orb_false_r, startswith_spec. split.
    + intros [post H]. exists [], post. exact H.
    + intros [pre [post H]]. symmetry in H.
      apply app_eq_nil in H as [-> H]. apply app_eq_nil in H as [-> ->].
      exists []. reflexivity.
  - rewrite orb_true_iff, startswith_spec, IH. split.
    + intros [[post H]|[pre [post H]]].
      * exists [], post. exact H.
      * exists (d :: pre), post. simpl. congruence.
    + intros [[|c pre] [post H]]; simpl in H.
      * left. eauto.
      * right. injection H as -> ->. eauto.
Qed.

End PyFacts.

(** ** re: the matcher against the meaning of the pattern *)

Section ReFacts.

Import Re.

Lemma rounds_k_sound mk (P : str -> Prop) k :
  (forall s k' out, mk s k' = Some out ->
     exists m s', s = m ++ s' /\ P m /\ k' s' = Some out) ->
  forall hi lo s out,
    lo <= hi ->
    rounds_k mk k lo hi s = Some out ->
    exists ms s',
      s = concat ms ++ s' /\ lo <= length ms <= hi /\ Forall P ms
      /\ k s' = Some out.
Proof.
  intros Hmk. induction hi as [|hi IH]; intros lo s out Hlo; simpl.
  - intros Hk. exists [], s. simpl. repeat split; auto; lia.
  - destruct (mk s _) as [rest|] eqn:E.
    + intros [= ->]. apply Hmk in E as (m & s1 & -> & Hm & Hr).
      apply IH in Hr as (ms & s' & -> & Hlen & Hall & Hk); [|lia].
      exists (m :: ms), s'. simpl. rewrite <- app_assoc.
      repeat split; auto; lia.
    + case_bool_decide; [|discriminate]. intros Hk.
      exists [], s. simpl. repeat split; auto; lia.
Qed.

Lemma match_k_sound r :
  wf r ->
  forall s k out,
    match_k r s k = Some out ->
    exists m s', s = m ++ s' /\ denote r m /\ k s' = Some out.
Proof.
  induction r as [|c0|r1 IH1 r2 IH2|r0 IH lo hi]; simpl; intros Hwf s k out.
  - destruct s as [|c s]; [discriminate|].
    destruct (Py.isdecimal c) eqn:Hd; [|discriminate].
    intros Hk. exists [c], s. eauto.
  - destruct s as [|c s]; [discriminate|].
    case_bool_decide; [subst|discriminate].
    intros Hk. exists [c0], s. eauto.
  - destruct Hwf as [Hwf1 Hwf2]. intros H.
    apply IH1 in H as (m1 & s1 & -> & Hm1 & H); [|assumption].
    apply IH2 in H as (m2 & s2 & -> & Hm2 & H); [|assumption].
    exists (m1 ++ m2), s2. rewrite <- app_assoc. eauto 10.
  - destruct Hwf as [Hlo Hwf]. intros H.
    apply (rounds_k_sound _ (denote r0)) in H
      as (ms & s' & -> & Hlen & Hall & Hk); [|auto|assumption].
    exists (concat ms), s'. eauto 10.
Qed.

Lemma rounds_k_complete mk (P : str -> Prop) k :
  (forall m s' k' out, P m -> k' s' = Some out ->
     is_Some (mk (m ++ s') k')) ->
  forall hi lo ms s' out,
    lo <= length ms <= hi -> Forall P ms -> k s' = Some out ->
    is_Some (rounds_k mk k lo hi (concat ms ++ s')).
Proof.
  intros Hmk. induction hi as [|hi IH]; intros lo ms s' out Hlen Hall Hk.
  - destruct ms; [|simpl in Hlen; lia]. simpl. eauto.
  - simpl. destruct (mk _ _) as [rest|] eqn:E; [eauto|].
    destruct ms as [|m ms].
    + simpl in *. rewrite bool_decide_eq_true_2 by lia. eauto.
    + exfalso. simpl in Hlen, E. inversion Hall as [|? ? Hm Hms]; subst.
      destruct (IH (pred lo) ms s' out) as [out' Hout]; [lia|auto..].
      rewrite <- app_assoc in E.
      destruct (Hmk m _ _ out' Hm Hout) as [x Hx]. congruence.
Qed.

Lemma match_k_complete r :
  wf r ->
  forall m s' k out,
    denote r m -> k s' = Some out -> is_Some (match_k r (m ++ s') k).
Proof.
  induction r as [|c0|r1 IH1 r2 IH2|r0 IH lo hi]; simpl;
    intros Hwf m s' k out Hm Hk.
  - destruct Hm as (c & -> & Hd). simpl. rewrite Hd. eauto.
  - subst m. simpl. rewrite bool_decide_eq_true_2 by reflexivity. eauto.
  - destruct Hwf as [Hwf1 Hwf2]. destruct Hm as (m1 & m2 & -> & Hm1 & Hm2).
    rewrite <- app_assoc.
    destruct (IH2 Hwf2 m2 s' k out Hm2 Hk) as [out2 H2].
    exact (IH1 Hwf1 m1 (m2 ++ s') _ out2 Hm1 H2).
  - destruct Hwf as [Hlo Hwf]. destruct Hm as (ms & -> & Hlen & Hall).
    apply (rounds_k_complete _ (denote r0)) with out; auto.
    intros m s0 k' out0. apply IH, Hwf.
Qed.

Lemma match_here_Some r s m :
  wf r -> match_here r s = Some m ->
  denote r m /\ exists post, s = m ++ post.
Proof.
  unfold match_here. intros Hwf.
  destruct (match_k r s Some) as [rest|] eqn:E; [|discriminate].
  apply match_k_sound in E as (m' & s' & -> & Hm & [= ->]); [|assumption].
  intros [= <-]. rewrite length_app, Nat.add_sub, take_app_length.
  eauto.
Qed.

Lemma match_here_None r m post :
  wf r -> match_here r (m ++ post) = None -> ~ denote r m.
Proof.
  unfold match_here. intros Hwf H Hm.
  destruct (match_k_complete r Hwf m post Some post Hm eq_refl) as [x Hx].
  unfold str in *. rewrite Hx in H. discriminate.
Qed.

(** [search] finds a match at the leftmost position that has one. *)
Lemma search_Some r s m :
  wf r -> search r s = Some m ->
  denote r m
  /\ exists pre post,
       s = pre ++ m ++ post
       /\ forall pre' m' post',
            s = pre' ++ m' ++ post' -> denote r m' ->
            length pre <= length pre'.
Proof.
  intros Hwf. induction s as [|c s IH]; simpl.
  - destruct (match_here r []) as [m0|] eqn:E; [|discriminate].
    intros [= ->]. apply match_here_Some in E as [Hm [post E]]; [|assumption].
    split; [exact Hm|]. exists [], post. split; [exact E|].
    intros; simpl; lia.
  - destruct (match_here r (c :: s)) as [m0|] eqn:E.
    + intros [= ->]. apply match_here_Some in E as [Hm [post E]];
        [|assumption].
      split; [exact Hm|]. exists [], post. split; [exact E|].
      intros; simpl; lia.
    + intros H. apply IH in H as [Hm (pre & post & -> & Hfirst)].
      split; [exact Hm|]. exists (c :: pre), post. split; [reflexivity|].
      intros [|c' pre'] m' post' Heq Hm'; simpl in Heq.
      * exfalso. rewrite Heq in E.
        exact (match_here_None r m' post' Hwf E Hm').
      * injection Heq as -> Heq. simpl.
        specialize (Hfirst pre' m' post' Heq Hm'). lia.
Qed.

Lemma search_None r s :
  wf r -> search r s = None ->
  forall pre m post, s = pre ++ m ++ post -> ~ denote r m.
Proof.
  intros Hwf. induction s as [|c s IH]; simpl.
  - destruct (match_here r []) as [m0|] eqn:E; [discriminate|].
    intros _ pre m post Heq. symmetry in Heq.
    apply app_eq_nil in Heq as [-> Heq]. simpl in Heq.
    rewrite <- Heq in E. exact (match_here_None r m post Hwf E).
  - destruct (match_here r (c :: s)) as [m0|] eqn:E; [discriminate|].
    intros H [|c' pre'] m post Heq; simpl in Heq.
    + rewrite Heq in E. exact (match_here_None r m post Hwf E).
    + injection Heq as -> Heq. exact (IH H pre' m post Heq).
Qed.

(** A bounded repeat of [\d] matches the runs of digits of that length. *)
Lemma denote_digits lo hi (m : str) :
  denote (Repeat Digit lo hi) m
  <-> lo <= length m <= hi /\ Forall (fun c => Py.isdecimal c = true) m.
Proof.
  simpl. split.
  - intros (ms & -> & Hlen & Hall).
    assert (H : length (concat ms) = length ms
                /\ Forall (fun c => Py.isdecimal c = true) (concat ms)).
    { clear Hlen. induction Hall as [|m ms (c & -> & Hd) _ [IH1 IH2]]; simpl.
      - split; [reflexivity | constructor].
      - split; [congruence | constructor; assumption]. }
    destruct H as [H1 H2]. rewrite H1. auto.
  - intros [Hlen Hall]. exists ((fun c => [c]) <$> m).
    split; [|split].
    + clear. induction m as [|a m IH]; [reflexivity|].
      csimpl. f_equal. exact IH.
    + rewrite length_fmap. exact Hlen.
    + clear Hlen. induction Hall; csimpl; constructor; eauto.
Qed.

Lemma denote_clock (m : str) :
  denote clock_pattern m <-> OCRReader.is_clock m.
Proof.
  unfold clock_pattern, OCRReader.is_clock.
  change (denote (Seq ?a (Seq ?b ?c)) m)
    with (exists m1 m2, m = m1 ++ m2 /\ denote a m1
            /\ exists m3 m4, m2 = m3 ++ m4 /\ denote b m3 /\ denote c m4).
  split.
  - intros (mins & ? & -> & Hmins & ? & secs & -> & -> & Hsecs).
    apply denote_digits in Hmins as [? ?].
    apply denote_digits in Hsecs as [? ?].
    exists mins, secs. repeat split; auto; lia.
  - intros (mins & secs & -> & Hl1 & Hl2 & H1 & H2).
    exists mins, (":"%str ++ secs). split; [reflexivity|].
    split; [apply denote_digits; auto|].
    exists ":"%str, secs. split; [reflexivity|]. split; [reflexivity|].
    apply denote_digits. split; [lia | assumption].
Qed.

Lemma wf_clock : wf clock_pattern.
Proof. simpl. lia. Qed.

(** Two clock readings that start at the same place are the same. *)
Lemma is_clock_unique (m1 m2 post1 post2 : str) :
  OCRReader.is_clock m1 -> OCRReader.is_clock m2 ->
  m1 ++ post1 = m2 ++ post2 -> m1 = m2.
Proof.
  intros (mins1 & secs1 & -> & Hl1 & Hs1 & Hd1 & _)
         (mins2 & secs2 & -> & Hl2 & Hs2 & Hd2 & _) Heq.
  assert (Hcolon : Py.isdecimal ":" = false) by reflexivity.
  destruct mins1 as [|a1 [|b1 [|? ?]]]; simpl in Hl1; try lia;
  destruct mins2 as [|a2 [|b2 [|? ?]]]; simpl in Hl2; try lia;
  destruct secs1 as [|x1 [|y1 [|? ?]]]; simpl in Hs1; try lia;
  destruct secs2 as [|x2 [|y2 [|? ?]]]; simpl in Hs2; try lia;
  simpl in Heq; injection Heq as ?; subst; try reflexivity.
  - inversion Hd2 as [|? ? _ Hd2']; inversion Hd2' as [|? ? Hc _]; subst.
    congruence.
  - inversion Hd1 as [|? ? _ Hd1']; inversion Hd1' as [|? ? Hc _]; subst.
    congruence.
Qed.

End ReFacts.

(** ** OCRReader: the match signal *)

Section MatchInfoFacts.

Import OCRReader.

(** C4.  For the text [read_match_info] works on (the OCR output,
    stripped): [has_objective] is true exactly when the lowercased text
    contains ["objective"] or ["objectiv"]; and [timer_text] is the first
    substring of the text that is one or two digits, a colon and two
    digits (no such substring starts before it, and one that starts where
    it starts is equal to it), or none when the text has no such
    substring. *)
Theorem read_match_info_signal (raw : str) :
  let text := Py.strip raw in
  let info := read_match_info raw in
  (has_objective info = true
   <-> Py.substring "objective" (Py.lower text)
       \/ Py.substring "objectiv" (Py.lower text))
  /\ match timer_text info with
     | Some m =>
         is_clock m
         /\ exists pre post,
              text = pre ++ m ++ post
              /\ forall pre' m' post',
                   text = pre' ++ m' ++ post' -> is_clock m' ->
                   length pre < length pre' \/ (pre' = pre /\ m' = m)
     | None =>
         forall pre m post, text = pre ++ m ++ post -> ~ is_clock m
     end.
Proof.
  intros text info. split.
  - unfold info, read_match_info; simpl. fold text.
    rewrite orb_true_iff, !contains_spec. reflexivity.
  - unfold info, read_match_info; simpl. fold text.
    destruct (Re.search Re.clock_pattern text) as [m|] eqn:E.
    + apply search_Some in E as [Hm (pre & post & Heq & Hfirst)];
        [|exact wf_clock].
      apply denote_clock in Hm. split; [exact Hm|].
      exists pre, post. split; [exact Heq|].
      intros pre' m' post' Heq' Hm'.
      pose proof (Hfirst pre' m' post' Heq' (proj2 (denote_clock m') Hm'))
        as Hle.
      destruct (decide (length pre = length pre')) as [Hlen|Hlen]; [|lia].
      right. rewrite Heq in Heq'.
      apply app_inj_1 in Heq' as [-> Heq']; [|exact Hlen].
      split; [reflexivity|]. symmetry.
      exact (is_clock_unique _ _ _ _ Hm Hm' Heq').
    + intros pre m post Heq Hm.
      apply (search_None _ _ wf_clock E pre m post Heq).
      apply denote_clock, Hm.
Qed.

Lemma read_match_info_signal_witness :
  let info := read_match_info " OBJECTIV 12:345 " in
  has_objective info = true
  /\ timer_text info = Some "12:34"%str
  /\ is_clock "12:34".
Proof.
  pose proof (read_match_info_signal " OBJECTIV 12:345 ") as [_ H].
  assert (E : timer_text (read_match_info " OBJECTIV 12:345 ")
              = Some "12:34"%str) by (vm_compute; reflexivity).
  rewrite E in H. destruct H as [H _].
  split; [vm_compute; reflexivity|]. split; [exact E | exact H].
Defined.

End MatchInfoFacts.

(** ** The presence payload and the connection *)

Section PresenceFacts.

Import DiscordRPC Main.

Lemma update_rpc_set self name ts outcome :
  rpc_set (DiscordRPC.update self name ts outcome).1 = rpc_set self.
Proof.
  unfold DiscordRPC.update.
  destruct (negb (connected self) || negb (rpc_set self)); [reflexivity|].
  destruct outcome; reflexivity.
Qed.

Lemma connect_rpc_set self outcome :
  rpc_set self = true -> rpc_set (connect self outcome).1 = true.
Proof. destruct outcome; simpl; auto. Qed.

Lemma tick_consistent env st inp :
  consistent st -> consistent (tick env st inp).1.
Proof.
  intros [Htr Hrpc]. unfold tick.
  destruct (weapon_raw inp) as [raw_weapon|]; [|split; assumption].
  destruct (OCRReader.read_weapon_name _ _) as [weapon_name|];
    [|split; assumption].
  destruct (match_raw inp) as [raw_match|]; [|split; assumption].
  destruct (DiscordRPC.update _ _ _ _) as [d sent] eqn:Hup.
  assert (Hd : rpc_set d = true).
  { change d with (d, sent).1. rewrite <- Hup, update_rpc_set. exact Hrpc. }
  destruct (negb (connected d)); simpl.
  - split; [apply update_start_iff, Htr | apply connect_rpc_set, Hd].
  - split; [apply update_start_iff, Htr | exact Hd].
Qed.

Lemma start_consistent cfg rpc : consistent (start cfg rpc).
Proof. split; [apply init_start_iff | reflexivity]. Qed.

Lemma loop_consistent env inputs : forall st,
  consistent st -> consistent (loop env st inputs).1.
Proof.
  induction inputs as [|inp inputs IH]; intros st Hst; simpl; [exact Hst|].
  pose proof (tick_consistent env st inp Hst) as Hst'.
  destruct (tick env st inp) as [st' ev].
  specialize (IH st' Hst').
  destruct (loop env st' inputs) as [st'' evs]. exact IH.
Qed.

(** Without a character and without a start time the payload is the
    menu's. *)
Lemma build_kwargs_menu self :
  build_kwargs self None None = menu_kwargs self.
Proof. reflexivity. Qed.

(** C5.  After any number of ticks of the loop, a tick that ends with the
    tracker out of a match (the tick that leaves the match included)
    leaves no current character, and the payload it publishes, if it
    publishes one, is the menu's: the generic image and text, details
    ["In Game"], state ["In Menu"], no start timestamp; whatever character
    the ticks before had resolved. *)
Theorem menu_payload_out_of_match env cfg rpc inputs inp kw :
  let st := (loop env (Main.start cfg rpc) inputs).1 in
  let after := tick env st inp in
  MatchTracker.in_match (tracker after.1) = false ->
  published after.2 = Some kw ->
  kw = menu_kwargs (discord st)
  /\ large_image kw = Some (small_image (discord st))
  /\ large_text_ kw = Some (large_text (discord st))
  /\ details kw = Some "In Game"%str
  /\ state kw = Some "In Menu"%str
  /\ DiscordRPC.start kw = None
  /\ current_character after.1 = None.
Proof.
  intros st after.
  assert (Hst : consistent st)
    by (apply loop_consistent, start_consistent).
  destruct Hst as [Htr _]. subst after. unfold tick.
  destruct (weapon_raw inp) as [raw_weapon|]; [|discriminate 2].
  destruct (OCRReader.read_weapon_name _ _) as [weapon_name|];
    [|discriminate 2].
  destruct (match_raw inp) as [raw_match|]; [|discriminate 2].
  set (tr := MatchTracker.update _ _ _).
  assert (Htr' : MatchTracker.start_iff_in_match tr)
    by apply update_start_iff, Htr.
  destruct (DiscordRPC.update _ _ _ _) as [d sent] eqn:Hup.
  assert (Hin : MatchTracker.in_match tr = false ->
                sent = Some kw -> kw = menu_kwargs (discord st)).
  { intros Hm Hsent. rewrite Hm in Hup. simpl in Hup.
    assert (Hnone : MatchTracker.start_timestamp tr = None).
    { unfold MatchTracker.start_timestamp.
      destruct (MatchTracker.match_start_time tr) eqn:E; [|reflexivity].
      rewrite (proj2 Htr') in Hm by eauto. discriminate. }
    rewrite Hnone in Hup. unfold DiscordRPC.update in Hup.
    destruct (negb (connected (discord st)) || negb (rpc_set (discord st))).
    - injection Hup as _ <-. discriminate.
    - rewrite build_kwargs_menu in Hup.
      destruct (publish inp); injection Hup as _ <-; congruence. }
  destruct (negb (connected d)); simpl; intros Hm Hsent;
    specialize (Hin Hm Hsent); subst kw; rewrite Hm; repeat split.
Qed.

Lemma menu_payload_out_of_match_witness :
  let st := (loop sample_env sample_start match_then_two_misses).1 in
  let after := tick sample_env st third_miss in
  current_character st = Some "Kokona"%str
  /\ published after.2 = Some (menu_kwargs (discord st))
  /\ current_character after.1 = None.
Proof.
  assert (Hm : MatchTracker.in_match
                 (tracker
                    (tick sample_env
                       (loop sample_env sample_start match_then_two_misses).1
                       third_miss).1) = false)
    by (vm_compute; reflexivity).
  assert (Hp : published
                 (tick sample_env
                    (loop sample_env sample_start match_then_two_misses).1
                    third_miss).2
               = Some (menu_kwargs
                         (discord (loop sample_env sample_start
                                     match_then_two_misses).1)))
    by (vm_compute; reflexivity).
  pose proof (menu_payload_out_of_match sample_env
                MatchTracker.no_match_section sample_rpc
                match_then_two_misses third_miss _ Hm Hp) as H.
  split; [vm_compute; reflexivity|]. split; [exact Hp|]. apply H.
Defined.

(** *** Publish failures *)

Lemma tick_reaches_update env st inp :
  reaches_update env inp ->
  exists name ts,
    let up := DiscordRPC.update (discord st) name ts (publish inp) in
    published (tick env st inp).2 = up.2
    /\ connect_calls (tick env st inp).2
       = (if connected up.1 then 0 else 1)
    /\ discord (tick env st inp).1
       = (if connected up.1 then up.1
          else (connect up.1 (reconnect inp)).1).
Proof.
  intros (raw_weapon & weapon_name & raw_match & Hw & Hn & Hm).
  unfold tick. rewrite Hw, Hn, Hm.
  set (tr := MatchTracker.update _ _ _).
  exists (if negb (MatchTracker.in_match tr) then None
          else resolve_character env (current_character st) weapon_name),
         (MatchTracker.start_timestamp tr).
  cbv zeta.
  destruct (DiscordRPC.update _ _ _ _) as [d sent]. simpl.
  destruct (connected d); simpl; repeat split; reflexivity.
Qed.

(** C7, as the code has it.  [update] marks the connection unusable
    exactly when it made a publish call and that call failed with an
    invalid session; on an unusable connection it is a no-op; after any
    other outcome of the publish call it returns with the connection as it
    was, so the next tick publishes again.  In the loop, a tick that gets
    as far as the presence update calls [connect] once when the update
    leaves the connection unusable and not at all otherwise: the first
    reconnection is attempted on the tick of the failure itself, and one
    more on every tick that starts unusable, until one succeeds. *)
Theorem publish_failure_recovery :
  (forall self name ts outcome,
     let up := DiscordRPC.update self name ts outcome in
     (connected self = true /\ connected up.1 = false
      <-> is_Some up.2 /\ outcome = InvalidID))
  /\ (forall self name ts outcome,
        connected self = false ->
        DiscordRPC.update self name ts outcome = (self, None))
  /\ (forall self name ts outcome,
        outcome <> InvalidID ->
        (DiscordRPC.update self name ts outcome).1 = self)
  /\ (forall env st inp,
        reaches_update env inp ->
        rpc_set (discord st) = true ->
        connected (discord st) = true ->
        let after := tick env st inp in
        is_Some (published after.2)
        /\ (publish inp = InvalidID ->
            connect_calls after.2 = 1
            /\ (connected (discord after.1) = true
                <-> reconnect inp = Connected))
        /\ (publish inp <> InvalidID ->
            connect_calls after.2 = 0
            /\ discord after.1 = discord st))
  /\ (forall env st inp,
        reaches_update env inp ->
        connected (discord st) = false ->
        let after := tick env st inp in
        published after.2 = None
        /\ connect_calls after.2 = 1
        /\ (connected (discord after.1) = true
            <-> reconnect inp = Connected)).
Proof.
  split; [|split; [|split; [|split]]].
  - intros self name ts outcome. unfold DiscordRPC.update.
    destruct (connected self) eqn:Hc, (rpc_set self) eqn:Hr, outcome; simpl;
      rewrite ?Hc; (split; [intros [H1 H2] | intros [[x H1] H2]]);
      try discriminate; split; eauto.
  - intros self name ts outcome H. unfold DiscordRPC.update.
    rewrite H. reflexivity.
  - intros self name ts outcome H. unfold DiscordRPC.update.
    destruct (negb (connected self) || negb (rpc_set self)); [reflexivity|].
    destruct outcome; try reflexivity. congruence.
  - intros env st inp Hreach Hrpc Hconn after.
    destruct (tick_reaches_update env st inp Hreach)
      as (name & ts & Hpub & Hcalls & Hdisc).
    cbv zeta in *. subst after.
    rewrite Hpub, Hcalls, Hdisc. clear Hpub Hcalls Hdisc.
    unfold DiscordRPC.update. rewrite Hconn, Hrpc. simpl.
    destruct (publish inp); simpl; rewrite ?Hconn.
    + split; [eauto|]. split; [congruence | auto].
    + split; [eauto|]. split; [|congruence]. intros _.
      split; [reflexivity|].
      destruct (reconnect inp); simpl; split; congruence.
    + split; [eauto|]. split; [congruence | auto].
  - intros env st inp Hreach Hconn after.
    destruct (tick_reaches_update env st inp Hreach)
      as (name & ts & Hpub & Hcalls & Hdisc).
    cbv zeta in *. subst after.
    rewrite Hpub, Hcalls, Hdisc. clear Hpub Hcalls Hdisc.
    unfold DiscordRPC.update. rewrite Hconn. simpl. rewrite Hconn.
    split; [reflexivity|]. split; [reflexivity|].
    destruct (reconnect inp); simpl; split; congruence.
Qed.

Lemma publish_failure_recovery_witness :
  let after := tick sample_env sample_start invalid_session in
  reaches_update sample_env invalid_session
  /\ rpc_set (discord sample_start) = true
  /\ connected (discord sample_start) = true
  /\ is_Some (published after.2)
  /\ (publish invalid_session = InvalidID ->
      connect_calls after.2 = 1
      /\ (connected (discord after.1) = true
          <-> reconnect invalid_session = Connected)).
Proof.
  assert (Hreach : reaches_update sample_env invalid_session).
  { exists "Vector"%str, (Some "Vector"%str), "Objective 1:23"%str.
    split; [reflexivity|]. split; [vm_compute; reflexivity | reflexivity]. }
  split; [exact Hreach|]. split; [reflexivity|]. split; [reflexivity|].
  destruct (proj1 (proj2 (proj2 (proj2 publish_failure_recovery)))
              sample_env sample_start invalid_session Hreach
              eq_refl eq_refl) as (H1 & H2 & _).
  split; [exact H1 | exact H2].
Defined.

(** C7, as it is stated, fails: the reconnection is not left to a later
    tick.  On the tick whose publish call fails with an invalid session the
    loop calls [connect] at once; when that call succeeds the connection
    is usable again at the end of the same tick, no later [update] is a
    no-op and no later tick reconnects. *)
Lemma reconnect_on_the_failing_tick :
  let failing := tick sample_env sample_start invalid_session in
  let next := tick sample_env failing.1 third_miss in
  connected (discord sample_start) = true
  /\ is_Some (published failing.2)
  /\ connect_calls failing.2 = 1
  /\ connected (discord failing.1) = true
  /\ is_Some (published next.2)
  /\ connect_calls next.2 = 0
  /\ ~ (forall env st inp,
          reaches_update env inp ->
          rpc_set (discord st) = true ->
          connected (discord st) = true ->
          publish inp = InvalidID ->
          connect_calls (tick env st inp).2 = 0
          /\ connected (discord (tick env st inp).1) = false).
Proof.
  assert (Hcalls : connect_calls
                     (tick sample_env sample_start invalid_session).2 = 1)
    by (vm_compute; reflexivity).
  split; [reflexivity|].
  split; [vm_compute; eauto|].
  split; [exact Hcalls|].
  split; [vm_compute; reflexivity|].
  split; [vm_compute; eauto|].
  split; [vm_compute; reflexivity|].
  intros H.
  destruct (H sample_env sample_start invalid_session) as [H0 _].
  - exists "Vector"%str, (Some "Vector"%str), "Objective 1:23"%str.
    split; [reflexivity|]. split; [vm_compute; reflexivity | reflexivity].
  - reflexivity.
  - reflexivity.
  - reflexivity.
  - rewrite Hcalls in H0. discriminate.
Qed.

End PresenceFacts.

(** ** difflib: the matching blocks are common runs *)

Section LongestMatchFacts.

Import Difflib.

Lemma run_nil a b i j : run a b i j 0.
Proof. intros d Hd. lia. Qed.

Lemma run_extend_right a b i j k c :
  run a b i j k -> a !! (i + k) = Some c -> b !! (j + k) = Some c ->
  run a b i j (S k).
Proof.
  intros Hrun Ha Hb d Hd.
  destruct (decide (d = k)) as [->|Hne]; [eauto|].
  apply Hrun. lia.
Qed.

Lemma run_extend_left a b i j k c :
  run a b (S i) (S j) k -> a !! i = Some c -> b !! j = Some c ->
  run a b i j (S k).
Proof.
  intros Hrun Ha Hb [|d] Hd.
  - rewrite !Nat.add_0_r. eauto.
  - rewrite <- !Nat.add_succ_comm. apply Hrun. lia.
Qed.

Lemma run_one a b i j c :
  a !! i = Some c -> b !! j = Some c -> run a b i j 1.
Proof.
  intros Ha Hb. apply (run_extend_right _ _ _ _ 0 c); [apply run_nil|..];
    rewrite Nat.add_0_r; assumption.
Qed.

Lemma run_at a b i j k i' j' k' :
  run a b i j k -> i = i' -> j = j' -> k = k' -> run a b i' j' k'.
Proof. intros H -> -> ->. exact H. Qed.

Lemma index_from_sound (full : str) : forall b i b2j,
  (forall d c, b !! d = Some c -> full !! (i + d) = Some c) ->
  b2j_sound full b2j ->
  b2j_sound full (index_from i b b2j).
Proof.
  induction b as [|elt b IH]; intros i b2j Hb Hs; simpl; [exact Hs|].
  apply IH.
  - intros d c Hd. rewrite Nat.add_succ_comm. apply (Hb (S d)). exact Hd.
  - intros c js j Hjs Hj.
    destruct (decide (elt = c)) as [->|Hne].
    + rewrite lookup_insert_eq in Hjs. injection Hjs as <-.
      apply elem_of_app in Hj as [Hj|Hj].
      * destruct (b2j !! c) as [js0|] eqn:E; simpl in Hj.
        -- exact (Hs c js0 j E Hj).
        -- inversion Hj.
      * apply list_elem_of_singleton in Hj as ->.
        rewrite <- (Nat.add_0_r i). apply (Hb 0). reflexivity.
    + rewrite lookup_insert_ne in Hjs by exact Hne. exact (Hs c js j Hjs Hj).
Qed.

Lemma chain_b_sound (b : str) : b2j_sound b (chain_b b).
Proof.
  assert (H : b2j_sound b (index_from 0 b ∅)).
  { apply index_from_sound.
    - intros d c Hd. exact Hd.
    - intros c js j Hjs. rewrite lookup_empty in Hjs. discriminate. }
  unfold chain_b. case_bool_decide; [|exact H].
  intros c js j Hjs Hj. apply map_lookup_filter_Some in Hjs as [Hjs _].
  exact (H c js j Hjs Hj).
Qed.

(** The rounds [find_longest_match] gives the second loop are enough:
    more rounds give the same block. *)
Lemma extend_right_rounds a b ahi bhi besti bestj : forall r1 r2 bestsize,
  ahi - (besti + bestsize) <= r1 -> ahi - (besti + bestsize) <= r2 ->
  extend_right r1 a b ahi bhi besti bestj bestsize
  = extend_right r2 a b ahi bhi besti bestj bestsize.
Proof.
  induction r1 as [|r1 IH]; intros r2 bestsize H1 H2.
  - destruct r2 as [|r2]; [reflexivity|]. simpl.
    rewrite (bool_decide_eq_false_2 (besti + bestsize < ahi)) by lia.
    reflexivity.
  - destruct r2 as [|r2]; simpl.
    + rewrite (bool_decide_eq_false_2 (besti + bestsize < ahi)) by lia.
      reflexivity.
    + destruct (_ && _); [|reflexivity]. apply IH; lia.
Qed.

Section Ranges.

Variables (a b : str) (alo ahi blo bhi : nat).
Hypothesis Hrange : range_ok a b (alo, ahi, blo, bhi).

Let q : range4 := (alo, ahi, blo, bhi).

Lemma scan_row_ok i c j2len :
  a !! i = Some c -> alo <= i < ahi ->
  ends_before a b alo blo bhi i j2len ->
  forall js best newj2len,
    (forall j, j ∈ js -> b !! j = Some c) ->
    valid a b q best ->
    ends_before a b alo blo bhi (S i) newj2len ->
    valid a b q (scan_row i blo bhi j2len js best newj2len).1
    /\ ends_before a b alo blo bhi (S i)
         (scan_row i blo bhi j2len js best newj2len).2.
Proof.
  intros Hai Hi Hprev.
  induction js as [|j js IH]; intros best newj2len Hjs Hbest Hnew; simpl.
  - auto.
  - assert (Hjs' : forall j', j' ∈ js -> b !! j' = Some c)
      by (intros j' Hj'; apply Hjs; right; exact Hj').
    assert (Hbj : b !! j = Some c) by (apply Hjs; left).
    case_bool_decide as Hlo; [apply IH; assumption|].
    case_bool_decide as Hhi; [auto|].
    set (k := j2len_get_pred j2len j + 1).
    assert (Hk : 1 <= k /\ k <= S i /\ k <= j + 1 /\ alo <= S i - k
                 /\ blo <= j + 1 - k /\ run a b (S i - k) (j + 1 - k) k).
    { subst k. unfold j2len_get_pred. destruct j as [|j'].
      - repeat split; try lia.
        apply (run_at a b i 0 1); [|lia..]. exact (run_one _ _ _ _ c Hai Hbj).
      - destruct (j2len !! j') as [k'|] eqn:E;
          [change (default 0 (Some k')) with k'
          |change (default 0 (@None nat)) with 0].
        + destruct (Hprev j' k' E) as (H1 & H2 & H3 & H4 & H5 & H6 & H7).
          repeat split; try lia.
          apply (run_at a b (i - k') (j' + 1 - k') (S k')); [|lia..].
          apply (run_extend_right _ _ _ _ _ c); [exact H7|..].
          * replace (i - k' + k') with i by lia. exact Hai.
          * replace (j' + 1 - k' + k') with (S j') by lia. exact Hbj.
        + repeat split; try lia.
          apply (run_at a b i (S j') 1); [|lia..].
          exact (run_one _ _ _ _ c Hai Hbj). }
    destruct Hk as (Hk1 & Hk2 & Hk3 & Hk4 & Hk5 & Hk6).
    apply IH; [exact Hjs'| |].
    + case_bool_decide; [|exact Hbest].
      split; simpl; [lia|].
      apply (run_at a b (S i - k) (j + 1 - k) k); [exact Hk6|lia..].
    + intros j0 k0 Hl.
      destruct (decide (j = j0)) as [<-|Hne].
      * rewrite lookup_insert_eq in Hl. injection Hl as <-.
        repeat split; try lia. exact Hk6.
      * rewrite lookup_insert_ne in Hl by exact Hne. exact (Hnew j0 k0 Hl).
Qed.

Lemma ends_before_empty i : ends_before a b alo blo bhi i ∅.
Proof. intros j k H. rewrite lookup_empty in H. discriminate. Qed.

Lemma longest_step_ok b2j i st :
  b2j_sound b b2j -> alo <= i < ahi ->
  valid a b q st.1 -> ends_before a b alo blo bhi i st.2 ->
  valid a b q (longest_step a b2j blo bhi st i).1
  /\ ends_before a b alo blo bhi (S i) (longest_step a b2j blo bhi st i).2.
Proof.
  intros Hs Hi Hbest Hprev. unfold longest_step.
  destruct (a !! i) as [c|] eqn:Hai.
  - apply (scan_row_ok i c); auto using ends_before_empty.
    intros j Hj. destruct (b2j !! c) as [js|] eqn:E; simpl in Hj.
    + exact (Hs c js j E Hj).
    + inversion Hj.
  - simpl. auto using ends_before_empty.
Qed.

Lemma longest_fold_ok b2j :
  b2j_sound b b2j ->
  forall n i st,
    alo <= i -> i + n <= ahi ->
    valid a b q st.1 -> ends_before a b alo blo bhi i st.2 ->
    valid a b q (foldl (longest_step a b2j blo bhi) st (seq i n)).1.
Proof.
  intros Hs. induction n as [|n IH]; intros i st Hlo Hhi Hbest Hprev; simpl.
  - exact Hbest.
  - destruct (longest_step_ok b2j i st Hs) as [H1 H2]; [lia|auto..].
    apply IH; [lia | lia | exact H1 | exact H2].
Qed.

Lemma extend_left_ok : forall besti bestj bestsize,
  valid a b q {| m_a := besti; m_b := bestj; m_size := bestsize |} ->
  valid a b q (extend_left a b alo blo besti bestj bestsize).
Proof.
  induction besti as [|i' IH]; intros bestj bestsize Hv; simpl; [exact Hv|].
  destruct bestj as [|j']; [exact Hv|].
  destruct (bool_decide (alo < S i') && bool_decide (blo < S j')
            && bool_decide (a !! i' = b !! j')) eqn:E; [|exact Hv].
  apply andb_true_iff in E as [E E3]. apply andb_true_iff in E as [E1 E2].
  apply bool_decide_eq_true in E1, E2, E3.
  destruct Hv as [Hin Hrun]. simpl in Hin, Hrun.
  destruct Hrange as [Ha Hb].
  assert (His : is_Some (a !! i')) by (apply lookup_lt_is_Some; lia).
  destruct His as [c Hc].
  apply IH. split; simpl; [lia|].
  apply (run_extend_left _ _ _ _ _ c); [exact Hrun | exact Hc | congruence].
Qed.

Lemma extend_right_ok : forall rounds besti bestj bestsize,
  valid a b q {| m_a := besti; m_b := bestj; m_size := bestsize |} ->
  valid a b q (extend_right rounds a b ahi bhi besti bestj bestsize).
Proof.
  induction rounds as [|n IH]; intros besti bestj bestsize Hv; simpl;
    [exact Hv|].
  destruct (bool_decide (besti + bestsize < ahi)
            && bool_decide (bestj + bestsize < bhi)
            && bool_decide (a !! (besti + bestsize) = b !! (bestj + bestsize)))
    eqn:E; [|exact Hv].
  apply andb_true_iff in E as [E E3]. apply andb_true_iff in E as [E1 E2].
  apply bool_decide_eq_true in E1, E2, E3.
  destruct Hv as [Hin Hrun]. simpl in Hin, Hrun.
  destruct Hrange as [Ha Hb].
  assert (His : is_Some (a !! (besti + bestsize)))
    by (apply lookup_lt_is_Some; lia).
  destruct His as [c Hc].
  apply IH. split; simpl; [lia|].
  apply (run_extend_right _ _ _ _ _ c); [exact Hrun | exact Hc | congruence].
Qed.

(** The block [find_longest_match] returns is a common run of [a] and [b]
    inside the ranges it was asked about. *)
Lemma find_longest_match_valid b2j :
  b2j_sound b b2j ->
  valid a b q (find_longest_match a b b2j alo ahi blo bhi).
Proof.
  intros Hs. unfold find_longest_match.
  set (best := (foldl _ _ _).1).
  assert (Hbest : valid a b q best).
  { destruct Hrange as [Ha Hb]. apply longest_fold_ok; auto; try lia.
    - split; simpl; [lia | apply run_nil].
    - apply ends_before_empty. }
  apply extend_right_ok. 
  set (best' := extend_left _ _ _ _ _ _ _).
  assert (Hbest' : valid a b q best')
    by (apply extend_left_ok; destruct best; exact Hbest).
  destruct best'; exact Hbest'.
Qed.

End Ranges.

End LongestMatchFacts.

(** ** difflib: the blocks count no more than the strings share *)

Section BlocksFacts.

Import Difflib.

Lemma slice_split (l : str) lo mid hi :
  lo <= mid <= hi -> slice l lo hi = slice l lo mid ++ slice l mid hi.
Proof.
  intros H. unfold slice.
  replace (hi - lo) with ((mid - lo) + (hi - mid)) by lia.
  rewrite <- take_take_drop, drop_drop.
  replace (lo + (mid - lo)) with mid by lia. reflexivity.
Qed.

Lemma slice_full (l : str) : slice l 0 (length l) = l.
Proof. unfold slice. rewrite drop_0, Nat.sub_0_r. apply take_ge. lia. Qed.

Lemma length_slice (l : str) lo hi :
  lo <= hi <= length l -> length (slice l lo hi) = hi - lo.
Proof. intros H. unfold slice. rewrite length_take, length_drop. lia. Qed.

Lemma run_slice a b i j k :
  run a b i j k -> slice a i (i + k) = slice b j (j + k).
Proof.
  intros Hrun. unfold slice. apply list_eq. intros d.
  replace (i + k - i) with k by lia. replace (j + k - j) with k by lia.
  destruct (decide (d < k)) as [Hd|Hd].
  - rewrite !lookup_take_lt, !lookup_drop by exact Hd.
    destruct (Hrun d Hd) as (c & Hc & Hc'). unfold str in *.
    rewrite Hc, Hc'. reflexivity.
  - rewrite !lookup_take_ge by lia. reflexivity.
Qed.

Lemma common_app (x1 x2 y1 y2 : str) :
  common x1 y1 + common x2 y2 <= common (x1 ++ x2) (y1 ++ y2).
Proof.
  unfold common. rewrite !list_to_set_disj_app, <- gmultiset_size_disj_union.
  apply gmultiset_subseteq_size. multiset_solver.
Qed.

Lemma size_list_to_set_disj (x : str) :
  size (list_to_set_disj x : gmultiset ascii) = length x.
Proof.
  induction x as [|c x IH].
  - apply gmultiset_size_empty.
  - rewrite list_to_set_disj_cons, gmultiset_size_disj_union,
      gmultiset_size_singleton, IH.
    reflexivity.
Qed.

Lemma common_self (x : str) : common x x = length x.
Proof.
  unfold common. rewrite <- (size_list_to_set_disj x). f_equal.
  multiset_solver.
Qed.

Lemma common_le_l (x y : str) : common x y <= length x.
Proof.
  unfold common. rewrite <- (size_list_to_set_disj x).
  apply gmultiset_subseteq_size. multiset_solver.
Qed.

Lemma common_le_r (x y : str) : common x y <= length y.
Proof.
  unfold common. rewrite <- (size_list_to_set_disj y).
  apply gmultiset_subseteq_size. multiset_solver.
Qed.

(** A block and what lies on its two sides share no more than the range
    it was found in. *)
Lemma cap_split a b alo ahi blo bhi x :
  range_ok a b (alo, ahi, blo, bhi) ->
  valid a b (alo, ahi, blo, bhi) x ->
  m_size x + cap a b (alo, m_a x, blo, m_b x)
  + cap a b (m_a x + m_size x, ahi, m_b x + m_size x, bhi)
  <= cap a b (alo, ahi, blo, bhi).
Proof.
  intros [Ha Hb] [(H1 & H2 & H3 & H4) Hrun]. unfold cap.
  rewrite (slice_split a alo (m_a x) ahi) by lia.
  rewrite (slice_split a (m_a x) (m_a x + m_size x) ahi) by lia.
  rewrite (slice_split b blo (m_b x) bhi) by lia.
  rewrite (slice_split b (m_b x) (m_b x + m_size x) bhi) by lia.
  rewrite <- (run_slice a b _ _ _ Hrun).
  etransitivity; [|apply common_app].
  etransitivity;
    [|apply Nat.add_le_mono_l, common_app].
  rewrite common_self, length_slice by lia. lia.
Qed.

Section Loop.

Variables (a b : str) (b2j : gmap ascii (list nat)).
Hypothesis Hb2j : b2j_sound b b2j.

Lemma blocks_loop_bound : forall rounds queue blocks res,
  Forall (range_ok a b) queue ->
  blocks_loop rounds a b b2j queue blocks = Some res ->
  sum_list_with m_size res
  <= sum_list_with m_size blocks + sum_list_with (cap a b) queue.
Proof.
  induction rounds as [|rounds IH]; intros queue blocks res Hq;
    destruct queue as [|[[[alo ahi] blo] bhi] queue]; simpl;
    try (intros [= <-]; lia); try discriminate.
  inversion Hq as [|? ? Hr Hq']; subst.
  pose proof (find_longest_match_valid a b alo ahi blo bhi Hr b2j Hb2j) as Hv.
  pose proof (cap_split a b alo ahi blo bhi _ Hr Hv) as Hcap.
  unfold cap in Hcap.
  set (x := find_longest_match a b b2j alo ahi blo bhi) in *.
  destruct Hv as [(H1 & H2 & H3 & H4) Hrun]. destruct Hr as [Ha Hb].
  case_bool_decide as Hk.
  - intros H. apply IH in H; [|exact Hq']. lia.
  - intros H. apply IH in H.
    + rewrite sum_list_with_app in H. simpl in H.
      destruct (bool_decide (alo < m_a x) && bool_decide (blo < m_b x));
      destruct (bool_decide (m_a x + m_size x < ahi)
                && bool_decide (m_b x + m_size x < bhi));
      simpl in H; lia.
    + destruct (bool_decide (alo < m_a x) && bool_decide (blo < m_b x));
      destruct (bool_decide (m_a x + m_size x < ahi)
                && bool_decide (m_b x + m_size x < bhi));
      repeat constructor; auto; simpl; lia.
Qed.

(** The loop ends within the rounds the queued ranges weigh. *)
Lemma blocks_loop_terminates : forall rounds queue blocks,
  Forall (range_ok a b) queue ->
  sum_list_with weight queue <= rounds ->
  is_Some (blocks_loop rounds a b b2j queue blocks).
Proof.
  induction rounds as [|rounds IH]; intros queue blocks Hq Hw;
    destruct queue as [|[[[alo ahi] blo] bhi] queue]; simpl; eauto.
  - simpl in Hw. lia.
  - inversion Hq as [|? ? Hr Hq']; subst.
    pose proof (find_longest_match_valid a b alo ahi blo bhi Hr b2j Hb2j)
      as Hv.
    set (x := find_longest_match a b b2j alo ahi blo bhi) in *.
    destruct Hv as [(H1 & H2 & H3 & H4) Hrun]. destruct Hr as [Ha Hb].
    simpl in Hw.
    case_bool_decide as Hk.
    + apply IH; [exact Hq' | lia].
    + apply IH.
      * destruct (bool_decide (alo < m_a x) && bool_decide (blo < m_b x));
        destruct (bool_decide (m_a x + m_size x < ahi)
                  && bool_decide (m_b x + m_size x < bhi));
        repeat constructor; auto; simpl; lia.
      * destruct (bool_decide (alo < m_a x) && bool_decide (blo < m_b x));
        destruct (bool_decide (m_a x + m_size x < ahi)
                  && bool_decide (m_b x + m_size x < bhi));
        simpl; lia.
Qed.

End Loop.

Lemma collapse_sum : forall blocks cur non_adjacent,
  sum_list_with m_size (collapse cur blocks non_adjacent)
  = sum_list_with m_size non_adjacent + m_size cur
    + sum_list_with m_size blocks.
Proof.
  induction blocks as [|x blocks IH]; intros cur non_adjacent; simpl.
  - case_bool_decide as Hk; rewrite ?sum_list_with_app; simpl; lia.
  - destruct (_ && _); rewrite IH; simpl; [lia|].
    case_bool_decide as Hk; rewrite ?sum_list_with_app; simpl; lia.
Qed.

(** [get_matching_blocks] runs its loop to the end. *)
Lemma get_matching_blocks_loop (a b : str) :
  is_Some (blocks_loop (2 * length a + 1) a b (chain_b b)
             [(0, length a, 0, length b)] []).
Proof.
  apply blocks_loop_terminates.
  - apply chain_b_sound.
  - repeat constructor; lia.
  - simpl. lia.
Qed.

(** The matches [ratio] counts are at most what the two strings share. *)
Lemma matches_le_common (a b : str) :
  sum_list_with m_size (get_matching_blocks a b) <= common a b.
Proof.
  unfold get_matching_blocks.
  destruct (get_matching_blocks_loop a b) as [found Hfound].
  rewrite Hfound. simpl.
  rewrite sum_list_with_app, collapse_sum. simpl.
  rewrite (merge_sort_Permutation match_le found).
  apply blocks_loop_bound in Hfound;
    [|apply chain_b_sound|repeat constructor; lia].
  simpl in Hfound. rewrite !slice_full in Hfound. lia.
Qed.

End BlocksFacts.

(** ** difflib: the three ratios *)

Section RatioFacts.

Import Difflib.

Lemma fullbcount_from (b : str) : forall (m : gmap ascii Z) c,
  default 0%Z
    (foldl (fun m elt => <[elt := (default 0 (m !! elt) + 1)%Z]> m) m b !! c)
  = (default 0 (m !! c)
     + Z.of_nat (multiplicity c (list_to_set_disj b : gmultiset ascii)))%Z.
Proof.
  induction b as [|elt b IH]; intros m c.
  - simpl. rewrite multiplicity_empty. lia.
  - cbn [foldl]. rewrite IH, list_to_set_disj_cons, multiplicity_disj_union.
    destruct (decide (elt = c)) as [->|Hne].
    + rewrite lookup_insert_eq, multiplicity_singleton_eq. simpl. lia.
    + rewrite lookup_insert_ne, multiplicity_singleton_ne by congruence. lia.
Qed.

Lemma fullbcount_leaves (b : str) :
  leaves (fullbcount b) ∅ (list_to_set_disj b).
Proof.
  intros c. unfold available, fullbcount.
  rewrite lookup_empty, fullbcount_from, lookup_empty. simpl. lia.
Qed.

Lemma intersection_cons_in (x : ascii) (A R : gmultiset ascii) :
  0 < multiplicity x R ->
  ({[+ x +]} ⊎ A) ∩ R = {[+ x +]} ⊎ (A ∩ (R ∖ {[+ x +]})).
Proof.
  intros Hx. apply gmultiset_eq. intros y.
  rewrite multiplicity_intersection, !multiplicity_disj_union,
    multiplicity_intersection, multiplicity_difference.
  destruct (decide (y = x)) as [->|Hne].
  - rewrite multiplicity_singleton_eq. lia.
  - rewrite multiplicity_singleton_ne by exact Hne. lia.
Qed.

Lemma intersection_cons_out (x : ascii) (A R : gmultiset ascii) :
  multiplicity x R = 0 -> ({[+ x +]} ⊎ A) ∩ R = A ∩ R.
Proof.
  intros Hx. apply gmultiset_eq. intros y.
  rewrite !multiplicity_intersection, multiplicity_disj_union.
  destruct (decide (y = x)) as [->|Hne].
  - rewrite multiplicity_singleton_eq. lia.
  - rewrite multiplicity_singleton_ne by exact Hne. lia.
Qed.

Lemma quick_fold (full : gmap ascii Z) (a : str) :
  forall avail matches rest,
    leaves full avail rest ->
    (foldl (quick_step full) (avail, matches) a).2
    = matches + size (list_to_set_disj a ∩ rest).
Proof.
  induction a as [|elt a IH]; intros avail matches rest Hrest.
  - cbn [foldl snd]. rewrite list_to_set_disj_nil.
    replace (∅ ∩ rest) with (∅ : gmultiset ascii) by multiset_solver.
    rewrite gmultiset_size_empty. lia.
  - cbn [foldl]. unfold quick_step at 2.
    fold (available full avail elt).
    pose proof (Hrest elt) as Helt.
    set (numb := available full avail elt) in *.
    rewrite list_to_set_disj_cons.
    case_bool_decide as Hpos.
    + rewrite (IH _ _ (rest ∖ {[+ elt +]})).
      * rewrite intersection_cons_in by lia.
        rewrite gmultiset_size_disj_union, gmultiset_size_singleton. lia.
      * intros c. unfold available. rewrite multiplicity_difference.
        destruct (decide (elt = c)) as [->|Hne].
        -- rewrite lookup_insert_eq, multiplicity_singleton_eq. lia.
        -- rewrite lookup_insert_ne, multiplicity_singleton_ne by congruence.
           rewrite <- (Hrest c). unfold available. lia.
    + rewrite (IH _ _ rest).
      * rewrite intersection_cons_out by lia. reflexivity.
      * intros c. unfold available.
        destruct (decide (elt = c)) as [->|Hne].
        -- rewrite lookup_insert_eq. lia.
        -- rewrite lookup_insert_ne by congruence. apply (Hrest c).
Qed.

(** [quick_ratio] counts what the two strings share. *)
Lemma quick_matches_common (a b : str) : quick_matches a b = common a b.
Proof.
  unfold quick_matches, common.
  rewrite (quick_fold _ a ∅ 0 (list_to_set_disj b)); [reflexivity|].
  apply fullbcount_leaves.
Qed.

Lemma _calculate_ratio_monotone (m1 m2 length : nat) :
  m1 <= m2 ->
  (_calculate_ratio m1 length <= _calculate_ratio m2 length)%Q.
Proof.
  intros H. unfold _calculate_ratio. destruct length as [|n].
  - apply Qle_refl.
  - apply Qmult_le_compat_r.
    + apply Qmult_le_l; [reflexivity|]. rewrite <- Zle_Qle. lia.
    + apply Qinv_le_0_compat. change 0%Q with (inject_Z 0).
      rewrite <- Zle_Qle. lia.
Qed.

(** The two quick ratios are upper bounds of [ratio], as [difflib]
    documents. *)
Lemma ratio_le_quick_ratio (a b : str) : (ratio a b <= quick_ratio a b)%Q.
Proof.
  unfold ratio, quick_ratio. apply _calculate_ratio_monotone.
  rewrite quick_matches_common. apply matches_le_common.
Qed.

Lemma quick_ratio_le_real_quick_ratio (a b : str) :
  (quick_ratio a b <= real_quick_ratio a b)%Q.
Proof.
  unfold real_quick_ratio, quick_ratio. apply _calculate_ratio_monotone.
  rewrite quick_matches_common.
  pose proof (common_le_l a b). pose proof (common_le_r a b). lia.
Qed.

End RatioFacts.

(** ** OCRReader: resolving the weapon name *)

Section WeaponNameFacts.

Import Difflib OCRReader.

Lemma candidates_spec word possibilities cutoff (p : Q * str) :
  p ∈ candidates word possibilities cutoff
  <-> p.2 ∈ possibilities /\ p.1 = ratio p.2 word
      /\ (cutoff <= ratio p.2 word)%Q.
Proof.
  unfold candidates. rewrite list_elem_of_omap. split.
  - intros (x & Hx & Hf).
    destruct (Qle_bool cutoff (real_quick_ratio x word)
              && Qle_bool cutoff (quick_ratio x word)
              && Qle_bool cutoff (ratio x word)) eqn:E; [|discriminate].
    injection Hf as <-. simpl.
    apply andb_true_iff in E as [_ E]. apply Qle_bool_iff in E. auto.
  - destruct p as [s x]. simpl. intros (Hx & -> & Hc). exists x.
    split; [exact Hx|].
    assert (H2 : (cutoff <= quick_ratio x word)%Q)
      by (eapply Qle_trans; [exact Hc | apply ratio_le_quick_ratio]).
    assert (H1 : (cutoff <= real_quick_ratio x word)%Q)
      by (eapply Qle_trans;
            [exact H2 | apply quick_ratio_le_real_quick_ratio]).
    apply Qle_bool_iff in Hc, H1, H2. rewrite Hc, H1, H2. reflexivity.
Qed.

Lemma scored_gt_true p q : scored_gt p q = true -> (q.1 <= p.1)%Q.
Proof.
  unfold scored_gt. destruct (Qeq_bool p.1 q.1) eqn:E.
  - intros _. apply Qeq_bool_iff in E. rewrite E. apply Qle_refl.
  - intros H. apply negb_true_iff in H.
    destruct (Qlt_le_dec q.1 p.1) as [Hlt|Hle]; [apply Qlt_le_weak, Hlt|].
    apply Qle_bool_iff in Hle. congruence.
Qed.

Lemma scored_gt_false p q : scored_gt p q = false -> (p.1 <= q.1)%Q.
Proof.
  unfold scored_gt. destruct (Qeq_bool p.1 q.1) eqn:E.
  - intros _. apply Qeq_bool_iff in E. rewrite E. apply Qle_refl.
  - intros H. apply negb_false_iff in H. apply Qle_bool_iff, H.
Qed.

Lemma max_fold_spec (rest : list (Q * str)) : forall first,
  let best :=
    foldl (fun best item => if scored_gt item best then item else best)
      first rest in
  best ∈ first :: rest
  /\ forall q, q ∈ first :: rest -> (q.1 <= best.1)%Q.
Proof.
  induction rest as [|item rest IH]; intros first; simpl.
  - split; [left|]. intros q Hq. apply list_elem_of_singleton in Hq as ->.
    apply Qle_refl.
  - destruct (scored_gt item first) eqn:E.
    + destruct (IH item) as [Hin Hmax]. split.
      * right. exact Hin.
      * intros q Hq. apply elem_of_cons in Hq as [->|Hq]; [|auto].
        apply Qle_trans with item.1; [apply scored_gt_true, E|].
        apply Hmax. left.
    + destruct (IH first) as [Hin Hmax]. split.
      * apply elem_of_cons in Hin as [->|Hin]; [left | right; right; exact Hin].
      * intros q Hq. apply elem_of_cons in Hq as [->|Hq]; [apply Hmax; left|].
        apply elem_of_cons in Hq as [->|Hq].
        -- apply Qle_trans with first.1; [apply scored_gt_false, E|].
           apply Hmax. left.
        -- apply Hmax. right. exact Hq.
Qed.

Lemma max_scored_Some items best :
  max_scored items = Some best ->
  best ∈ items /\ forall q, q ∈ items -> (q.1 <= best.1)%Q.
Proof.
  destruct items as [|first rest]; simpl; [discriminate|].
  intros [= <-]. apply max_fold_spec.
Qed.

Lemma max_scored_None items : max_scored items = None -> items = [].
Proof. destruct items; [reflexivity | discriminate]. Qed.

(** With a cutoff in [0, 1], [get_close_matches] with [n = 1] returns one
    possibility of the highest ratio among those that reach the cutoff,
    and nothing when none reaches it. *)
Lemma get_close_matches_spec word possibilities cutoff :
  (0 <= cutoff)%Q -> (cutoff <= 1)%Q ->
  (exists best,
     get_close_matches word possibilities cutoff = Py.Return [best]
     /\ best ∈ possibilities
     /\ (cutoff <= ratio best word)%Q
     /\ forall other, other ∈ possibilities ->
          (ratio other word <= ratio best word)%Q)
  \/ (get_close_matches word possibilities cutoff = Py.Return []
      /\ forall x, x ∈ possibilities -> (ratio x word < cutoff)%Q).
Proof.
  intros H0 H1. unfold get_close_matches.
  apply Qle_bool_iff in H0, H1. rewrite H0, H1. simpl.
  destruct (max_scored _) as [[s best]|] eqn:E.
  - left. exists best. split; [reflexivity|].
    apply max_scored_Some in E as [Hin Hmax].
    apply candidates_spec in Hin as (Hin & Hs & Hc). simpl in *.
    split; [exact Hin|]. split; [exact Hc|].
    intros other Hother.
    destruct (Qlt_le_dec (ratio other word) cutoff) as [Hlt|Hle].
    + apply Qlt_le_weak. eapply Qlt_le_trans; [exact Hlt | exact Hc].
    + rewrite <- Hs. apply (Hmax (ratio other word, other)).
      apply candidates_spec. auto.
  - right. split; [reflexivity|].
    apply max_scored_None in E. intros x Hx.
    destruct (Qlt_le_dec (ratio x word) cutoff) as [Hlt|Hle]; [exact Hlt|].
    assert (Hin : (ratio x word, x) ∈ candidates word possibilities cutoff)
      by (apply candidates_spec; auto).
    rewrite E in Hin. inversion Hin.
Qed.

Lemma exact_match_Some names raw_text name :
  exact_match names raw_text = Some name ->
  Py.lower name = Py.lower raw_text
  /\ exists pre post,
       names = pre ++ name :: post
       /\ forall n, n ∈ pre -> Py.lower n <> Py.lower raw_text.
Proof.
  induction names as [|n names IH]; simpl; [discriminate|].
  case_bool_decide as Hn.
  - intros [= <-]. split; [exact Hn|]. exists [], names.
    split; [reflexivity|]. intros n' Hn'. inversion Hn'.
  - intros H. destruct (IH H) as [Hl (pre & post & -> & Hpre)].
    split; [exact Hl|]. exists (n :: pre), post. split; [reflexivity|].
    intros n' Hn'. apply elem_of_cons in Hn' as [->|Hn']; auto.
Qed.

Lemma exact_match_None names raw_text :
  exact_match names raw_text = None ->
  forall n, n ∈ names -> Py.lower n <> Py.lower raw_text.
Proof.
  induction names as [|n names IH]; simpl; intros H n' Hn'.
  - inversion Hn'.
  - case_bool_decide as Hn; [discriminate|].
    apply elem_of_cons in Hn' as [->|Hn']; auto.
Qed.




(** C10.  The fuzzy step compares the text as it was read, the exact step
    compares lowercased text.  ["VECTOE"] is the vocabulary entry
    ["Vector"] in another case with one letter replaced: lowercased, the
    two have ratio 10/12, above the threshold 0.6, and the lowercased text
    would resolve against the lowercased vocabulary; as read, the ratio is
    2/12 and [read_weapon_name] returns none, while ["VECTOR"] resolves in
    the exact step. *)
Theorem fuzzy_step_is_case_sensitive :
  "Vector"%str ∈ weapon_names sample_reader
  /\ one_substitution (Py.lower "Vector") (Py.lower "VECTOE")
  /\ (confidence sample_reader
      <= ratio (Py.lower "Vector") (Py.lower "VECTOE"))%Q
  /\ (ratio "Vector" "VECTOE" < confidence sample_reader)%Q
  /\ read_weapon_name sample_reader "VECTOE" = Py.Return None
  /\ get_close_matches (Py.lower "VECTOE")
       (Py.lower <$> weapon_names sample_reader) (confidence sample_reader)
     = Py.Return [Py.lower "Vector"]
  /\ read_weapon_name sample_reader "VECTOR" = Py.Return (Some "Vector"%str).
Proof.
  split; [left|].
  split; [exists "vecto"%str, "r"%char, "e"%char, []; repeat split; discriminate|].
  split; [vm_compute; discriminate|].
  split; [vm_compute; reflexivity|].
  repeat split; vm_compute; reflexivity.
Qed.

End WeaponNameFacts.

(** * Further properties of the code *)

(** ** MatchTracker: hysteresis *)

Section HysteresisFacts.

Import OCRReader MatchTracker.

Lemma run_app ticks1 ticks2 self :
  run (ticks1 ++ ticks2) self = run ticks2 (run ticks1 self).
Proof. unfold run. apply foldl_app. Qed.

Lemma run_threshold ticks : forall self,
  _streak_threshold (run ticks self) = _streak_threshold self.
Proof.
  induction ticks as [|tk ticks IH]; intros self; [reflexivity|].
  cbn [run foldl]. fold (run ticks (update tk.1 tk.2 self)).
  rewrite IH. apply update_threshold.
Qed.

(** Misses below the threshold only count up. *)
Lemma run_absent_below ticks : forall self,
  in_match self = true ->
  Forall absent ticks ->
  (_no_objective_streak self + Z.of_nat (length ticks)
   < _streak_threshold self)%Z ->
  in_match (run ticks self) = true
  /\ match_start_time (run ticks self) = match_start_time self
  /\ _no_objective_streak (run ticks self)
     = (_no_objective_streak self + Z.of_nat (length ticks))%Z
  /\ _streak_threshold (run ticks self) = _streak_threshold self.
Proof.
  induction ticks as [|tk ticks IH]; intros self Hm Hall Hlt.
  - unfold run. simpl. repeat split; auto. lia.
  - inversion Hall as [|? ? Htk Hall']; subst. simpl in Hlt.
    cbn [run foldl]. fold (run ticks (update tk.1 tk.2 self)).
    assert (Hup : update tk.1 tk.2 self
                  = set_streak self (_no_objective_streak self + 1)%Z).
    { unfold update. unfold absent in Htk. rewrite Htk, Hm. simpl.
      destruct (Z.leb_spec (_streak_threshold self)
                  (_no_objective_streak self + 1)); [lia | reflexivity]. }
    rewrite Hup.
    destruct (IH (set_streak self (_no_objective_streak self + 1)%Z))
      as (H1 & H2 & H3 & H4); [exact Hm | exact Hall' | simpl; lia |].
    simpl in *. repeat split; auto. lia.
Qed.

(** X1.  Hysteresis.  For a tracker in a match with a streak that is not
    negative, a run of absent ticks that keeps the streak below the
    threshold leaves it in the match with the start time it had and the
    streak grown by the number of ticks, and a present tick after it puts
    the streak back to 0 with the start time still the same; a run that
    takes the streak to the threshold exactly ends the match: no start
    time, streak 0. *)
Theorem absent_run_hysteresis self ticks :
  in_match self = true ->
  (0 <= _no_objective_streak self)%Z ->
  Forall absent ticks ->
  let total :=
    (_no_objective_streak self + Z.of_nat (length ticks))%Z in
  ((total < _streak_threshold self)%Z ->
   in_match (run ticks self) = true
   /\ match_start_time (run ticks self) = match_start_time self
   /\ _no_objective_streak (run ticks self) = total
   /\ forall now info,
        has_objective info = true ->
        in_match (update now info (run ticks self)) = true
        /\ match_start_time (update now info (run ticks self))
           = match_start_time self
        /\ _no_objective_streak (update now info (run ticks self)) = 0%Z)
  /\ (total = _streak_threshold self -> ticks <> [] ->
      in_match (run ticks self) = false
      /\ match_start_time (run ticks self) = None
      /\ _no_objective_streak (run ticks self) = 0%Z).
Proof.
  intros Hm H0 Hall total. split.
  - intros Hlt.
    destruct (run_absent_below ticks self Hm Hall Hlt) as (H1 & H2 & H3 & H4).
    repeat split; auto; unfold update; rewrite H, H1; simpl; auto.
  - intros Heq Hne.
    destruct (exists_last Hne) as (front & tk & ->).
    apply Forall_app in Hall as [Hfront Hlast].
    inversion Hlast as [|? ? Htk _]; subst.
    subst total. rewrite length_app in Heq. simpl in Heq.
    destruct (run_absent_below front self Hm Hfront)
      as (H1 & H2 & H3 & H4); [lia|].
    rewrite run_app. cbn [run foldl]. fold (run front self).
    unfold update. unfold absent in Htk. rewrite Htk, H1. simpl.
    rewrite H3, H4.
    destruct (Z.leb_spec (_streak_threshold self)
                (_no_objective_streak self + Z.of_nat (length front) + 1));
      [repeat split | lia].
Qed.

Lemma absent_run_hysteresis_witness :
  in_match one_miss = true
  /\ (0 <= _no_objective_streak one_miss)%Z
  /\ in_match (run [(106%Q, signal false)] one_miss) = true
  /\ in_match (run [(106%Q, signal false); (109%Q, signal false)] one_miss)
     = false.
Proof.
  assert (Hm : in_match one_miss = true) by reflexivity.
  assert (H0 : (0 <= _no_objective_streak one_miss)%Z) by (simpl; lia).
  split; [exact Hm|]. split; [exact H0|]. split.
  - apply (absent_run_hysteresis one_miss [(106%Q, signal false)] Hm H0).
    + repeat constructor.
    + simpl. lia.
  - apply (absent_run_hysteresis one_miss
             [(106%Q, signal false); (109%Q, signal false)] Hm H0).
    + repeat constructor.
    + reflexivity.
    + discriminate.
Defined.

Lemma absent_suffix_le ticks k k' :
  absent_suffix ticks k -> k' <= k -> absent_suffix ticks k'.
Proof.
  intros [Hk Hall] Hle. split; [lia|].
  replace (length ticks - k') with ((length ticks - k) + (k - k')) by lia.
  rewrite <- drop_drop. apply Forall_drop, Hall.
Qed.

Lemma absent_suffix_snoc ticks tk k :
  absent_suffix ticks k -> absent tk -> absent_suffix (ticks ++ [tk]) (S k).
Proof.
  intros [Hk Hall] Htk. split; [rewrite length_app; simpl; lia|].
  rewrite length_app. simpl.
  replace (length ticks + 1 - S k) with (length ticks - k) by lia.
  rewrite drop_app_le by lia. apply Forall_app. split; [exact Hall|].
  repeat constructor. exact Htk.
Qed.

(** While the tracker is in a match, its streak counts ticks that were
    all absent and are the last ones it saw. *)
Lemma streak_counts_absent cfg ticks :
  let self := run ticks (init cfg) in
  in_match self = true ->
  (0 <= _no_objective_streak self)%Z
  /\ absent_suffix ticks (Z.to_nat (_no_objective_streak self)).
Proof.
  induction ticks as [|tk ticks IH] using rev_ind; [discriminate|].
  rewrite run_app. cbn [run foldl]. fold (run ticks (init cfg)).
  cbv zeta in IH. set (self := run ticks (init cfg)) in *.
  unfold update.
  destruct (has_objective tk.2) eqn:Htk, (in_match self) eqn:Hm; simpl.
  - intros _. split; [lia|]. split; simpl; [lia|].
    rewrite Nat.sub_0_r, drop_all. constructor.
  - intros _. split; [lia|]. split; simpl; [lia|].
    rewrite Nat.sub_0_r, drop_all. constructor.
  - destruct (IH eq_refl) as [H0 Hsuf].
    destruct (Z.leb_spec (_streak_threshold self)
                (_no_objective_streak self + 1)); simpl; [discriminate|].
    intros _. split; [lia|].
    replace (Z.to_nat (_no_objective_streak self + 1))
      with (S (Z.to_nat (_no_objective_streak self))) by lia.
    apply absent_suffix_snoc; assumption.
  - rewrite Hm. discriminate.
Qed.

(** X2.  A match only ends on misses.  If the tracker, started from its
    initial state, is in a match after some ticks and out of it after one
    more, then that tick and the ticks before it, as many as the
    threshold says, were all absent. *)
Theorem match_ends_after_threshold_misses cfg ticks tk :
  in_match (run ticks (init cfg)) = true ->
  in_match (run (ticks ++ [tk]) (init cfg)) = false ->
  absent tk
  /\ absent_suffix (ticks ++ [tk]) (Z.to_nat (_streak_threshold (init cfg))).
Proof.
  intros Hm Hend.
  destruct (streak_counts_absent cfg ticks Hm) as [H0 Hsuf].
  rewrite run_app in Hend. cbn [run foldl] in Hend.
  fold (run ticks (init cfg)) in Hend.
  pose proof (run_threshold ticks (init cfg)) as Hthr.
  set (self := run ticks (init cfg)) in *.
  unfold update in Hend. rewrite Hm in Hend.
  destruct (has_objective tk.2) eqn:Htk; simpl in Hend; [congruence|].
  destruct (Z.leb_spec (_streak_threshold self)
              (_no_objective_streak self + 1)); simpl in Hend;
    [|congruence].
  split; [exact Htk|].
  apply absent_suffix_le with (S (Z.to_nat (_no_objective_streak self))).
  - apply absent_suffix_snoc; assumption.
  - rewrite <- Hthr. lia.
Qed.

Lemma match_ends_after_threshold_misses_witness :
  absent (20%Q, signal false)
  /\ absent_suffix
       ([(5%Q, signal true); (10%Q, signal false); (15%Q, signal false)]
          ++ [(20%Q, signal false)])
       (Z.to_nat (_streak_threshold (init no_match_section))).
Proof.
  apply (match_ends_after_threshold_misses no_match_section
           [(5%Q, signal true); (10%Q, signal false); (15%Q, signal false)]).
  - reflexivity.
  - reflexivity.
Defined.

Lemma trace_no_debounce ticks : forall self,
  (_streak_threshold self <= 1)%Z ->
  _no_objective_streak self = 0%Z ->
  in_match <$> trace ticks self = (fun tk => has_objective tk.2) <$> ticks.
Proof.
  induction ticks as [|tk ticks IH]; intros self HT Hs; [reflexivity|].
  cbn [trace]. rewrite fmap_cons, fmap_cons. f_equal.
  - unfold update.
    destruct (has_objective tk.2), (in_match self) eqn:Hm; simpl;
      rewrite ?Hm; try reflexivity.
    rewrite Hs.
    destruct (Z.leb_spec (_streak_threshold self) (0 + 1)); [reflexivity|lia].
  - apply IH.
    + rewrite update_threshold. exact HT.
    + unfold update.
      destruct (has_objective tk.2), (in_match self) eqn:Hm; simpl; auto.
      rewrite Hs.
      destruct (Z.leb_spec (_streak_threshold self) (0 + 1));
        [reflexivity | lia].
Qed.

(** X3.  A threshold of 1 or less switches the debouncing off: after every
    tick [in_match] is that tick's signal. *)
Theorem threshold_one_follows_signal cfg ticks :
  (_streak_threshold (init cfg) <= 1)%Z ->
  in_match <$> trace ticks (init cfg)
  = (fun tk => has_objective tk.2) <$> ticks.
Proof. intros HT. apply trace_no_debounce; [exact HT | reflexivity]. Qed.

Lemma threshold_one_follows_signal_witness :
  let cfg := {| round_duration_seconds := None; max_rounds := None;
                objective_verification_count := Some 0%Z |} in
  in_match <$> trace in_progress (init cfg)
  = [false; true; true; false; false].
Proof.
  apply (threshold_one_follows_signal
           {| round_duration_seconds := None; max_rounds := None;
              objective_verification_count := Some 0%Z |} in_progress).
  simpl. lia.
Defined.

Lemma run_start_origin ticks : forall self start,
  match_start_time (run ticks self) = Some start ->
  match_start_time self = Some start
  \/ exists info, (start, info) ∈ ticks /\ has_objective info = true.
Proof.
  induction ticks as [|tk ticks IH]; intros self start H; [left; exact H|].
  cbn [run foldl] in H. fold (run ticks (update tk.1 tk.2 self)) in H.
  apply IH in H as [H|(info & Hin & Hinfo)].
  - unfold update in H.
    destruct (has_objective tk.2) eqn:Htk, (in_match self); simpl in H;
      auto.
    + injection H as <-. right. exists tk.2. split; [|exact Htk].
      destruct tk; left.
    + destruct (_ <=? _)%Z; simpl in H; [discriminate | auto].
  - right. exists info. split; [right; exact Hin | exact Hinfo].
Qed.

(** X4.  The start time is never made up: whenever the tracker, started
    from its initial state, holds a start time, that time is the clock
    reading of one of the ticks it saw, and that tick had the objective. *)
Theorem start_time_is_a_reading cfg ticks start :
  match_start_time (run ticks (init cfg)) = Some start ->
  exists info, (start, info) ∈ ticks /\ has_objective info = true.
Proof.
  intros H. apply run_start_origin in H as [H|H]; [discriminate | exact H].
Qed.

Lemma start_time_is_a_reading_witness :
  exists info, (5%Q, info) ∈ in_progress /\ has_objective info = true.
Proof.
  apply (start_time_is_a_reading no_match_section in_progress 5%Q).
  reflexivity.
Defined.

(** X5.  [elapsed_seconds] is the time since the start rounded down: for a
    clock reading that is not before the start time, the value is at most
    the true duration and less than one second short of it. *)
Theorem elapsed_seconds_within_a_second self start now :
  match_start_time self = Some start ->
  (start <= now)%Q ->
  exists e,
    elapsed_seconds now self = Some e
    /\ (inject_Z e <= now - start)%Q
    /\ (now - start < inject_Z e + 1)%Q.
Proof.
  intros Hs Hle. unfold elapsed_seconds. rewrite Hs.
  eexists; split; [reflexivity|].
  assert (H0 : (0 <= now - start)%Q).
  { unfold Qminus. rewrite <- (Qplus_opp_r start).
    apply Qplus_le_compat; [exact Hle | apply Qle_refl]. }
  rewrite int_nonneg by exact H0. split; [apply Qfloor_le|].
  change 1%Q with (inject_Z 1). rewrite <- inject_Z_plus. apply Qlt_floor.
Qed.

Lemma elapsed_seconds_within_a_second_witness :
  exists e,
    elapsed_seconds (2071 # 10) one_miss = Some e
    /\ (inject_Z e <= (2071 # 10) - 100)%Q
    /\ ((2071 # 10) - 100 < inject_Z e + 1)%Q.
Proof.
  apply (elapsed_seconds_within_a_second one_miss 100 (2071 # 10)).
  - reflexivity.
  - unfold Qle; simpl; lia.
Defined.

End HysteresisFacts.

(** ** ScreenCapture: more on the mapping *)

Section RegionFacts.

Import ScreenCapture.



(** X7.  The mapping keeps containment: on a monitor whose dimensions are
    not negative and at most [2 ** 53], of two regions with coordinates in
    [0, 1], one inside the other, both map to a box and the box of the
    inner one lies inside the box of the outer one. *)
Theorem region_bbox_inside mon inner outer :
  (0 <= mon_width mon <= 2 ^ 53)%Z -> (0 <= mon_height mon <= 2 ^ 53)%Z ->
  fractional inner -> fractional outer ->
  inside inner outer ->
  exists bi bo,
    region_bbox mon inner = Py.Return bi
    /\ region_bbox mon outer = Py.Return bo
    /\ (bbox_left bo <= bbox_left bi)%Z /\ (bbox_right bi <= bbox_right bo)%Z
    /\ (bbox_top bo <= bbox_top bi)%Z
    /\ (bbox_bottom bi <= bbox_bottom bo)%Z.
Proof.
  intros Hw Hh [Il It Ir Ib] [Ol Ot Or Ob] [Hl Ht Hr Hb].
  rewrite (region_bbox_returns mon inner _ _ _ _
             (int_of_product_fraction _ _ Il Hw)
             (int_of_product_fraction _ _ It Hh)
             (int_of_product_fraction _ _ Ir Hw)
             (int_of_product_fraction _ _ Ib Hh)).
  rewrite (region_bbox_returns mon outer _ _ _ _
             (int_of_product_fraction _ _ Ol Hw)
             (int_of_product_fraction _ _ Ot Hh)
             (int_of_product_fraction _ _ Or Hw)
             (int_of_product_fraction _ _ Ob Hh)).
  do 2 eexists. split; [reflexivity|]. split; [reflexivity|].
  unfold bbox_right, bbox_bottom; simpl.
  pose proof (scaled_monotone _ _ (mon_width mon) Hl ltac:(lia)).
  pose proof (scaled_monotone _ _ (mon_width mon) Hr ltac:(lia)).
  pose proof (scaled_monotone _ _ (mon_height mon) Ht ltac:(lia)).
  pose proof (scaled_monotone _ _ (mon_height mon) Hb ltac:(lia)).
  lia.
Qed.

Lemma region_bbox_inside_witness :
  exists bi bo,
    region_bbox full_hd corner_region = Py.Return bi
    /\ region_bbox full_hd whole_screen = Py.Return bo
    /\ (bbox_left bo <= bbox_left bi)%Z /\ (bbox_right bi <= bbox_right bo)%Z
    /\ (bbox_top bo <= bbox_top bi)%Z
    /\ (bbox_bottom bi <= bbox_bottom bo)%Z.
Proof.
  apply (region_bbox_inside full_hd corner_region whole_screen).
  - simpl. lia.
  - simpl. lia.
  - split; split; apply Qle_bool_iff; vm_compute; reflexivity.
  - split; split; apply Qle_bool_iff; vm_compute; reflexivity.
  - split; apply Qle_bool_iff; vm_compute; reflexivity.
Defined.

End RegionFacts.

(** ** OCRReader: reading text *)

Section ReadTextFacts.

Import OCRReader.

Lemma lstrip_blank (ws s : str) : Py.blank ws -> Py.lstrip (ws ++ s) = Py.lstrip s.
Proof.
  intros H. induction H as [|c ws Hc _ IH]; [reflexivity|].
  simpl. rewrite Hc. exact IH.
Qed.

Lemma lstrip_nil_blank (s : str) : Py.lstrip s = [] <-> Py.blank s.
Proof.
  induction s as [|c s IH]; simpl.
  - split; [constructor | reflexivity].
  - destruct (Py.isspace c) eqn:Hc.
    + rewrite IH. split; [intros H; constructor; assumption|].
      intros H. inversion H; assumption.
    + split; [discriminate|]. intros H. inversion H; congruence.
Qed.

Lemma lstrip_app (s t : str) :
  Py.lstrip s <> [] -> Py.lstrip (s ++ t) = Py.lstrip s ++ t.
Proof.
  induction s as [|c s IH]; simpl; [congruence|].
  destruct (Py.isspace c); [exact IH | reflexivity].
Qed.

Lemma lstrip_head (s : str) c rest :
  Py.lstrip s = c :: rest -> Py.isspace c = false.
Proof.
  induction s as [|d s IH]; simpl; [discriminate|].
  destruct (Py.isspace d) eqn:Hd; [exact IH|]. intros [= -> _]. exact Hd.
Qed.

Lemma lstrip_fixed (s : str) :
  (forall c rest, s = c :: rest -> Py.isspace c = false) -> Py.lstrip s = s.
Proof.
  destruct s as [|c s]; [reflexivity|]. intros H. simpl.
  rewrite (H c s eq_refl). reflexivity.
Qed.

Lemma rstrip_blank (s ws : str) : Py.blank ws -> Py.rstrip (s ++ ws) = Py.rstrip s.
Proof.
  intros H. unfold Py.rstrip. rewrite reverse_app, lstrip_blank; [reflexivity|].
  unfold Py.blank. rewrite Forall_reverse. exact H.
Qed.

Lemma rstrip_last (s : str) front c :
  Py.rstrip s = front ++ [c] -> Py.isspace c = false.
Proof.
  unfold Py.rstrip. intros H.
  apply (f_equal reverse) in H.
  rewrite reverse_involutive, reverse_app in H. simpl in H.
  exact (lstrip_head _ _ _ H).
Qed.

Lemma rstrip_fixed (s : str) :
  (forall front c, s = front ++ [c] -> Py.isspace c = false) ->
  Py.rstrip s = s.
Proof.
  intros H. unfold Py.rstrip. rewrite lstrip_fixed; [apply reverse_involutive|].
  intros c rest Hrev. apply (H (reverse rest) c).
  rewrite <- (reverse_involutive s), Hrev, reverse_cons. reflexivity.
Qed.

Lemma rstrip_head (s : str) c rest :
  Py.isspace c = false ->
  exists rest', Py.rstrip (c :: rest) = c :: rest'.
Proof.
  intros Hc. unfold Py.rstrip. rewrite reverse_cons.
  destruct (Py.lstrip (reverse rest)) as [|d l] eqn:E.
  - apply lstrip_nil_blank in E. rewrite lstrip_blank by exact E.
    simpl. rewrite Hc. exists []. reflexivity.
  - rewrite lstrip_app by congruence. rewrite E, reverse_app. simpl.
    eexists. reflexivity.
Qed.

Lemma strip_trimmed (s : str) : Py.trimmed (Py.strip s).
Proof.
  unfold Py.strip. split.
  - intros c rest H.
    destruct (Py.lstrip s) as [|d l] eqn:E; [discriminate H|].
    pose proof (lstrip_head _ _ _ E) as Hd.
    destruct (rstrip_head l d l Hd) as [rest' Hr].
    rewrite Hr in H. injection H as <- _. exact Hd.
  - intros front c H. exact (rstrip_last _ _ _ H).
Qed.

Lemma trimmed_strip (s : str) : Py.trimmed s -> Py.strip s = s.
Proof.
  intros [H1 H2]. unfold Py.strip.
  rewrite lstrip_fixed by exact H1. apply rstrip_fixed, H2.
Qed.

(** X8.  [read_text] gives text without whitespace at either end, reading
    its own result again changes nothing, and whitespace around the OCR
    output makes no difference. *)
Theorem read_text_trims (raw : str) :
  Py.trimmed (read_text raw)
  /\ read_text (read_text raw) = read_text raw
  /\ forall before after,
       Py.blank before -> Py.blank after ->
       read_text (before ++ raw ++ after) = read_text raw.
Proof.
  unfold read_text. split; [apply strip_trimmed|].
  split; [apply trimmed_strip, strip_trimmed|].
  intros before after Hb Ha. unfold Py.strip.
  rewrite lstrip_blank by exact Hb.
  destruct (Py.lstrip raw) as [|c l] eqn:E.
  - apply lstrip_nil_blank in E.
    assert (Hall : Py.blank (raw ++ after)) by (apply Forall_app; auto).
    apply lstrip_nil_blank in Hall. rewrite Hall. reflexivity.
  - rewrite lstrip_app by congruence. rewrite E.
    apply rstrip_blank, Ha.
Qed.

Lemma read_text_trims_witness :
  Py.blank "  " /\ Py.blank " "
  /\ read_text ("  "%str ++ "Vector"%str ++ " "%str) = read_text "Vector".
Proof.
  assert (H1 : Py.blank "  ") by (repeat constructor).
  assert (H2 : Py.blank " ") by (repeat constructor).
  split; [exact H1|]. split; [exact H2|].
  exact (proj2 (proj2 (read_text_trims "Vector")) "  "%str " "%str H1 H2).
Defined.

End ReadTextFacts.

(** ** OCRReader: more on the weapon name *)

Section WeaponNameMore.

Import Difflib OCRReader.

(** X9.  [read_weapon_name] never makes a name up: whatever the
    threshold, a name it returns is an entry of the vocabulary. *)
Theorem read_weapon_name_in_vocabulary self raw name :
  read_weapon_name self raw = Py.Return (Some name) ->
  name ∈ weapon_names self.
Proof.
  unfold read_weapon_name.
  destruct (read_text raw) as [|c text]; [discriminate|].
  destruct (exact_match _ _) as [first|] eqn:E.
  - intros [= <-].
    apply exact_match_Some in E as [_ (pre & post & -> & _)].
    apply elem_of_app. right. left.
  - unfold get_close_matches. destruct (negb _); [discriminate|].
    destruct (max_scored _) as [[s best]|] eqn:Emax; [|discriminate].
    intros [= <-]. apply max_scored_Some in Emax as [Hin _].
    apply candidates_spec in Hin as [Hin _]. exact Hin.
Qed.

Lemma read_weapon_name_in_vocabulary_witness :
  "Vector"%str ∈ weapon_names sample_reader.
Proof.
  apply (read_weapon_name_in_vocabulary sample_reader "Vectar").
  vm_compute. reflexivity.
Defined.

(** X10.  [read_weapon_name] raises exactly when the threshold is outside
    [0, 1], the stripped text is not empty and no vocabulary entry equals
    it when both are lowercased; what it raises is [ValueError]. *)
Theorem read_weapon_name_raises self raw e :
  read_weapon_name self raw = Py.Raise e
  <-> e = Py.ValueError
      /\ ~ ((0 <= confidence self)%Q /\ (confidence self <= 1)%Q)
      /\ Py.strip raw <> []
      /\ forall name, name ∈ weapon_names self ->
           Py.lower name <> Py.lower (Py.strip raw).
Proof.
  unfold read_weapon_name, read_text.
  destruct (Py.strip raw) as [|c text] eqn:Htext.
  - split; [discriminate | intros (_ & _ & H & _); congruence].
  - destruct (exact_match _ _) as [first|] eqn:E.
    + split; [discriminate|]. intros (_ & _ & _ & Hnone). exfalso.
      apply exact_match_Some in E as [Hl (pre & post & Hnames & _)].
      apply (Hnone first); [|exact Hl].
      rewrite Hnames. apply elem_of_app. right. left.
    + pose proof (exact_match_None _ _ E) as Hnone.
      unfold get_close_matches.
      destruct (Qle_bool 0 (confidence self)) eqn:E0,
               (Qle_bool (confidence self) 1) eqn:E1; simpl.
      * split.
        -- destruct (max_scored _) as [[s best]|]; discriminate.
        -- intros (_ & Hbad & _). exfalso. apply Hbad.
           split; apply Qle_bool_iff; assumption.
      * split.
        -- intros [= <-]. split; [reflexivity|].
           split; [|split; [discriminate | exact Hnone]].
           intros [_ H]. apply Qle_bool_iff in H. congruence.
        -- intros (-> & _). reflexivity.
      * split.
        -- intros [= <-]. split; [reflexivity|].
           split; [|split; [discriminate | exact Hnone]].
           intros [H _]. apply Qle_bool_iff in H. congruence.
        -- intros (-> & _). reflexivity.
      * split.
        -- intros [= <-]. split; [reflexivity|].
           split; [|split; [discriminate | exact Hnone]].
           intros [H _]. apply Qle_bool_iff in H. congruence.
        -- intros (-> & _). reflexivity.
Qed.

Lemma read_weapon_name_raises_witness :
  read_weapon_name broken_reader "Vectar" = Py.Raise Py.ValueError
  /\ read_weapon_name broken_reader "vector" = Py.Return (Some "Vector"%str)
  /\ ~ ((0 <= confidence broken_reader)%Q /\ (confidence broken_reader <= 1)%Q).
Proof.
  assert (H : read_weapon_name broken_reader "Vectar" = Py.Raise Py.ValueError)
    by (vm_compute; reflexivity).
  split; [exact H|]. split; [vm_compute; reflexivity|].
  apply (proj1 (read_weapon_name_raises broken_reader "Vectar" _) H).
Defined.

Lemma fmap_inj_on_NoDup {A B} (f : A -> B) (l : list A) x y :
  NoDup (f <$> l) -> x ∈ l -> y ∈ l -> f x = f y -> x = y.
Proof.
  induction l as [|a l IH]; intros Hnd Hx Hy Hf; [inversion Hx|].
  rewrite fmap_cons in Hnd. apply NoDup_cons in Hnd as [Ha Hnd].
  apply elem_of_cons in Hx as [->|Hx]; apply elem_of_cons in Hy as [->|Hy];
    auto.
  - exfalso. apply Ha. rewrite Hf. apply list_elem_of_fmap. eauto.
  - exfalso. apply Ha. rewrite <- Hf. apply list_elem_of_fmap. eauto.
Qed.

(** X11.  Round trip.  In a vocabulary whose entries stay distinct when
    lowercased, OCR output that, once stripped and lowercased, equals the
    lowercasing of an entry that is not empty resolves to that entry as
    the vocabulary spells it, whatever the threshold. *)
Theorem read_weapon_name_round_trip self raw name :
  NoDup (Py.lower <$> weapon_names self) ->
  name ∈ weapon_names self ->
  name <> [] ->
  Py.lower (Py.strip raw) = Py.lower name ->
  read_weapon_name self raw = Py.Return (Some name).
Proof.
  intros Hnd Hname Hne Hlow. unfold read_weapon_name, read_text.
  destruct (Py.strip raw) as [|c text] eqn:Htext.
  - destruct name; [congruence | discriminate Hlow].
  - destruct (exact_match _ _) as [first|] eqn:E.
    + apply exact_match_Some in E as [Hl (pre & post & Hnames & _)].
      assert (Hfirst : first ∈ weapon_names self)
        by (rewrite Hnames; apply elem_of_app; right; left).
      rewrite (fmap_inj_on_NoDup Py.lower _ first name Hnd Hfirst Hname);
        [reflexivity | congruence].
    + exfalso. apply (exact_match_None _ _ E name Hname). congruence.
Qed.

Lemma read_weapon_name_round_trip_witness :
  read_weapon_name sample_reader "  vEcToR " = Py.Return (Some "Vector"%str).
Proof.
  apply (read_weapon_name_round_trip sample_reader "  vEcToR " "Vector"%str).
  - apply (bool_decide_unpack _). vm_compute. exact I.
  - left.
  - discriminate.
  - vm_compute. reflexivity.
Defined.

Lemma _calculate_ratio_nonneg (matches length : nat) :
  (0 <= _calculate_ratio matches length)%Q.
Proof.
  destruct length as [|n]; simpl; [discriminate|].
  apply Qle_shift_div_l.
  - change 0%Q with (inject_Z 0). rewrite <- Zlt_Qlt. lia.
  - rewrite Qmult_0_l. apply Qmult_le_0_compat; [discriminate|].
    change 0%Q with (inject_Z 0). rewrite <- Zle_Qle. lia.
Qed.

Lemma ratio_nonneg (a b : str) : (0 <= ratio a b)%Q.
Proof. apply _calculate_ratio_nonneg. Qed.

(** X12.  A threshold of 0 turns nothing away: with a vocabulary that is
    not empty, every text that is not empty after stripping resolves to an
    entry. *)
Theorem zero_threshold_accepts self raw :
  (confidence self == 0)%Q ->
  weapon_names self <> [] ->
  Py.strip raw <> [] ->
  exists name,
    read_weapon_name self raw = Py.Return (Some name)
    /\ name ∈ weapon_names self.
Proof.
  intros Hc Hnames Htext.
  assert (H0 : (0 <= confidence self)%Q) by (rewrite Hc; apply Qle_refl).
  assert (H1 : (confidence self <= 1)%Q) by (rewrite Hc; discriminate).
  unfold read_weapon_name, read_text.
  destruct (Py.strip raw) as [|c text]; [congruence|].
  destruct (exact_match _ _) as [first|] eqn:E.
  - exists first. split; [reflexivity|].
    apply exact_match_Some in E as [_ (pre & post & -> & _)].
    apply elem_of_app. right. left.
  - destruct (get_close_matches_spec (c :: text) (weapon_names self)
                (confidence self) H0 H1)
      as [(best & -> & Hin & _)|[_ Hnone]].
    + exists best. auto.
    + exfalso. destruct (weapon_names self) as [|x names]; [congruence|].
      apply (Qlt_not_le _ _ (Hnone x ltac:(left))).
      rewrite Hc. apply ratio_nonneg.
Qed.

Lemma zero_threshold_accepts_witness :
  exists name,
    read_weapon_name lenient_reader "xyz" = Py.Return (Some name)
    /\ name ∈ weapon_names lenient_reader.
Proof.
  apply (zero_threshold_accepts lenient_reader "xyz").
  - reflexivity.
  - discriminate.
  - discriminate.
Defined.

Lemma common_no_shared (x y : str) : no_shared_char x y -> common x y = 0.
Proof.
  intros H. unfold common.
  replace (list_to_set_disj x ∩ list_to_set_disj y)
    with (∅ : gmultiset ascii); [apply gmultiset_size_empty|].
  apply gmultiset_eq. intros c.
  rewrite multiplicity_empty, multiplicity_intersection.
  destruct (decide (c ∈ x)) as [Hx|Hx].
  - assert (Hy : multiplicity c (list_to_set_disj y : gmultiset ascii) = 0).
    { apply not_elem_of_multiplicity. rewrite elem_of_list_to_set_disj.
      apply H, Hx. }
    lia.
  - assert (Hx' : multiplicity c (list_to_set_disj x : gmultiset ascii) = 0).
    { apply not_elem_of_multiplicity. rewrite elem_of_list_to_set_disj.
      exact Hx. }
    lia.
Qed.

Lemma ratio_no_shared (a b : str) :
  no_shared_char a b -> b <> [] -> (ratio a b == 0)%Q.
Proof.
  intros H Hb. unfold ratio.
  pose proof (matches_le_common a b) as Hle.
  rewrite (common_no_shared a b H) in Hle.
  replace (sum_list_with m_size (get_matching_blocks a b)) with 0 by lia.
  unfold _calculate_ratio.
  destruct (length a + length b) as [|n] eqn:E.
  - destruct b; [congruence | rewrite length_cons in E; lia].
  - unfold Qeq, Qdiv, Qmult; simpl. reflexivity.
Qed.

(** X13.  Unrelated text is turned away: for a positive threshold, text
    that is no entry in another letter case and shares no character with
    any vocabulary entry resolves to none. *)
Theorem unrelated_text_resolves_to_none self raw :
  (0 < confidence self)%Q -> (confidence self <= 1)%Q ->
  Py.strip raw <> [] ->
  (forall name, name ∈ weapon_names self ->
     Py.lower name <> Py.lower (Py.strip raw)) ->
  (forall name, name ∈ weapon_names self ->
     no_shared_char name (Py.strip raw)) ->
  read_weapon_name self raw = Py.Return None.
Proof.
  intros Hpos H1 Htext Hnone Hshare.
  unfold read_weapon_name, read_text.
  destruct (Py.strip raw) as [|c text] eqn:Es; [congruence|].
  destruct (exact_match _ _) as [first|] eqn:E.
  - exfalso. apply exact_match_Some in E as [Hl (pre & post & Hnames & _)].
    apply (Hnone first); [|exact Hl].
    rewrite Hnames. apply elem_of_app. right. left.
  - destruct (get_close_matches_spec (c :: text) (weapon_names self)
                (confidence self) (Qlt_le_weak _ _ Hpos) H1)
      as [(best & _ & Hin & Hc & _)|[-> _]]; [|reflexivity].
    exfalso. apply (Qlt_not_le _ _ Hpos).
    rewrite <- (ratio_no_shared best (c :: text)); auto.
Qed.

Lemma unrelated_text_resolves_to_none_witness :
  read_weapon_name sample_reader " 12:34 " = Py.Return None.
Proof.
  apply (unrelated_text_resolves_to_none sample_reader " 12:34 ").
  - reflexivity.
  - discriminate.
  - discriminate.
  - intros name Hname. vm_compute in Hname.
    apply elem_of_cons in Hname as [->|Hname]; [discriminate|].
    apply list_elem_of_singleton in Hname as ->. discriminate.
  - intros name Hname. vm_compute in Hname.
    change (Py.strip " 12:34 ") with "12:34"%str.
    apply elem_of_cons in Hname as [->|Hname];
      [|apply list_elem_of_singleton in Hname as ->];
      intros ch Hch Hin;
      repeat (apply elem_of_cons in Hch as [->|Hch];
              [repeat (apply elem_of_cons in Hin as [Hin|Hin];
                       [discriminate Hin|]); inversion Hin|]);
      inversion Hch.
Defined.

End WeaponNameMore.

(** ** OCRReader: more on the match signal *)

Section MatchInfoMore.

Import OCRReader.

Lemma isspace_lower_char (c : ascii) :
  Py.isspace (Py.lower_char c) = Py.isspace c.
Proof. destruct c as [[] [] [] [] [] [] [] []]; reflexivity. Qed.

Lemma lower_char_idempotent (c : ascii) :
  Py.lower_char (Py.lower_char c) = Py.lower_char c.
Proof. destruct c as [[] [] [] [] [] [] [] []]; reflexivity. Qed.

Lemma lower_idempotent (s : str) : Py.lower (Py.lower s) = Py.lower s.
Proof.
  unfold Py.lower. induction s as [|c s IH]; simpl; [reflexivity|].
  rewrite lower_char_idempotent, IH. reflexivity.
Qed.

Lemma lower_app (s t : str) : Py.lower (s ++ t) = Py.lower s ++ Py.lower t.
Proof. unfold Py.lower. apply map_app. Qed.

Lemma lower_reverse (s : str) : Py.lower (reverse s) = reverse (Py.lower s).
Proof.
  induction s as [|c s IH]; [reflexivity|].
  rewrite reverse_cons, lower_app, IH. simpl. rewrite reverse_cons.
  reflexivity.
Qed.

Lemma lower_lstrip (s : str) : Py.lower (Py.lstrip s) = Py.lstrip (Py.lower s).
Proof.
  induction s as [|c s IH]; [reflexivity|]. simpl.
  rewrite isspace_lower_char. destruct (Py.isspace c); [exact IH | reflexivity].
Qed.

(** Stripping and lowercasing can be done in either order. *)
Lemma lower_strip (s : str) : Py.lower (Py.strip s) = Py.strip (Py.lower s).
Proof.
  unfold Py.strip, Py.rstrip.
  rewrite lower_reverse, lower_lstrip, lower_reverse, lower_lstrip.
  reflexivity.
Qed.

Lemma substring_objective (s : str) :
  Py.substring "objective" s -> Py.substring "objectiv" s.
Proof.
  intros (pre & post & ->). exists pre, ("e"%str ++ post). reflexivity.
Qed.

(** X14.  [has_objective] is decided by the substring ["objectiv"] alone,
    the test for the full keyword adds nothing; and it depends on the OCR
    output only through its lowercased form, so the letter case of what
    was read never matters. *)
Theorem has_objective_ignores_case (raw : str) :
  has_objective (read_match_info raw)
  = Py.contains (Py.lower (Py.strip raw)) "objectiv"
  /\ forall raw',
       Py.lower raw' = Py.lower raw ->
       has_objective (read_match_info raw')
       = has_objective (read_match_info raw).
Proof.
  assert (H : forall r,
            has_objective (read_match_info r)
            = Py.contains (Py.strip (Py.lower r)) "objectiv").
  { intros r. unfold read_match_info; simpl. rewrite lower_strip.
    destruct (Py.contains _ "objective") eqn:E; [|reflexivity].
    apply contains_spec, substring_objective, contains_spec in E.
    rewrite E. reflexivity. }
  split.
  - rewrite H, lower_strip. reflexivity.
  - intros raw' Hlow. rewrite !H, Hlow. reflexivity.
Qed.

Lemma has_objective_ignores_case_witness :
  has_objective (read_match_info "OBJECTIV 1:23")
  = has_objective (read_match_info "objectiv 1:23").
Proof.
  apply (proj2 (has_objective_ignores_case "objectiv 1:23")).
  reflexivity.
Defined.

End MatchInfoMore.

(** ** DiscordRPC: the connection and the payload *)

Section DiscordFacts.

Import DiscordRPC.

Lemma step_keeps self c :
  (connected self = true -> rpc_set self = true) ->
  (connected (step self c) = true -> rpc_set (step self c) = true)
  /\ settings (step self c) = settings self.
Proof.
  intros H. destruct c as [o|name ts o|a b]; simpl.
  - destruct o; simpl; split; auto; discriminate.
  - unfold update.
    destruct (negb (connected self) || negb (rpc_set self));
      [split; auto|].
    destruct o; simpl; split; auto; discriminate.
  - unfold disconnect. destruct (rpc_set self) eqn:E; simpl; split; auto.
    intros Hc. apply H in Hc. discriminate.
Qed.

Lemma after_keeps calls : forall self,
  (connected self = true -> rpc_set self = true) ->
  (connected (after calls self) = true -> rpc_set (after calls self) = true)
  /\ settings (after calls self) = settings self.
Proof.
  induction calls as [|c calls IH]; intros self H; [split; auto|].
  cbn [after foldl]. fold (after calls (step self c)).
  destruct (step_keeps self c H) as [H1 H2].
  destruct (IH (step self c) H1) as [H3 H4].
  split; [exact H3 | congruence].
Qed.

(** X15.  Whatever methods are called on an object made by [__init__], in
    whatever order and with whatever the transport does: the settings stay
    as [__init__] stored them, [connected] implies that the transport
    object exists, and so [update] makes a publish call exactly when
    [connected] is set. *)
Theorem connected_implies_transport client small large disp icons calls :
  let rpc := after calls (init client small large disp icons) in
  settings rpc = settings (init client small large disp icons)
  /\ (connected rpc = true -> rpc_set rpc = true)
  /\ forall name ts outcome,
       (update rpc name ts outcome).2
       = if connected rpc then Some (build_kwargs rpc name ts) else None.
Proof.
  intros rpc.
  destruct (after_keeps calls (init client small large disp icons))
    as [H1 H2]; [discriminate|].
  fold rpc in H1, H2. split; [exact H2|]. split; [exact H1|].
  intros name ts outcome. unfold update.
  destruct (connected rpc) eqn:Hc; simpl; [|reflexivity].
  rewrite (H1 eq_refl). simpl. destruct outcome; reflexivity.
Qed.

Lemma connected_implies_transport_witness :
  let rpc := after [Connect ConnectFailed; Connect Connected;
                    Update None None OtherError]
               (init "1234567890" None None
                  {| show_character := None; show_timer := None |} ∅) in
  connected rpc = true /\ rpc_set rpc = true.
Proof.
  assert (Hc : connected
                 (after [Connect ConnectFailed; Connect Connected;
                         Update None None OtherError]
                    (init "1234567890" None None
                       {| show_character := None; show_timer := None |} ∅))
               = true) by reflexivity.
  split; [exact Hc|].
  exact (proj1 (proj2 (connected_implies_transport "1234567890" None None
                         {| show_character := None; show_timer := None |} ∅
                         [Connect ConnectFailed; Connect Connected;
                          Update None None OtherError])) Hc).
Defined.

(** X16.  After [disconnect], on an object made by [__init__] and used in
    any way, the connection is unusable whatever [clear] and [close] did:
    every [update] is a no-op, a second [disconnect] changes nothing, and
    only a [connect] that succeeds makes it usable again. *)
Theorem disconnect_is_final client small large disp icons calls a b :
  let rpc :=
    disconnect (after calls (init client small large disp icons)) a b in
  connected rpc = false
  /\ (forall name ts outcome, update rpc name ts outcome = (rpc, None))
  /\ (forall a' b', disconnect rpc a' b' = rpc)
  /\ (forall outcome,
        connected (connect rpc outcome).1 = true <-> outcome = Connected).
Proof.
  intros rpc.
  destruct (after_keeps calls (init client small large disp icons))
    as [H1 _]; [discriminate|].
  set (before := after calls _) in *.
  assert (Hc : connected rpc = false).
  { subst rpc. unfold disconnect.
    destruct (rpc_set before) eqn:E; [reflexivity|].
    destruct (connected before) eqn:E'; [|reflexivity].
    specialize (H1 eq_refl). discriminate H1. }
  split; [exact Hc|]. split; [|split].
  - intros name ts outcome. unfold update. rewrite Hc. reflexivity.
  - intros a' b'. unfold disconnect at 1.
    destruct (rpc_set rpc) eqn:E; [|reflexivity].
    destruct rpc; simpl in *; subst; reflexivity.
  - intros outcome. destruct outcome; simpl; split; congruence.
Qed.

Lemma is_Some_iff {A B} (x : option A) (y : option B) :
  (x = None <-> y = None) -> (is_Some x <-> is_Some y).
Proof.
  intros H. rewrite <- !not_eq_None_Some. split; intros Hn Hx; apply Hn, H, Hx.
Qed.

(** X17.  Every payload has an image, a text, details and a state; the
    state is ["In Match"] or ["In Menu"]; a start timestamp comes with
    ["In Match"] and only with it; and the small image and text come
    together, with details that name a character and only with them. *)
Theorem payload_shape self name ts :
  let kw := build_kwargs self name ts in
  is_Some (large_image kw) /\ is_Some (large_text_ kw)
  /\ is_Some (details kw)
  /\ (state kw = Some "In Match"%str \/ state kw = Some "In Menu"%str)
  /\ (is_Some (start kw) <-> state kw = Some "In Match"%str)
  /\ (is_Some (small_image_ kw) <-> is_Some (small_text kw))
  /\ (is_Some (small_image_ kw)
      <-> exists who, details kw = Some ("Playing as "%str ++ who)).
Proof.
  unfold build_kwargs.
  destruct (Py.truthy_str name
            && Py.get_default (show_character (display self)) true) eqn:Ec;
  destruct (Py.truthy_float ts
            && Py.get_default (show_timer (display self)) true) eqn:Et;
  try (destruct (Py.truthy_str (character_icons self !! default [] name))
         eqn:Ei);
  try (apply andb_true_iff in Et as [Et _]; destruct ts as [t|];
       [|discriminate Et]);
  try (apply andb_true_iff in Ec as [Ec _]);
  try (destruct (character_icons self !! default [] name) as [icon|];
       [|discriminate Ei]);
  simpl; repeat split; eauto;
    try (intros [x Hx]; discriminate Hx); try discriminate;
    try (intros [who Hwho]; discriminate Hwho).
Qed.

(** With [show_character] off the payload is the one built without a
    character; with [show_timer] off, the one built without a start
    time. *)
Lemma build_kwargs_hidden self name ts :
  (show_character (display self) = Some false ->
   build_kwargs self name ts = build_kwargs self None ts)
  /\ (show_timer (display self) = Some false ->
      build_kwargs self name ts = build_kwargs self name None).
Proof.
  unfold build_kwargs. split; intros ->; simpl.
  - rewrite andb_false_r. reflexivity.
  - rewrite andb_false_r. reflexivity.
Qed.

End DiscordFacts.

(** ** The main loop: what a tick publishes and keeps *)

Section LoopFacts.

Import DiscordRPC Main.

(** What a tick publishes is [build_kwargs] of the character and the
    start time the tick ends with. *)
Lemma tick_published env st inp kw :
  published (tick env st inp).2 = Some kw ->
  kw = build_kwargs (discord st) (current_character (tick env st inp).1)
         (MatchTracker.start_timestamp (tracker (tick env st inp).1)).
Proof.
  unfold tick.
  destruct (weapon_raw inp) as [raw_weapon|]; [|discriminate].
  destruct (OCRReader.read_weapon_name _ _) as [weapon_name|];
    [|discriminate].
  destruct (match_raw inp) as [raw_match|]; [|discriminate].
  set (tr := MatchTracker.update _ _ _).
  set (cc := if negb (MatchTracker.in_match tr) then None else _).
  unfold DiscordRPC.update.
  destruct (connected (discord st)) eqn:Hc,
           (rpc_set (discord st)) eqn:Hr; simpl; rewrite ?Hc; simpl;
    try discriminate.
  destruct (publish inp); simpl; rewrite ?Hc; simpl; intros [= <-];
    reflexivity.
Qed.

Lemma tick_settings env st inp :
  settings (discord (tick env st inp).1) = settings (discord st).
Proof.
  unfold tick.
  destruct (weapon_raw inp) as [raw_weapon|]; [|reflexivity].
  destruct (OCRReader.read_weapon_name _ _) as [weapon_name|]; [|reflexivity].
  destruct (match_raw inp) as [raw_match|]; [|reflexivity].
  unfold DiscordRPC.update.
  destruct (connected (discord st)) eqn:Hc,
           (rpc_set (discord st)) eqn:Hr; simpl; rewrite ?Hc; simpl;
    try reflexivity;
    try (destruct (reconnect inp); reflexivity).
  destruct (publish inp); simpl; rewrite ?Hc; simpl; try reflexivity.
  destruct (reconnect inp); reflexivity.
Qed.

Lemma loop_events env inputs : forall st ev,
  ev ∈ (loop env st inputs).2 ->
  exists st' inp,
    settings (discord st') = settings (discord st)
    /\ ev = (tick env st' inp).2.
Proof.
  induction inputs as [|inp inputs IH]; intros st ev; simpl;
    [intros H; inversion H|].
  pose proof (tick_settings env st inp) as Hset.
  destruct (tick env st inp) as [st1 ev1] eqn:Htick.
  specialize (IH st1).
  destruct (loop env st1 inputs) as [st2 evs]. simpl in *.
  intros H. apply elem_of_cons in H as [->|H].
  - exists st, inp. rewrite Htick. auto.
  - destruct (IH ev H) as (st' & inp' & Hs & Hev).
    exists st', inp'. split; [congruence | exact Hev].
Qed.

(** X18.  The display options are obeyed for the whole run.  With
    [show_character] off no payload the loop publishes names a character
    or carries a character's image: its details are ["In Game"] and its
    image and text are the generic ones.  With [show_timer] off no payload
    carries a start timestamp, and the state is always ["In Menu"]. *)
Theorem display_options_obeyed env cfg rpc inputs ev kw :
  ev ∈ (loop env (Main.start cfg rpc) inputs).2 ->
  published ev = Some kw ->
  (show_character (display rpc) = Some false ->
   details kw = Some "In Game"%str
   /\ large_image kw = Some (small_image rpc)
   /\ large_text_ kw = Some (large_text rpc)
   /\ small_image_ kw = None /\ small_text kw = None)
  /\ (show_timer (display rpc) = Some false ->
      state kw = Some "In Menu"%str /\ DiscordRPC.start kw = None).
Proof.
  intros Hev Hpub.
  apply loop_events in Hev as (st & inp & Hset & ->).
  apply tick_published in Hpub.
  assert (Hs : settings (discord st) = settings rpc) by (rewrite Hset; reflexivity).
  unfold settings in Hs. injection Hs as _ Hsmall Hlarge Hdisp _.
  split; intros Hoff.
  - rewrite <- Hdisp in Hoff.
    rewrite (proj1 (build_kwargs_hidden _ _ _) Hoff) in Hpub.
    rewrite Hpub, <- Hsmall, <- Hlarge. unfold build_kwargs. simpl.
    destruct (Py.truthy_float _ && _); repeat split.
  - rewrite <- Hdisp in Hoff.
    rewrite (proj2 (build_kwargs_hidden _ _ _) Hoff) in Hpub.
    rewrite Hpub. unfold build_kwargs. simpl.
    destruct (Py.truthy_str _ && _); [destruct (Py.truthy_str _)|];
      split; reflexivity.
Qed.

Lemma display_options_obeyed_witness :
  exists kw,
    published (tick sample_env
                 (Main.start MatchTracker.no_match_section no_timer_rpc)
                 invalid_session).2 = Some kw
    /\ state kw = Some "In Menu"%str /\ DiscordRPC.start kw = None.
Proof.
  assert (Hpub : published
                   (tick sample_env
                      (Main.start MatchTracker.no_match_section no_timer_rpc)
                      invalid_session).2
                 = Some (build_kwargs no_timer_rpc (Some "Kokona"%str)
                           (Some 100%Q)))
    by (vm_compute; reflexivity).
  eexists. split; [exact Hpub|].
  apply (proj2 (display_options_obeyed sample_env
                  MatchTracker.no_match_section no_timer_rpc
                  [invalid_session] _ _ ltac:(simpl; left) Hpub)).
  reflexivity.
Defined.

(** X19.  What a tick publishes is built from what the tick ends with:
    the payload is [build_kwargs] of the character and the tracker's start
    time as the tick leaves them.  So with the timer not switched off, a
    tick that ends in a match whose start time is not 0 publishes state
    ["In Match"] and that start time in whole seconds. *)
Theorem published_payload env st inp kw :
  published (tick env st inp).2 = Some kw ->
  let after := (tick env st inp).1 in
  kw = build_kwargs (discord st) (current_character after)
         (MatchTracker.start_timestamp (tracker after))
  /\ forall started,
       MatchTracker.match_start_time (tracker after) = Some started ->
       ~ (started == 0)%Q ->
       show_timer (display (discord st)) <> Some false ->
       state kw = Some "In Match"%str
       /\ DiscordRPC.start kw = Some (Py.int started).
Proof.
  intros Hpub after.
  pose proof (tick_published env st inp kw Hpub) as Hkw. fold after in Hkw.
  split; [exact Hkw|].
  intros started Hs Hne Hshow. rewrite Hkw. unfold build_kwargs.
  unfold MatchTracker.start_timestamp. rewrite Hs.
  assert (Ht : Py.truthy_float (Some started) = true).
  { simpl. destruct (Qeq_bool started 0) eqn:E; [|reflexivity].
    apply Qeq_bool_iff in E. contradiction. }
  assert (Hd : Py.get_default (show_timer (display (discord st))) true = true).
  { destruct (show_timer (display (discord st))) as [[]|]; simpl; congruence. }
  rewrite Ht, Hd. simpl.
  destruct (Py.truthy_str (current_character after) && _);
    [destruct (Py.truthy_str _)|]; split; reflexivity.
Qed.

Lemma published_payload_witness :
  exists kw,
    published (tick sample_env sample_start invalid_session).2 = Some kw
    /\ state kw = Some "In Match"%str
    /\ DiscordRPC.start kw = Some 100%Z.
Proof.
  assert (Hpub : published (tick sample_env sample_start invalid_session).2
                 = Some (build_kwargs (discord sample_start)
                           (Some "Kokona"%str) (Some 100%Q)))
    by (vm_compute; reflexivity).
  eexists. split; [exact Hpub|].
  apply (proj2 (published_payload sample_env sample_start invalid_session
                  _ Hpub) 100%Q).
  - vm_compute. reflexivity.
  - discriminate.
  - discriminate.
Defined.

Lemma weapon_map_get_Some m key value :
  weapon_map_get m key = Some value -> (key, value) ∈ m.
Proof.
  induction m as [|[k v] m IH]; simpl; [discriminate|].
  case_bool_decide as Hk.
  - intros [= <-]. subst k. left.
  - intros H. right. exact (IH H).
Qed.

Lemma resolve_character_known env current weapon_name :
  known_character env current ->
  known_character env (resolve_character env current weapon_name).
Proof.
  intros Hcur. unfold resolve_character.
  destruct (Py.truthy_str weapon_name); [|exact Hcur].
  destruct (weapon_map_get _ _) as [character|] eqn:E; [|exact Hcur].
  destruct (Py.truthy_str (Some character) && _) eqn:Ht; [|exact Hcur].
  apply andb_true_iff in Ht as [Ht _].
  split.
  - destruct character; [discriminate Ht | discriminate].
  - eexists. exact (weapon_map_get_Some _ _ _ E).
Qed.

Lemma tick_known env st inp :
  known_character env (current_character st) ->
  known_character env (current_character (tick env st inp).1).
Proof.
  intros Hcur. unfold tick.
  destruct (weapon_raw inp) as [raw_weapon|]; [|exact Hcur].
  destruct (OCRReader.read_weapon_name _ _) as [weapon_name|]; [|exact Hcur].
  pose proof (resolve_character_known env _ weapon_name Hcur) as Hres.
  destruct (match_raw inp) as [raw_match|]; [|exact Hres].
  destruct (DiscordRPC.update _ _ _ _) as [d sent].
  destruct (negb (connected d)); simpl;
    destruct (negb (MatchTracker.in_match _)); simpl; auto.
Qed.

Lemma loop_known env inputs : forall st,
  known_character env (current_character st) ->
  known_character env (current_character (loop env st inputs).1).
Proof.
  induction inputs as [|inp inputs IH]; intros st Hst; simpl; [exact Hst|].
  pose proof (tick_known env st inp Hst) as Hst'.
  destruct (tick env st inp) as [st' ev]. specialize (IH st' Hst').
  destruct (loop env st' inputs) as [st'' evs]. exact IH.
Qed.

(** X20.  The character the loop holds is never made up: after any
    number of ticks from the start it is none, or a name that is not empty
    and is the weapon map's value for some weapon. *)
Theorem current_character_is_known env cfg rpc inputs :
  known_character env
    (current_character (loop env (Main.start cfg rpc) inputs).1).
Proof. apply loop_known. exact I. Qed.

(** X21.  A tick that resolves no weapon does not touch the character.
    When the weapon reading gives none (empty text, or text that matches
    nothing) and the tick goes on to the tracker, the character after the
    tick is the one before it if the tick ends in a match, and none if it
    does not. *)
Theorem unresolved_weapon_keeps_character env st inp raw_weapon raw_match :
  weapon_raw inp = Py.Return raw_weapon ->
  OCRReader.read_weapon_name (ocr env) raw_weapon = Py.Return None ->
  match_raw inp = Py.Return raw_match ->
  let after := (tick env st inp).1 in
  current_character after
  = if MatchTracker.in_match (tracker after) then current_character st
    else None.
Proof.
  intros Hw Hn Hm. unfold tick. rewrite Hw, Hn, Hm.
  destruct (DiscordRPC.update _ _ _ _) as [d sent].
  destruct (negb (connected d)); simpl;
    destruct (MatchTracker.in_match _); reflexivity.
Qed.

Lemma unresolved_weapon_keeps_character_witness :
  let st := (tick sample_env sample_start invalid_session).1 in
  current_character st = Some "Kokona"%str
  /\ current_character (tick sample_env st no_weapon_text).1
     = Some "Kokona"%str.
Proof.
  split; [vm_compute; reflexivity|].
  rewrite (unresolved_weapon_keeps_character sample_env
             (tick sample_env sample_start invalid_session).1
             no_weapon_text "   " "Objective 1:30").
  - vm_compute. reflexivity.
  - reflexivity.
  - vm_compute. reflexivity.
  - reflexivity.
Defined.

Lemma tick_stays_connected env st inp :
  connected (discord st) = true -> rpc_set (discord st) = true ->
  publish inp <> InvalidID ->
  discord (tick env st inp).1 = discord st
  /\ connect_calls (tick env st inp).2 = 0.
Proof.
  intros Hc Hr Hp. unfold tick.
  destruct (weapon_raw inp) as [raw_weapon|]; [|split; reflexivity].
  destruct (OCRReader.read_weapon_name _ _) as [weapon_name|];
    [|split; reflexivity].
  destruct (match_raw inp) as [raw_match|]; [|split; reflexivity].
  unfold DiscordRPC.update. rewrite Hc, Hr. simpl.
  destruct (publish inp); try congruence; simpl; rewrite Hc; simpl;
    split; reflexivity.
Qed.

Lemma loop_stays_connected env inputs : forall st,
  connected (discord st) = true -> rpc_set (discord st) = true ->
  Forall (fun inp => publish inp <> InvalidID) inputs ->
  discord (loop env st inputs).1 = discord st
  /\ Forall (fun ev => connect_calls ev = 0) (loop env st inputs).2.
Proof.
  induction inputs as [|inp inputs IH]; intros st Hc Hr Hall; simpl;
    [split; [reflexivity | constructor]|].
  inversion Hall as [|? ? Hp Hall']; subst.
  destruct (tick_stays_connected env st inp Hc Hr Hp) as [Hd Hcalls].
  destruct (tick env st inp) as [st' ev]. simpl in Hd, Hcalls.
  destruct (IH st') as [Hd' Hcalls']; [congruence | congruence | exact Hall'|].
  destruct (loop env st' inputs) as [st'' evs]. simpl in *.
  split; [congruence | constructor; assumption].
Qed.

(** X22.  As long as no publish call fails with an invalid session, the
    loop never calls [connect] again and the connection object stays as
    the start left it, whatever else fails in the ticks. *)
Theorem no_invalid_session_no_reconnect env cfg rpc inputs :
  Forall (fun inp => publish inp <> InvalidID) inputs ->
  let run := loop env (Main.start cfg rpc) inputs in
  discord run.1 = discord (Main.start cfg rpc)
  /\ connected (discord run.1) = true
  /\ Forall (fun ev => connect_calls ev = 0) run.2.
Proof.
  intros Hall run.
  destruct (loop_stays_connected env inputs (Main.start cfg rpc))
    as [Hd Hcalls]; [reflexivity | reflexivity | exact Hall|].
  fold run in Hd, Hcalls. split; [exact Hd|]. split; [|exact Hcalls].
  rewrite Hd. reflexivity.
Qed.

Lemma no_invalid_session_no_reconnect_witness :
  let run := loop sample_env sample_start (capture_fails :: match_then_two_misses) in
  discord run.1 = discord sample_start
  /\ connected (discord run.1) = true
  /\ Forall (fun ev => connect_calls ev = 0) run.2.
Proof.
  apply (no_invalid_session_no_reconnect sample_env
           MatchTracker.no_match_section sample_rpc
           (capture_fails :: match_then_two_misses)).
  repeat constructor; discriminate.
Defined.

(** X23.  A tick in which a capture, the recognition or the matching
    raises does nothing to the outside: it publishes nothing, calls
    [connect] not at all, and leaves the tracker and the connection as
    they were. *)
Theorem failed_tick_is_silent env st inp :
  ~ reaches_update env inp ->
  (tick env st inp).2 = no_events
  /\ tracker (tick env st inp).1 = tracker st
  /\ discord (tick env st inp).1 = discord st.
Proof.
  intros Hno. unfold tick.
  destruct (weapon_raw inp) as [raw_weapon|] eqn:Hw; [|repeat split].
  destruct (OCRReader.read_weapon_name _ _) as [weapon_name|] eqn:Hn;
    [|repeat split].
  destruct (match_raw inp) as [raw_match|] eqn:Hm; [|repeat split].
  exfalso. apply Hno. exists raw_weapon, weapon_name, raw_match. auto.
Qed.

Lemma failed_tick_is_silent_witness :
  (tick sample_env sample_start capture_fails).2 = no_events
  /\ tracker (tick sample_env sample_start capture_fails).1
     = tracker sample_start
  /\ discord (tick sample_env sample_start capture_fails).1
     = discord sample_start.
Proof.
  apply (failed_tick_is_silent sample_env sample_start capture_fails).
  intros (raw_weapon & _ & _ & Hw & _). discriminate Hw.
Defined.

Lemma connect_then_connected rpc outcome :
  (connect (connect rpc outcome).1 Connected).1 = (connect rpc Connected).1.
Proof. destruct outcome; reflexivity. Qed.

(** X24.  The retry loop at startup ends with the first [connect] that
    succeeds: it has slept once for each failure before it, and the
    object it ends with is the one a first-time success gives, connected
    and with its transport object, which is what the main loop starts
    from.  With no success among the outcomes it has not ended. *)
Theorem startup_ends_at_first_success rpc failures rest :
  Forall (fun outcome => outcome <> Connected) failures ->
  startup rpc (failures ++ Connected :: rest)
  = Some ((connect rpc Connected).1, length failures)
  /\ connected (connect rpc Connected).1 = true
  /\ rpc_set (connect rpc Connected).1 = true
  /\ startup rpc failures = None.
Proof.
  intros Hall. split; [|split; [reflexivity|split; [reflexivity|]]].
  - revert rpc. induction Hall as [|outcome failures Ho _ IH]; intros rpc.
    + reflexivity.
    + cbn [app startup length].
      destruct outcome; [congruence|..]; simpl;
        rewrite IH; reflexivity.
  - revert rpc. induction Hall as [|outcome failures Ho _ IH]; intros rpc.
    + reflexivity.
    + cbn [startup]. destruct outcome; [congruence|..]; simpl;
        rewrite IH; reflexivity.
Qed.

Lemma startup_ends_at_first_success_witness :
  startup sample_rpc [ConnectFailed; PresenceFailed; Connected; ConnectFailed]
  = Some ((connect sample_rpc Connected).1, 2).
Proof.
  apply (startup_ends_at_first_success sample_rpc
           [ConnectFailed; PresenceFailed] [ConnectFailed]).
  repeat constructor; discriminate.
Defined.

End LoopFacts.
